(** * ckit: the Mercury provider's cell collection, the transaction poller
      and the ACP transfer builder

    A shallow embedding of
    - [packages/ckit/src/providers/mercury/MercuryProvider.ts]
      ([collectCkbLiveCells], [getCkbLiveCellsBalance], [collectUdtCells],
      [getUdtBalance], [waitForTransactionCommitted]) and
    - [AcpTransferSudtBuilder.build],
    followed by the properties the specification states about them. *)

From Stdlib Require Import ZArith List String Ascii Bool Lia HexString.
Import ListNotations.

#[local] Open Scope string_scope.
#[local] Open Scope list_scope.
#[local] Open Scope Z_scope.

(* ================================================================== *)
(** * Part I: the program *)
(* ================================================================== *)

(** ** Values that cross the RPC boundary *)

Definition HexString := string.
Definition HexNumber := string.
Definition Address := string.
Definition Hash := string.
Definition Cursor := HexString.

(** A JavaScript [bigint]: arbitrary precision, so plain [Z]. *)
Definition bigint := Z.

Record Script : Type := {
  code_hash : Hash;
  hash_type : string;
  args : HexString
}.

Definition CkbTypeScript := Script.

Record OutPoint : Type := {
  tx_hash : Hash;
  index : HexNumber
}.

(** [output.type] is optional: [None] stands for [null]/[undefined], the
    two values [== null] accepts. *)
Record Output : Type := {
  capacity : HexNumber;
  lock : Script;
  type : option Script
}.

Record ResolvedOutpoint : Type := {
  out_point : OutPoint;
  output : Output;
  output_data : HexString
}.

Inductive ScriptType : Type := script_type_lock | script_type_type.

Record SearchFilter : Type := {
  filter_script : option Script;
  output_data_len_range : option (HexNumber * HexNumber)
}.

Record SearchKey : Type := {
  script : Script;
  script_type : ScriptType;
  filter : option SearchFilter
}.

Record GetCellsPayload : Type := {
  search_key : SearchKey;
  after_cursor : option Cursor
}.

Record GetCellsResponse : Type := {
  objects : list ResolvedOutpoint;
  last_cursor : Cursor
}.

(** ** Exceptions and promises *)

Record NoEnoughPayload : Type := {
  err_lock : Script;
  expected : HexNumber;
  actual : HexNumber
}.

Inductive JsError : Type :=
| SyntaxError (input : string)
| RangeError (input : string)
| TransportError (message : string)
| InvalidAddress (address : Address)
| NoEnoughCkbError (payload : NoEnoughPayload)
| NoEnoughUdtError (payload : NoEnoughPayload)
| RecipientSameWithSenderError (address : Address).

(** A computation that returns or throws; a settled promise is the same
    thing (resolved or rejected). *)
Inductive Result (A : Type) : Type :=
| Ok (a : A)
| Throw (e : JsError).
Arguments Ok {A} a.
Arguments Throw {A} e.

Definition Promise := Result.

Definition bind {A B : Type} (r : Result A) (k : A -> Result B) : Result B :=
  match r with
  | Ok a => k a
  | Throw e => Throw e
  end.

Notation "x <- r ;; k" := (bind r (fun x => k))
  (at level 61, r at next level, right associativity).

(** What awaiting an [async] method gives. [Pending] is the run that has
    not settled within the number of page requests the model was allowed. *)
Inductive Outcome (A : Type) : Type :=
| Returned (a : A)
| Thrown (e : JsError)
| Pending.
Arguments Returned {A} a.
Arguments Thrown {A} e.
Arguments Pending {A}.

(** ** Hexadecimal numbers *)

(** The digits of a hexadecimal literal, most significant first. *)
Fixpoint hexDigits (s : string) (acc : Z) : option Z :=
  match s with
  | EmptyString => Some acc
  | String ch s' =>
      match HexString.ascii_to_digit ch with
      | Some v => hexDigits s' (16 * acc + Z.of_N v)
      | None => None
      end
  end.

(** The digits after a [0x] or [0X] prefix, if the string has one. *)
Definition strip0x (s : string) : option string :=
  match s with
  | String z (String x body) =>
      if (Ascii.eqb z "0" && (Ascii.eqb x "x" || Ascii.eqb x "X"))%bool
      then Some body else None
  | _ => None
  end.

(** [BigInt(s)] on a [HexNumber]: [0x] (or [0X]) and at least one digit.
    Anything else of this shape is a [SyntaxError]. The other literals
    JavaScript reads (decimal, octal, binary, surrounding blanks) are not
    [HexNumber]s and are rejected here as well. *)
Definition BigInt (s : string) : Result bigint :=
  match strip0x s with
  | Some (String c body) =>
      match hexDigits (String c body) 0 with
      | Some n => Ok n
      | None => Throw (SyntaxError s)
      end
  | _ => Throw (SyntaxError s)
  end.

(** Modelled from the spec: [Amount.from(x).toHex()] of [../../helpers] and
    [bytes.toHex] of [@ckitjs/utils] are missing from the sources. Amounts
    cross the boundary as [0x]-prefixed hexadecimal strings encoding
    unsigned integers, rendered without loss. *)
Definition toHex (x : bigint) : HexNumber := HexString.of_Z x.

(** ** The token amount in a cell's payload *)

(** Two hexadecimal digits per byte. *)
Fixpoint hexBytes (s : string) : option (list Z) :=
  match s with
  | EmptyString => Some []
  | String hi (String lo s') =>
      match HexString.ascii_to_digit hi, HexString.ascii_to_digit lo, hexBytes s' with
      | Some h, Some l, Some bs => Some (16 * Z.of_N h + Z.of_N l :: bs)
      | _, _, _ => None
      end
  | String _ EmptyString => None
  end.

Definition hexDigitChar (d : Z) : ascii :=
  match d with
  | 0 => "0" | 1 => "1" | 2 => "2" | 3 => "3" | 4 => "4" | 5 => "5"
  | 6 => "6" | 7 => "7" | 8 => "8" | 9 => "9" | 10 => "a" | 11 => "b"
  | 12 => "c" | 13 => "d" | 14 => "e" | _ => "f"
  end%char.

Fixpoint bytesHex (bs : list Z) : string :=
  match bs with
  | [] => EmptyString
  | b :: bs' => String (hexDigitChar (b / 16)) (String (hexDigitChar (b mod 16)) (bytesHex bs'))
  end.

(** [s.slice(0, n)] on a string. *)
Definition slice0 (n : nat) (s : string) : string := String.substring 0 n s.

(** Modelled from the spec: [toBigUInt128LE] of [@lay2/pw-core] is missing
    from the sources. The token amount is a 16-byte little-endian unsigned
    integer in the payload's first 16 bytes; the helper turns the 16 bytes
    it is handed, written as [0x] and 32 digits, into the hexadecimal
    literal of the same bytes in the opposite order, which [BigInt] then
    reads most significant byte first. On anything that is not 16 bytes
    the spec is silent and the model throws. *)
Definition toBigUInt128LE (u128 : HexString) : Result HexString :=
  match strip0x u128 with
  | Some body =>
      match hexBytes body with
      | Some bs =>
          if (List.length bs =? 16)%nat
          then Ok (String "0" (String "x" (bytesHex (rev bs))))
          else Throw (RangeError u128)
      | None => Throw (SyntaxError u128)
      end
  | None => Throw (SyntaxError u128)
  end.

(** Modelled from the spec: the writer of the token payload is missing
    from the sources. It is the 16-byte little-endian encoding of an
    unsigned integer, as a [0x]-prefixed payload. *)
Fixpoint bytesLE (n : nat) (x : Z) : list Z :=
  match n with
  | O => []
  | S n' => x mod 256 :: bytesLE n' (x / 256)
  end.

Definition encodeUInt128LE (x : bigint) : HexString :=
  String "0" (String "x" (bytesHex (bytesLE 16 x))).

(** The little-endian value of a sequence of bytes. *)
Fixpoint valueLE (bs : list Z) : Z :=
  match bs with
  | [] => 0
  | b :: bs' => b + 256 * valueLE bs'
  end.

(** ** Observables

    An rxjs observable is known here by what it has emitted so far and by
    how it ended: completed, failed, or not ended yet ([Unfinished]: the
    values listed are the first ones, more may follow). *)

Inductive Ending : Type :=
| Complete
| Error (e : JsError)
| Unfinished.

Record Observable (A : Type) : Type := {
  emitted : list A;
  ending : Ending
}.
Arguments emitted {A} o.
Arguments ending {A} o.

Definition push {A : Type} (a : A) (o : Observable A) : Observable A :=
  {| emitted := a :: emitted o; ending := ending o |}.

Definition halt {A : Type} (e : Ending) : Observable A :=
  {| emitted := []; ending := e |}.

(** [from(promise)] *)
Definition from {A : Type} (p : Promise A) : Observable A :=
  match p with
  | Ok a => push a (halt Complete)
  | Throw e => halt (Error e)
  end.

(** [expand(project, 1)] after [from(promise)]: every value is emitted and
    then handed to [project], whose promise gives the next value. The
    recursion never completes by itself; [fuel] bounds the number of
    [project] calls that are followed. This is the trace for a subscriber
    that stays; the operators downstream cut it where they complete, and
    [projectedFrom] below has the calls of [project] made until then. *)
Fixpoint expandFrom {A : Type} (project : A -> Promise A) (fuel : nat) (v : A)
  : Observable A :=
  match fuel with
  | O => push v (halt Unfinished)
  | S fuel' =>
      match project v with
      | Ok w => push v (expandFrom project fuel' w)
      | Throw e => push v (halt (Error e))
      end
  end.

Definition expand {A : Type} (project : A -> Promise A) (fuel : nat)
  (source : Observable A) : Observable A :=
  match emitted source with
  | v :: _ => expandFrom project fuel v
  | [] => source
  end.

(** [expand(project, 1)] seen from [project]: the values it is called on.
    A value is handed to the subscriber first and [project] is called on
    it next, whether or not the subscriber has left while it was handed
    the value. Once the subscriber has left, what that last call of
    [project] gives is dropped: it is neither handed on nor projected.
    [gone seen] tells whether the subscriber has left, [seen] being the
    values handed to it so far. *)
Fixpoint projectedFrom {A : Type} (project : A -> Promise A) (gone : list A -> bool)
  (fuel : nat) (seen : list A) (v : A) : list A :=
  v :: (if gone (seen ++ [v]) then []
        else match fuel with
             | O => []
             | S fuel' =>
                 match project v with
                 | Ok w => projectedFrom project gone fuel' (seen ++ [v]) w
                 | Throw _ => []
                 end
             end).

(** [takeWhile(predicate, inclusive)]: completes at the first value the
    predicate rejects, which is emitted too when [inclusive]. *)
Fixpoint takeWhileList {A : Type} (predicate : A -> Result bool) (inclusive : bool)
  (l : list A) (e : Ending) : Observable A :=
  match l with
  | [] => halt e
  | a :: l' =>
      match predicate a with
      | Ok true => push a (takeWhileList predicate inclusive l' e)
      | Ok false => if inclusive then push a (halt Complete) else halt Complete
      | Throw err => halt (Error err)
      end
  end.

Definition takeWhile {A : Type} (predicate : A -> Result bool) (inclusive : bool)
  (o : Observable A) : Observable A :=
  takeWhileList predicate inclusive (emitted o) (ending o).

(** [concatMap(project)] with [project] returning an array. *)
Definition concatMap {A B : Type} (project : A -> list B) (o : Observable A)
  : Observable B :=
  {| emitted := List.concat (List.map project (emitted o)); ending := ending o |}.

(** [filter(predicate)] *)
Definition rxFilter {A : Type} (predicate : A -> bool) (o : Observable A)
  : Observable A :=
  {| emitted := List.filter predicate (emitted o); ending := ending o |}.

(** [scan(accumulator, seed)]: one state per value, the seed itself is not
    emitted. *)
Fixpoint scanList {A B : Type} (accumulator : B -> A -> Result B) (acc : B)
  (l : list A) (e : Ending) : Observable B :=
  match l with
  | [] => halt e
  | a :: l' =>
      match accumulator acc a with
      | Ok acc' => push acc' (scanList accumulator acc' l' e)
      | Throw err => halt (Error err)
      end
  end.

Definition scan {A B : Type} (accumulator : B -> A -> Result B) (seed : B)
  (o : Observable A) : Observable B :=
  scanList accumulator seed (emitted o) (ending o).

(** [reduce(accumulator, seed)]: the final state, once, when the source
    completes. *)
Fixpoint foldResult {A B : Type} (accumulator : B -> A -> Result B) (acc : B)
  (l : list A) : Result B :=
  match l with
  | [] => Ok acc
  | a :: l' => acc' <- accumulator acc a ;; foldResult accumulator acc' l'
  end.

Definition reduce {A B : Type} (accumulator : B -> A -> Result B) (seed : B)
  (o : Observable A) : Observable B :=
  match foldResult accumulator seed (emitted o) with
  | Throw err => halt (Error err)
  | Ok b =>
      match ending o with
      | Complete => push b (halt Complete)
      | e => halt e
      end
  end.

(** [lastValueFrom(source, { defaultValue })]: of type [A | D]. *)
Definition lastValueFrom {A D : Type} (source : Observable A) (defaultValue : D)
  : Outcome (A + D) :=
  match ending source with
  | Complete =>
      Returned (match rev (emitted source) with
                | a :: _ => inl a
                | [] => inr defaultValue
                end)
  | Error e => Thrown e
  | Unfinished => Pending
  end.

Definition either {A : Type} (x : A + A) : A :=
  match x with inl a => a | inr a => a end.

Notation "o |> f" := (f o) (at level 62, left associativity, only parsing).

(** Awaiting inside an [async] method. *)
Definition await {A B : Type} (o : Outcome A) (k : A -> Outcome B) : Outcome B :=
  match o with
  | Returned a => k a
  | Thrown e => Thrown e
  | Pending => Pending
  end.

Definition settle {A : Type} (r : Result A) : Outcome A :=
  match r with
  | Ok a => Returned a
  | Throw e => Thrown e
  end.

Notation "x <~ o ;; k" := (await o (fun x => k))
  (at level 61, o at next level, right associativity).

(** ** MercuryProvider *)

(** The indexer client of [@ckitjs/mercury-client]. Within one call the
    indexer answers a request by its payload alone: with a page, or with
    the message of a transport failure. *)
Record MercuryClient : Type := {
  answer : GetCellsPayload -> GetCellsResponse + string
}.

(** [client.get_cells(payload)]: a failure of the transport rejects the
    promise. *)
Definition get_cells (client : MercuryClient) (payload : GetCellsPayload)
  : Promise GetCellsResponse :=
  match answer client payload with
  | inl res => Ok res
  | inr message => Throw (TransportError message)
  end.

(** [AbstractProvider], from which [parseToScript] is inherited, is missing
    from the sources: the provider carries the script of each address it
    can parse. *)
Record MercuryProvider : Type := {
  mercury : MercuryClient;
  scriptOf : Address -> option Script
}.

(** [this.parseToScript(address)] throws on an address it cannot parse. *)
Definition parseToScript (this : MercuryProvider) (address : Address) : Result Script :=
  match scriptOf this address with
  | Some lock => Ok lock
  | None => Throw (InvalidAddress address)
  end.

Record CellsAccumulator : Type := {
  cells : list ResolvedOutpoint;
  amount : bigint
}.

(** [x == null] *)
Definition isNull {A : Type} (x : option A) : bool :=
  match x with
  | None => true
  | Some _ => false
  end.

(** Modelled from the spec: [bytes.toHex] of [@ckitjs/utils] is missing
    from the sources. It renders as [toHex] does. In
    [getCkbLiveCellsBalance] it receives [bigint | string], the default
    handed to [lastValueFrom] there being the string ['0x0']: a
    hexadecimal string is left as it is. *)
Definition bytes_toHex (x : bigint + HexNumber) : HexNumber :=
  match x with
  | inl n => toHex n
  | inr s => s
  end.

Section Methods.

Variable this : MercuryProvider.

(** The number of [expand] steps the model follows. *)
Variable fuel : nat.

Definition collectCkbLiveCells (address : Address) (minimalCapacity : HexNumber)
  : Outcome (list ResolvedOutpoint) :=
  lock <~ settle (parseToScript this address) ;;
  let searchKey :=
    {| script := lock;
       script_type := script_type_lock;
       filter := Some {| filter_script := None;
                         output_data_len_range := Some ("0x0", "0x1") |} |} in
  let cells' :=
    from (get_cells (mercury this) {| search_key := searchKey; after_cursor := None |})
    |> expand (fun res => get_cells (mercury this)
                 {| search_key := searchKey; after_cursor := Some (last_cursor res) |}) fuel
    |> takeWhile (fun res => Ok (0 <? List.length (objects res))%nat) false
    |> concatMap objects
    |> rxFilter (fun cell => isNull (type (output cell)))
    |> scan (fun acc next =>
               c <- BigInt (capacity (output next)) ;;
               Ok {| cells := cells acc ++ [next]; amount := amount acc + c |})
            {| amount := 0; cells := [] |}
    |> takeWhile (fun acc => m <- BigInt minimalCapacity ;; Ok (amount acc <? m)) true in
  acc <~ lastValueFrom cells' {| amount := 0; cells := [] |} ;;
  let acc := either acc in
  m <~ settle (BigInt minimalCapacity) ;;
  if amount acc <? m then
    Thrown (NoEnoughCkbError
              {| err_lock := lock; expected := minimalCapacity; actual := toHex (amount acc) |})
  else Returned (cells acc).

Definition getCkbLiveCellsBalance (address : Address) : Outcome HexNumber :=
  lock <~ settle (parseToScript this address) ;;
  let searchKey :=
    {| script := lock;
       script_type := script_type_lock;
       filter := Some {| filter_script := None;
                         output_data_len_range := Some ("0x0", "0x1") |} |} in
  let balance' :=
    from (get_cells (mercury this) {| search_key := searchKey; after_cursor := None |})
    |> expand (fun res => get_cells (mercury this)
                 {| search_key := searchKey; after_cursor := Some (last_cursor res) |}) fuel
    |> takeWhile (fun res => Ok (0 <? List.length (objects res))%nat) false
    |> concatMap objects
    |> rxFilter (fun cell => isNull (type (output cell)))
    |> reduce (fun balance cell =>
                 c <- BigInt (capacity (output cell)) ;; Ok (balance + c)) 0 in
  balance <~ lastValueFrom balance' "0x0" ;;
  Returned (bytes_toHex balance).

Definition collectUdtCells (address : Address) (udt : CkbTypeScript)
  (minimalAmount : HexNumber) : Outcome (list ResolvedOutpoint) :=
  lock <~ settle (parseToScript this address) ;;
  let searchKey :=
    {| script := lock;
       filter := Some {| filter_script := Some udt; output_data_len_range := None |};
       script_type := script_type_lock |} in
  let cells' :=
    from (get_cells (mercury this) {| search_key := searchKey; after_cursor := None |})
    |> expand (fun res => get_cells (mercury this)
                 {| search_key := searchKey; after_cursor := Some (last_cursor res) |}) fuel
    |> takeWhile (fun res => Ok (0 <? List.length (objects res))%nat) false
    |> concatMap objects
    |> scan (fun acc resolvedCell =>
               le <- toBigUInt128LE (slice0 34 (output_data resolvedCell)) ;;
               v <- BigInt le ;;
               Ok {| cells := cells acc ++ [resolvedCell]; amount := amount acc + v |})
            {| amount := 0; cells := [] |}
    |> takeWhile (fun acc => m <- BigInt minimalAmount ;; Ok (amount acc <? m)) true in
  acc <~ lastValueFrom cells' {| amount := 0; cells := [] |} ;;
  let acc := either acc in
  m <~ settle (BigInt minimalAmount) ;;
  if amount acc <? m then
    Thrown (NoEnoughUdtError
              {| err_lock := lock; expected := minimalAmount; actual := toHex (amount acc) |})
  else Returned (cells acc).

(** Not an [async] method: [parseToScript] throws to the caller, the rest
    rejects the promise returned. Both are [Thrown] here. *)
Definition getUdtBalance (address : Address) (udt : CkbTypeScript) : Outcome HexNumber :=
  lock <~ settle (parseToScript this address) ;;
  let searchKey :=
    {| script := lock;
       filter := Some {| filter_script := Some udt; output_data_len_range := None |};
       script_type := script_type_lock |} in
  let balance' :=
    from (get_cells (mercury this) {| search_key := searchKey; after_cursor := None |})
    |> expand (fun res => get_cells (mercury this)
                 {| search_key := searchKey; after_cursor := Some (last_cursor res) |}) fuel
    |> takeWhile (fun res => Ok (0 <? List.length (objects res))%nat) false
    |> concatMap objects
    |> reduce (fun acc resolvedCell =>
                 le <- toBigUInt128LE (slice0 34 (output_data resolvedCell)) ;;
                 v <- BigInt le ;;
                 Ok (acc + v)) 0 in
  x <~ lastValueFrom balance' 0 ;;
  Returned (toHex (either x)).

End Methods.

(** ** A synthetic paged source

    The indexer that holds [pages] and serves page [k] under the cursor
    [toHex k]; past the last page it answers with an empty page. *)
Definition pageIndex (after : option Cursor) : nat :=
  match after with
  | None => O
  | Some c => match BigInt c with Ok n => Z.to_nat n | Throw _ => O end
  end.

Definition pagedSource (pages : list (list ResolvedOutpoint)) : MercuryClient :=
  {| answer := fun payload =>
       let k := pageIndex (after_cursor payload) in
       inl {| objects := nth k pages []; last_cursor := toHex (Z.of_nat (S k)) |} |}.

Definition script0 : Script :=
  {| code_hash := "0x00"; hash_type := "type"; args := "0x" |}.

Definition sudt0 : Script :=
  {| code_hash := "0x01"; hash_type := "type"; args := "0x" |}.

(** A bare cell of the given capacity. *)
Definition ckbCell (id : Z) (cap : Z) : ResolvedOutpoint :=
  {| out_point := {| tx_hash := toHex id; index := "0x0" |};
     output := {| capacity := toHex cap; lock := script0; type := None |};
     output_data := "0x" |}.

(** A token cell holding [amt]. *)
Definition udtCell (id : Z) (cap : Z) (amt : Z) : ResolvedOutpoint :=
  {| out_point := {| tx_hash := toHex id; index := "0x0" |};
     output := {| capacity := toHex cap; lock := script0; type := Some sudt0 |};
     output_data := encodeUInt128LE amt |}.

Definition providerOf (pages : list (list ResolvedOutpoint)) : MercuryProvider :=
  {| mercury := pagedSource pages; scriptOf := fun _ => Some script0 |}.

(** ** waitForTransactionCommitted *)

(** The transaction body is opaque to the poller. *)
Inductive Transaction : Type := TransactionBody (json : string).

Record TxStatus : Type := {
  status : string;
  block_hash : option Hash
}.

Record TransactionWithStatus : Type := {
  transaction : Transaction;
  tx_status : option TxStatus
}.

Record Tip : Type := {
  block_number : HexNumber;
  tip_block_hash : Hash
}.

Record PollOptions : Type := {
  pollIntervalMs : option Z;
  timeoutMs : option Z
}.

(** The world the poller runs in: the wall clock [Date.now()], the two
    RPC clients and [asyncSleep] (of [../../utils], missing from the
    sources). Awaiting a call moves the world on. Times are integer
    milliseconds. *)
Record Chain (World : Type) : Type := {
  Date_now : World -> Z;
  rpc_get_transaction : Hash -> World -> Promise (option TransactionWithStatus) * World;
  rpc_get_tip_block_number : World -> Promise HexNumber * World;
  mercury_get_tip : World -> Promise Tip * World;
  asyncSleep : Z -> World -> World
}.
Arguments Date_now {World} c w.
Arguments rpc_get_transaction {World} c txHash w.
Arguments rpc_get_tip_block_number {World} c w.
Arguments mercury_get_tip {World} c w.
Arguments asyncSleep {World} c ms w.

(** [tx?.tx_status?.status === 'committed'] *)
Definition isCommitted (tx : option TransactionWithStatus) : bool :=
  match tx with
  | Some t =>
      match tx_status t with
      | Some st => String.eqb (status st) "committed"
      | None => false
      end
  | None => false
  end.

(** A JavaScript number, as far as [Number] of a hexadecimal literal can
    give one: not a number, a double that is a non-negative integer, or
    the positive infinity. *)
Inductive JsNumber : Type :=
| NaN
| Finite (x : Z)
| Infinity.

(** The double nearest to a non-negative integer, ties to the even
    significand: exact up to 53 significant bits, rounded beyond. *)
Definition roundDouble (n : Z) : Z :=
  let e := Z.log2 n in
  if e <? 53 then n
  else
    let shift := e - 52 in
    let q := n / 2 ^ shift in
    let r := n mod 2 ^ shift in
    let half := 2 ^ (shift - 1) in
    if (half <? r) || ((r =? half) && Z.odd q)
    then (q + 1) * 2 ^ shift
    else q * 2 ^ shift.

(** [Number(s)] on a [HexNumber], which is what the two clients give for
    a block number: the literal's value as a double, the infinity from
    2^1024 on. What is no such literal is no [HexNumber]; it is [NaN]
    here, as [BigInt] rejects it. *)
Definition Number (s : HexNumber) : JsNumber :=
  match BigInt s with
  | Ok n => let x := roundDouble n in if 2 ^ 1024 <=? x then Infinity else Finite x
  | Throw _ => NaN
  end.

(** [a >= b] on numbers: false as soon as one side is [NaN]. *)
Definition geNumber (a b : JsNumber) : bool :=
  match a, b with
  | NaN, _ | _, NaN => false
  | Infinity, _ => true
  | Finite _, Infinity => false
  | Finite x, Finite y => y <=? x
  end.

Definition orDefault (x : option Z) (d : Z) : Z :=
  match x with
  | Some v => v
  | None => d
  end.

Section Poller.

Context {World : Type}.
Variable chain : Chain World.
Variable txHash : Hash.
Variables pollInterval timeout start : Z.

(** The first [while]: one iteration per unit of [fuel]. *)
Fixpoint awaitCommitted (fuel : nat) (w : World)
  : Outcome (option Transaction) * World :=
  match fuel with
  | O => (Pending, w)
  | S fuel' =>
      if Date_now chain w - start <=? timeout then
        let (tx, w1) := rpc_get_transaction chain txHash w in
        match tx with
        | Throw e => (Thrown e, w1)
        | Ok tx =>
            if isCommitted tx then (Returned (option_map transaction tx), w1)
            else awaitCommitted fuel' (asyncSleep chain pollInterval w1)
        end
      else (Returned None, w)
  end.

(** The second [while]. *)
Fixpoint awaitIndexer (rpcTip : JsNumber) (fuel : nat) (w : World)
  : Outcome unit * World :=
  match fuel with
  | O => (Pending, w)
  | S fuel' =>
      if Date_now chain w - start <=? timeout then
        let (tip, w1) := mercury_get_tip chain w in
        match tip with
        | Throw e => (Thrown e, w1)
        | Ok mercuryTip =>
            if geNumber (Number (block_number mercuryTip)) rpcTip then (Returned tt, w1)
            else awaitIndexer rpcTip fuel' (asyncSleep chain pollInterval w1)
        end
      else (Returned tt, w)
  end.

End Poller.

Definition waitForTransactionCommitted {World : Type} (chain : Chain World)
  (fuel : nat) (txHash : Hash) (options : PollOptions) (w : World)
  : Outcome (option Transaction) * World :=
  let pollInterval := orDefault (pollIntervalMs options) 1000 in
  let timeout := orDefault (timeoutMs options) 120000 in
  let start := Date_now chain w in
  match awaitCommitted chain txHash pollInterval timeout start fuel w with
  | (Returned result, w1) =>
      match rpc_get_tip_block_number chain w1 with
      | (Ok tip, w2) =>
          let rpcTip := Number tip in
          match awaitIndexer chain pollInterval timeout start rpcTip fuel w2 with
          | (Returned _, w3) => (Returned result, w3)
          | (Thrown e, w3) => (Thrown e, w3)
          | (Pending, w3) => (Pending, w3)
          end
      | (Throw e, w2) => (Thrown e, w2)
      end
  | (Thrown e, w1) => (Thrown e, w1)
  | (Pending, w1) => (Pending, w1)
  end.

(** ** AcpTransferSudtBuilder *)

Module AcpTransferSudtBuilder.

Inductive Policy : Type := findAcp | createCell | findOrCreate.

Record RecipientOption : Type := {
  recipient : Address;
  sudt : CkbTypeScript;
  amount : HexNumber;
  policy : Policy
}.

Record TransferSudtOptions : Type := {
  recipients : list RecipientOption
}.

(** The transaction of [@lay2/pw-core], opaque here. *)
Inductive PwTransaction : Type := PwTransactionBody (json : string).

(** [TransferSudtPwBuilder] is missing from the sources: the inner
    builder is known by what its [build] settles to. *)
Record TransferSudtPwBuilder : Type := {
  pw_build : Outcome PwTransaction
}.

Record t : Type := {
  options : TransferSudtOptions;
  sender : Address;
  builder : TransferSudtPwBuilder
}.

(** The calls a run makes on the inner builder. *)
Inductive Call : Type := InnerBuild.

(** [build()]: the calls made on [this.builder], and what the promise
    settles to. *)
Definition build (this : t) : list Call * Outcome PwTransaction :=
  let transferToSelf :=
    List.find (fun option => String.eqb (recipient option) (sender this))
              (recipients (options this)) in
  match transferToSelf with
  | Some _ => ([], Thrown (RecipientSameWithSenderError (sender this)))
  | None => ([InnerBuild], pw_build (builder this))
  end.

End AcpTransferSudtBuilder.

(** ** typeid.ts *)

(** A [Uint8Array], a Node [Buffer] and an [ArrayBuffer] seen through a
    [Uint8Array]: the bytes they hold. *)
Definition Uint8Array := list Z.
Definition ArrayBuffer := list Z.

(** [view[i] = v] on a [Uint8Array]: the value is stored modulo 256, and
    a write past the end is ignored. *)
Fixpoint writeAt (view : Uint8Array) (i : nat) (v : Z) : Uint8Array :=
  match view, i with
  | [], _ => []
  | _ :: rest, O => v mod 256 :: rest
  | b :: rest, S i' => b :: writeAt rest i' v
  end.

(** [buf[i]!]: past the end it is [undefined], which is stored as 0. *)
Definition readAt (buf : Uint8Array) (i : nat) : Z := nth i buf 0.

(** The [for] loop of [toArrayBuffer], from the index [i] on; it runs at
    most [buf.length] times, which [steps] counts down. *)
Fixpoint copyFrom (buf : Uint8Array) (view : Uint8Array) (i : nat) (steps : nat)
  : Uint8Array :=
  match steps with
  | O => view
  | S steps' =>
      if (i <? List.length buf)%nat
      then copyFrom buf (writeAt view i (readAt buf i)) (S i) steps'
      else view
  end.

Definition toArrayBuffer (buf : Uint8Array) : ArrayBuffer :=
  let ab := repeat 0 (List.length buf) in
  copyFrom buf ab 0 (List.length buf).

(** [HexString | number | bigint]; a [number] is taken to be integral
    ([BigInt] of a fraction is a [RangeError]). *)
Inductive NumLike : Type :=
| hexNum (s : HexString)
| jsNumber (n : Z)
| jsBigint (n : bigint).

(** [BigInt(num)] *)
Definition BigIntOf (num : NumLike) : Result bigint :=
  match num with
  | hexNum s => BigInt s
  | jsNumber n => Ok n
  | jsBigint n => Ok n
  end.

(** [buf.writeBigUInt64LE(value)] of Node, at offset 0: the value must fit
    64 bits and the buffer hold 8 bytes, or it throws a [RangeError]. *)
Definition writeBigUInt64LE (buf : Uint8Array) (value : bigint) : Result Uint8Array :=
  if ((0 <=? value) && (value <? 2 ^ 64))%bool then
    if (8 <=? List.length buf)%nat
    then Ok (bytesLE 8 value ++ skipn 8 buf)
    else Throw (RangeError "offset")
  else Throw (RangeError "value").

Record Input : Type := {
  previous_output : OutPoint;
  since : HexNumber
}.

(** What [typeid.ts] imports and the sources do not hold: [toBuffer] of
    [@ckitjs/easy-byte], the serialization of a normalized cell input
    ([core.SerializeCellInput] after [normalizers.NormalizeCellInput],
    which may throw) and the hash function behind [utils.CKBHasher]. *)
Record TypeIdImports : Type := {
  toBuffer : string -> nat -> Uint8Array;
  SerializeCellInput : Input -> Result ArrayBuffer;
  blake2b : list Z -> HexString
}.

(** A [CKBHasher]: the bytes it has been fed. [update] feeds more,
    [digestHex] hashes all of them. *)
Record CKBHasher : Type := {
  absorbed : list Z
}.

Definition newCKBHasher : CKBHasher := {| absorbed := [] |}.

Definition update (h : CKBHasher) (data : ArrayBuffer) : CKBHasher :=
  {| absorbed := absorbed h ++ data |}.

Definition digestHex (hash : list Z -> HexString) (h : CKBHasher) : HexString :=
  hash (absorbed h).

Section TypeId.

Variable imports : TypeIdImports.

Definition toBigUInt64LE (num : NumLike) : Result ArrayBuffer :=
  num <- BigIntOf num ;;
  let buf := toBuffer imports "" 8 in
  buf <- writeBigUInt64LE buf num ;;
  Ok (toArrayBuffer buf).

Definition generateTypeID (input : Input) (outputIndex : HexNumber) : Result HexString :=
  outPointBuf <- SerializeCellInput imports input ;;
  outputIndexBuf <- toBigUInt64LE (hexNum outputIndex) ;;
  let ckbHasher := newCKBHasher in
  let ckbHasher := update ckbHasher outPointBuf in
  let ckbHasher := update ckbHasher outputIndexBuf in
  Ok (digestHex (blake2b imports) ckbHasher).

Definition generateTypeIdScript (input : Input) (outputIndex : HexNumber) : Result Script :=
  args <- generateTypeID input outputIndex ;;
  Ok {| code_hash := "0x00000000000000000000000000000000000000000000000000545950455f4944";
        hash_type := "type";
        args := args |}.

End TypeId.

(* ================================================================== *)
(** * Part II: the vocabulary of the specification *)
(* ================================================================== *)

(** [l] begins with [p]. *)
Definition prefixOf {A : Type} (p l : list A) : Prop := exists rest, l = p ++ rest.

(** The two search keys the provider builds. *)
Definition ckbSearchKey (lock : Script) : SearchKey :=
  {| script := lock;
     script_type := script_type_lock;
     filter := Some {| filter_script := None;
                       output_data_len_range := Some ("0x0", "0x1") |} |}.

Definition udtSearchKey (lock : Script) (udt : CkbTypeScript) : SearchKey :=
  {| script := lock;
     filter := Some {| filter_script := Some udt; output_data_len_range := None |};
     script_type := script_type_lock |}.

(** What a cell contributes: its capacity, or the token amount in its
    payload. *)
Definition capacityOf (cell : ResolvedOutpoint) : Result bigint :=
  BigInt (capacity (output cell)).

Definition udtAmountOf (cell : ResolvedOutpoint) : Result bigint :=
  le <- toBigUInt128LE (slice0 34 (output_data cell)) ;; BigInt le.

(** The cumulative value of a sequence of cells. *)
Definition addValue (value : ResolvedOutpoint -> Result bigint)
  (sum : bigint) (cell : ResolvedOutpoint) : Result bigint :=
  v <- value cell ;; Ok (sum + v).

Definition total (value : ResolvedOutpoint -> Result bigint)
  (l : list ResolvedOutpoint) : Result bigint :=
  foldResult (addValue value) 0 l.

(** One step of the accumulation. *)
Definition accumulate (value : ResolvedOutpoint -> Result bigint)
  (acc : CellsAccumulator) (next : ResolvedOutpoint) : Result CellsAccumulator :=
  c <- value next ;;
  Ok {| cells := cells acc ++ [next]; amount := amount acc + c |}.

Definition emptyAccumulator : CellsAccumulator := {| amount := 0; cells := [] |}.

(** The termination test of the two collect operations. *)
Definition below (minimal : HexNumber) (acc : CellsAccumulator) : Result bool :=
  m <- BigInt minimal ;; Ok (amount acc <? m).

Definition isLive (cell : ResolvedOutpoint) : bool := isNull (type (output cell)).

Definition nonEmptyPage (res : GetCellsResponse) : Result bool :=
  Ok (0 <? List.length (objects res))%nat.

Section Paging.

Variable this : MercuryProvider.
Variable key : SearchKey.
Variable fuel : nat.

Definition firstPayload : GetCellsPayload :=
  {| search_key := key; after_cursor := None |}.

Definition nextPayload (res : GetCellsResponse) : GetCellsPayload :=
  {| search_key := key; after_cursor := Some (last_cursor res) |}.

(** The responses of the indexer along the chain of cursors, as far as
    [fuel] follows it: what [expand] hands on to a subscriber that never
    leaves. *)
Definition responses : Observable GetCellsResponse :=
  from (get_cells (mercury this) firstPayload)
  |> expand (fun res => get_cells (mercury this) (nextPayload res)) fuel.

(** The pages handed on: the responses before the first empty one. *)
Definition pages : Observable GetCellsResponse :=
  responses |> takeWhile nonEmptyPage false.

(** The cells of those pages, in the order the source gave them. *)
Definition cellStream : Observable ResolvedOutpoint :=
  pages |> concatMap objects.

End Paging.

(** The cells each operation accumulates over. *)
Definition ckbCells (this : MercuryProvider) (lock : Script) (fuel : nat)
  : Observable ResolvedOutpoint :=
  cellStream this (ckbSearchKey lock) fuel |> rxFilter isLive.

Definition udtCells (this : MercuryProvider) (lock : Script) (udt : CkbTypeScript)
  (fuel : nat) : Observable ResolvedOutpoint :=
  cellStream this (udtSearchKey lock udt) fuel.

(** The states the accumulation goes through. *)
Definition accumulators (value : ResolvedOutpoint -> Result bigint)
  (source : Observable ResolvedOutpoint) : Observable CellsAccumulator :=
  source |> scan (accumulate value) emptyAccumulator.

(** The shape the two collect operations share, once the lock is parsed. *)
Definition collectWith (value : ResolvedOutpoint -> Result bigint)
  (insufficient : NoEnoughPayload -> JsError) (lock : Script) (minimal : HexNumber)
  (source : Observable ResolvedOutpoint) : Outcome (list ResolvedOutpoint) :=
  acc <~ lastValueFrom (accumulators value source |> takeWhile (below minimal) true)
         emptyAccumulator ;;
  let acc := either acc in
  m <~ settle (BigInt minimal) ;;
  if amount acc <? m then
    Thrown (insufficient
              {| err_lock := lock; expected := minimal; actual := toHex (amount acc) |})
  else Returned (cells acc).

(** The same accumulation written as the loop it amounts to: take cells
    one by one, stop at the first state that is not below the threshold. *)
Fixpoint collectLoop (value : ResolvedOutpoint -> Result bigint) (m : Z)
  (acc : CellsAccumulator) (l : list ResolvedOutpoint) (e : Ending)
  : Outcome CellsAccumulator :=
  match l with
  | [] =>
      match e with
      | Complete => Returned acc
      | Error err => Thrown err
      | Unfinished => Pending
      end
  | next :: l' =>
      match accumulate value acc next with
      | Throw err => Thrown err
      | Ok acc' =>
          if amount acc' <? m then collectLoop value m acc' l' e else Returned acc'
      end
  end.

(** The last value of an observable whose default has the type of its
    values. *)
Definition lastValue {A : Type} (o : Observable A) (d : A) : Outcome A :=
  x <~ lastValueFrom o d ;; Returned (either x).

(** Inclusive termination of a collection [run] over the cells [source]
    with threshold [m]:
    - the first cell with which the running sum reaches [m] ends the
      result;
    - in a result, no beginning that leaves cells out and is not empty
      reaches [m];
    - with threshold 0 the result is the first cell of the source. *)
Definition inclusive (value : ResolvedOutpoint -> Result bigint) (m : Z)
  (source : list ResolvedOutpoint) (run : Outcome (list ResolvedOutpoint)) : Prop :=
  (forall init c rest t,
     source = init ++ c :: rest ->
     (forall p q, init = p ++ q -> p <> [] -> exists s, total value p = Ok s /\ s < m) ->
     total value (init ++ [c]) = Ok t -> m <= t ->
     run = Returned (init ++ [c])) /\
  (forall cs,
     run = Returned cs ->
     forall p q, cs = p ++ q -> p <> [] -> q <> [] ->
                 exists s, total value p = Ok s /\ s < m) /\
  (m = 0 ->
   forall c rest, source = c :: rest -> (exists x, value c = Ok x) -> run = Returned [c]).

(** The claim that no cell is taken once the running sum, the initial 0
    included, has reached the threshold. *)
Definition neverTakesPastThreshold : Prop :=
  forall this fuel address minimal m cs,
    collectCkbLiveCells this fuel address minimal = Returned cs ->
    BigInt minimal = Ok m ->
    forall p q, cs = p ++ q -> q <> [] -> exists s, total capacityOf p = Ok s /\ s < m.

(** Sources used as examples. *)
Definition oneCkbCell : MercuryProvider := providerOf [[ckbCell 1 100]].

Definition oneUdtCell : MercuryProvider := providerOf [[udtCell 1 142 7]].

Definition threeCkbCells : MercuryProvider :=
  providerOf [[ckbCell 1 100; udtCell 9 142 5; ckbCell 2 50]; [ckbCell 3 200]].

Definition threeUdtCells : MercuryProvider :=
  providerOf [[udtCell 1 142 100; udtCell 2 142 50]; [udtCell 3 142 200]].

(** [o'] is [o] seen later: an observable that has ended stays as it is,
    one that has not may have emitted more. *)
Definition extends {A : Type} (o o' : Observable A) : Prop :=
  match ending o with
  | Unfinished => prefixOf (emitted o) (emitted o')
  | _ => o' = o
  end.

(** The two insufficient-balance errors. *)
Definition isInsufficiency (e : JsError) : Prop :=
  match e with
  | NoEnoughCkbError _ | NoEnoughUdtError _ => True
  | _ => False
  end.

(** Insufficiency of a collection [run] over [source] with threshold [m]:
    a source that completes with a total below [m] makes the run throw
    the error built from the lock, the threshold as requested and that
    total, and the run throws an insufficiency error in no other case. *)
Definition insufficientAtExhaustion (value : ResolvedOutpoint -> Result bigint)
  (insufficient : NoEnoughPayload -> JsError) (lock : Script) (minimal : HexNumber)
  (m : Z) (source : Observable ResolvedOutpoint)
  (run : Outcome (list ResolvedOutpoint)) : Prop :=
  (forall t,
     ending source = Complete ->
     total value (emitted source) = Ok t -> t < m ->
     run = Thrown (insufficient
                     {| err_lock := lock; expected := minimal; actual := toHex t |}) /\
     BigInt (toHex t) = Ok t) /\
  (forall e,
     run = Thrown e -> isInsufficiency e ->
     exists t,
       ending source = Complete /\
       total value (emitted source) = Ok t /\ t < m /\
       e = insufficient {| err_lock := lock; expected := minimal; actual := toHex t |}).

(** What the two balance operations amount to, once the lock is parsed:
    the rendered total of the whole source. *)
Definition balanceOf (value : ResolvedOutpoint -> Result bigint)
  (source : Observable ResolvedOutpoint) : Outcome HexNumber :=
  match total value (emitted source) with
  | Throw err => Thrown err
  | Ok t =>
      match ending source with
      | Complete => Returned (toHex t)
      | Error e => Thrown e
      | Unfinished => Pending
      end
  end.

(** The source of the specification's example: pages [[10, 20], [30]]. *)
Definition twoPages : MercuryProvider :=
  providerOf [[ckbCell 1 10; ckbCell 2 20]; [ckbCell 3 30]].

Definition twoUdtPages : MercuryProvider :=
  providerOf [[udtCell 1 142 10; udtCell 2 142 20]; [udtCell 3 142 30]].

(** The first 16 bytes of a cell's payload, when it has that many. *)
Definition payload16 (cell : ResolvedOutpoint) : option (list Z) :=
  match strip0x (slice0 34 (output_data cell)) with
  | Some body =>
      match hexBytes body with
      | Some bs => if (List.length bs =? 16)%nat then Some bs else None
      | None => None
      end
  | None => None
  end.

(** Two token cells whose amounts do not fit 128 bits together. *)
Definition maxUInt128 : Z := 2 ^ 128 - 1.

Definition twoFullCells : MercuryProvider :=
  providerOf [[udtCell 1 142 maxUInt128; udtCell 2 142 maxUInt128]].

(** A builder for a transfer from [self] to the given addresses, around
    an inner builder that settles to [inner]. *)
Definition transferBuilder (self : Address) (others : list Address)
  (inner : Outcome AcpTransferSudtBuilder.PwTransaction) : AcpTransferSudtBuilder.t :=
  {| AcpTransferSudtBuilder.options :=
       {| AcpTransferSudtBuilder.recipients :=
            List.map (fun a => {| AcpTransferSudtBuilder.recipient := a;
                                  AcpTransferSudtBuilder.sudt := sudt0;
                                  AcpTransferSudtBuilder.amount := "0x1";
                                  AcpTransferSudtBuilder.policy :=
                                    AcpTransferSudtBuilder.findOrCreate |}) others |};
     AcpTransferSudtBuilder.sender := self;
     AcpTransferSudtBuilder.builder := {| AcpTransferSudtBuilder.pw_build := inner |} |}.

(** The polls of the first loop: [polls w wp] when, started in the world
    [w], the loop comes to test its condition in the world [wp], every
    poll before having been within the time budget and not committed. *)
Inductive polls {World : Type} (chain : Chain World) (txHash : Hash)
  (pollInterval timeout start : Z) : World -> World -> Prop :=
| polls_here (w : World) : polls chain txHash pollInterval timeout start w w
| polls_next (w w1 wp : World) (tx : option TransactionWithStatus) :
    Date_now chain w - start <= timeout ->
    rpc_get_transaction chain txHash w = (Ok tx, w1) ->
    isCommitted tx = false ->
    polls chain txHash pollInterval timeout start (asyncSleep chain pollInterval w1) wp ->
    polls chain txHash pollInterval timeout start w wp.

(** The clock never runs backwards, and sleeping takes at least the time
    asked for. *)
Record clockAdvances {World : Type} (chain : Chain World) : Prop := {
  transaction_takes_time :
    forall txHash w, Date_now chain w <= Date_now chain (snd (rpc_get_transaction chain txHash w));
  tip_takes_time :
    forall w, Date_now chain w <= Date_now chain (snd (rpc_get_tip_block_number chain w));
  indexer_takes_time :
    forall w, Date_now chain w <= Date_now chain (snd (mercury_get_tip chain w));
  sleep_takes_time :
    forall ms w, Date_now chain w + ms <= Date_now chain (asyncSleep chain ms w)
}.

(** A chain whose world is the time on the clock: every call takes 10 ms,
    the transaction is committed from [committedAt] on, the ledger's tip is
    block 16 and the indexer has block [now / 1000]. *)
Definition committedTx : TransactionWithStatus :=
  {| transaction := TransactionBody "{}";
     tx_status := Some {| status := "committed"; block_hash := Some "0xaa" |} |}.

Definition pendingTx : TransactionWithStatus :=
  {| transaction := TransactionBody "{}";
     tx_status := Some {| status := "pending"; block_hash := None |} |}.

Definition clockChain (committedAt : Z) : Chain Z :=
  {| Date_now := fun now => now;
     rpc_get_transaction := fun _ now =>
       (Ok (Some (if committedAt <=? now then committedTx else pendingTx)), now + 10);
     rpc_get_tip_block_number := fun now => (Ok "0x10", now + 10);
     mercury_get_tip := fun now =>
       (Ok {| block_number := toHex (now / 1000); tip_block_hash := "0xbb" |}, now + 10);
     asyncSleep := fun ms now => now + ms |}.

(** A chain on which the transaction is committed at once, the ledger is
    at block [ledger] and the indexer at block [indexer]; every call
    takes 10 ms. *)
Definition roundingChain (ledger indexer : Z) : Chain Z :=
  {| Date_now := fun now => now;
     rpc_get_transaction := fun _ now => (Ok (Some committedTx), now + 10);
     rpc_get_tip_block_number := fun now => (Ok (toHex ledger), now + 10);
     mercury_get_tip := fun now =>
       (Ok {| block_number := toHex indexer; tip_block_hash := "0xbb" |}, now + 10);
     asyncSleep := fun ms now => now + ms |}.

Definition defaultOptions : PollOptions := {| pollIntervalMs := None; timeoutMs := None |}.

(** The interval and the budget a call runs with. *)
Definition intervalOf (options : PollOptions) : Z := orDefault (pollIntervalMs options) 1000.

Definition timeoutOf (options : PollOptions) : Z := orDefault (timeoutMs options) 120000.

Definition halfSecond (budget : Z) : PollOptions :=
  {| pollIntervalMs := Some 500; timeoutMs := Some budget |}.

(** A byte. *)
Definition isByte (b : Z) : Prop := 0 <= b < 256.

(** The bytes of an ASCII string. *)
Definition asciiBytes (s : string) : list Z :=
  List.map (fun c => Z.of_nat (nat_of_ascii c)) (list_ascii_of_string s).

(** An indexer that serves [pages] and then fails with [message]. *)
Definition failingAfter (pages : list (list ResolvedOutpoint)) (message : string)
  : MercuryProvider :=
  {| mercury :=
       {| answer := fun payload =>
            let k := pageIndex (after_cursor payload) in
            if (k <? List.length pages)%nat
            then inl {| objects := nth k pages []; last_cursor := toHex (Z.of_nat (S k)) |}
            else inr message |};
     scriptOf := fun _ => Some script0 |}.

(** Stand-ins for the imports of [typeid.ts]: a zeroed buffer, the
    transaction hash read as bytes for a serialization, and the message
    itself for a digest. *)
Definition plainImports : TypeIdImports :=
  {| toBuffer := fun _ n => repeat 0 n;
     SerializeCellInput := fun input =>
       match strip0x (tx_hash (previous_output input)) with
       | Some body =>
           match hexBytes body with
           | Some bs => Ok bs
           | None => Throw (SyntaxError (tx_hash (previous_output input)))
           end
       | None => Throw (SyntaxError (tx_hash (previous_output input)))
       end;
     blake2b := fun message => String "0" (String "x" (bytesHex message)) |}.

Definition input0 : Input :=
  {| previous_output := {| tx_hash := "0xa1b2"; index := "0x0" |}; since := "0x0" |}.

(** The sum of a list of integers. *)
Definition sumZ (vs : list Z) : Z := fold_right Z.add 0 vs.

(** What the indexer holds under a search key: asked from [cursor] on, it
    answers with the pages [ps], none of them empty, each to the request
    that carries the cursor of the page before; when [ended], the request
    after the last of them is answered with an empty page. *)
Fixpoint serves (client : MercuryClient) (key : SearchKey) (cursor : option Cursor)
  (ps : list GetCellsResponse) (ended : bool) : Prop :=
  match ps with
  | [] =>
      if ended
      then exists res,
             answer client {| search_key := key; after_cursor := cursor |} = inl res /\
             objects res = []
      else True
  | p :: rest =>
      answer client {| search_key := key; after_cursor := cursor |} = inl p /\
      objects p <> [] /\
      serves client key (Some (last_cursor p)) rest ended
  end.

(** The amount a token cell holds: the value, least significant byte
    first, of the first 16 bytes of its payload. *)
Definition payloadAmount (cell : ResolvedOutpoint) : option Z :=
  option_map valueLE (payload16 cell).

(** What follows [expand] in each of the four operations, as a function
    of the responses. *)
Definition collectCkbStages (minimalCapacity : HexNumber)
  (rs : Observable GetCellsResponse) : Observable CellsAccumulator :=
  rs
  |> takeWhile (fun res => Ok (0 <? List.length (objects res))%nat) false
  |> concatMap objects
  |> rxFilter (fun cell => isNull (type (output cell)))
  |> scan (fun acc next =>
             c <- BigInt (capacity (output next)) ;;
             Ok {| cells := cells acc ++ [next]; amount := amount acc + c |})
          {| amount := 0; cells := [] |}
  |> takeWhile (fun acc => m <- BigInt minimalCapacity ;; Ok (amount acc <? m)) true.

Definition collectUdtStages (minimalAmount : HexNumber)
  (rs : Observable GetCellsResponse) : Observable CellsAccumulator :=
  rs
  |> takeWhile (fun res => Ok (0 <? List.length (objects res))%nat) false
  |> concatMap objects
  |> scan (fun acc resolvedCell =>
             le <- toBigUInt128LE (slice0 34 (output_data resolvedCell)) ;;
             v <- BigInt le ;;
             Ok {| cells := cells acc ++ [resolvedCell]; amount := amount acc + v |})
          {| amount := 0; cells := [] |}
  |> takeWhile (fun acc => m <- BigInt minimalAmount ;; Ok (amount acc <? m)) true.

Definition balanceCkbStages (rs : Observable GetCellsResponse) : Observable bigint :=
  rs
  |> takeWhile (fun res => Ok (0 <? List.length (objects res))%nat) false
  |> concatMap objects
  |> rxFilter (fun cell => isNull (type (output cell)))
  |> reduce (fun balance cell =>
               c <- BigInt (capacity (output cell)) ;; Ok (balance + c)) 0.

Definition balanceUdtStages (rs : Observable GetCellsResponse) : Observable bigint :=
  rs
  |> takeWhile (fun res => Ok (0 <? List.length (objects res))%nat) false
  |> concatMap objects
  |> reduce (fun acc resolvedCell =>
               le <- toBigUInt128LE (slice0 34 (output_data resolvedCell)) ;;
               v <- BigInt le ;;
               Ok (acc + v)) 0.

(** What a collect operation does with the last accumulator. *)
Definition finishCollect (insufficient : NoEnoughPayload -> JsError) (lock : Script)
  (minimal : HexNumber) (last : Outcome (CellsAccumulator + CellsAccumulator))
  : Outcome (list ResolvedOutpoint) :=
  acc <~ last ;;
  let acc := either acc in
  m <~ settle (BigInt minimal) ;;
  if amount acc <? m then
    Thrown (insufficient
              {| err_lock := lock; expected := minimal; actual := toHex (amount acc) |})
  else Returned (cells acc).

(** The subscriber of [expand] is what follows it in the pipeline: it has
    left once those stages, handed the responses [seen] and no end, have
    ended, by completing or by failing. *)
Definition hasLeft {A B : Type} (stages : Observable A -> Observable B) (seen : list A)
  : bool :=
  match ending (stages {| emitted := seen; ending := Unfinished |}) with
  | Unfinished => false
  | _ => true
  end.

(** The responses handed on to the stages of an operation, and the
    requests [get_cells] is called with: the first one, and one for every
    response handed on. *)
Definition handedOn {B : Type} (this : MercuryProvider) (key : SearchKey) (fuel : nat)
  (stages : Observable GetCellsResponse -> Observable B) : list GetCellsResponse :=
  match get_cells (mercury this) (firstPayload key) with
  | Ok v =>
      projectedFrom (fun res => get_cells (mercury this) (nextPayload key res))
        (hasLeft stages) fuel [] v
  | Throw _ => []
  end.

Definition requests {B : Type} (this : MercuryProvider) (key : SearchKey) (fuel : nat)
  (stages : Observable GetCellsResponse -> Observable B) : list GetCellsPayload :=
  firstPayload key :: List.map (nextPayload key) (handedOn this key fuel stages).

(** What happens between an operation and the indexer, in order: a
    response is received, and handed on, before the request built from
    it is sent. *)
Inductive PagingEvent : Type :=
| Sent (payload : GetCellsPayload)
| Received (res : GetCellsResponse).

Definition timeline {B : Type} (this : MercuryProvider) (key : SearchKey) (fuel : nat)
  (stages : Observable GetCellsResponse -> Observable B) : list PagingEvent :=
  Sent (firstPayload key)
  :: List.flat_map (fun res => [Received res; Sent (nextPayload key res)])
       (handedOn this key fuel stages).

(** The requests sent and not answered yet. *)
Fixpoint inFlight (events : list PagingEvent) : Z :=
  match events with
  | [] => 0
  | Sent _ :: rest => inFlight rest + 1
  | Received _ :: rest => inFlight rest - 1
  end.

(** The claim that fetching stops when an empty page is received: no
    request follows one that was answered with an empty page. *)
Definition stopsAtEmptyPage (this : MercuryProvider) (issued : list GetCellsPayload)
  : Prop :=
  forall k p q r,
    nth_error issued k = Some p ->
    nth_error issued (S k) = Some q ->
    get_cells (mercury this) p = Ok r ->
    objects r <> [].

Definition fetchingStopsAtEmptyPage : Prop :=
  forall this fuel lock,
    stopsAtEmptyPage this (requests this (ckbSearchKey lock) fuel balanceCkbStages).

(** Pages [[10, typed, 20], [30]]: the second cell bears a type, its
    capacity is 99. *)
Definition mixedPages : MercuryProvider :=
  providerOf [[ckbCell 1 10; udtCell 9 99 5; ckbCell 2 20]; [ckbCell 3 30]].

(** The pages [providerOf pages] serves: page [k] carries the cursor of
    the page after it. *)
Fixpoint numbered (k : nat) (pages : list (list ResolvedOutpoint))
  : list GetCellsResponse :=
  match pages with
  | [] => []
  | p :: rest =>
      {| objects := p; last_cursor := toHex (Z.of_nat (S k)) |} :: numbered (S k) rest
  end.

Definition servedPages (pages : list (list ResolvedOutpoint)) : list GetCellsResponse :=
  numbered 0 pages.

(* ================================================================== *)
(** * Part III: properties *)
(* ================================================================== *)

(** Splits a conjunction into its parts. *)
Ltac conjs := repeat match goal with |- _ /\ _ => split end.

(** Decides [serves] on a source given in full. *)
Ltac served :=
  cbn [serves servedPages numbered];
  repeat match goal with
         | |- _ /\ _ => split
         | |- _ <> _ => discriminate
         | |- exists _, _ => eexists
         | |- _ = _ => reflexivity
         | |- True => exact I
         end.

(** ** Hexadecimal numbers *)

Lemma hexDigits_nonneg (s : string) : forall acc n,
  0 <= acc -> hexDigits s acc = Some n -> 0 <= n.
Proof.
  induction s as [|ch s IH]; intros acc n Hacc H; simpl in H.
  - injection H as <-. exact Hacc.
  - destruct (HexString.ascii_to_digit ch) as [v|]; [|discriminate].
    apply (IH (16 * acc + Z.of_N v)); [lia | exact H].
Qed.

Lemma BigInt_nonneg (s : string) (n : Z) : BigInt s = Ok n -> 0 <= n.
Proof.
  unfold BigInt. destruct (strip0x s) as [[|c body]|]; try discriminate.
  destruct (hexDigits (String c body) 0) as [k|] eqn:E; [|discriminate].
  intros [= <-]. apply (hexDigits_nonneg _ _ _ (Z.le_refl 0) E).
Qed.

Lemma hexDigits_of_pos : forall (p : positive) (rest : string) (base : N),
  hexDigits (HexString.Raw.of_pos p rest) (Z.of_N base)
  = hexDigits rest (Z.of_N match base with
                           | N0 => Npos p
                           | Npos v => Npos (HexString.pos_hex_app v p)
                           end).
Proof.
  fix IH 1. intros p rest base.
  do 4 try destruct p as [p|p|]; destruct base; try reflexivity;
    cbn [HexString.Raw.of_pos]; rewrite IH; reflexivity.
Qed.

Lemma of_pos_cons : forall (p : positive) (rest : string),
  exists c body, HexString.Raw.of_pos p rest = String c body.
Proof.
  fix IH 1. intros p rest.
  do 4 try destruct p as [p|p|];
    try (cbn [HexString.Raw.of_pos]; apply IH);
    do 2 eexists; reflexivity.
Qed.

(** Rendering loses nothing: [BigInt] reads back what [toHex] wrote. *)
Lemma BigInt_toHex (n : Z) : 0 <= n -> BigInt (toHex n) = Ok n.
Proof.
  intros Hn. destruct n as [|p|p]; [reflexivity| |lia].
  unfold toHex, HexString.of_Z, HexString.of_pos, BigInt.
  change (strip0x (String "0" (String "x" (HexString.Raw.of_pos p ""))))
    with (Some (HexString.Raw.of_pos p "")).
  destruct (of_pos_cons p "") as (c & body & E).
  rewrite E, <- E.
  change 0 with (Z.of_N 0). rewrite hexDigits_of_pos. reflexivity.
Qed.

(** ** The token payload *)

Lemma digit_of_hexDigitChar (d : Z) :
  0 <= d < 16 -> HexString.ascii_to_digit (hexDigitChar d) = Some (Z.to_N d).
Proof.
  intros H.
  assert (d = 0 \/ d = 1 \/ d = 2 \/ d = 3 \/ d = 4 \/ d = 5 \/ d = 6 \/ d = 7 \/
          d = 8 \/ d = 9 \/ d = 10 \/ d = 11 \/ d = 12 \/ d = 13 \/ d = 14 \/ d = 15)
    as D by lia.
  repeat (destruct D as [-> | D]; [reflexivity|]). subst d. reflexivity.
Qed.

Lemma byte_split (b : Z) : isByte b -> 0 <= b / 16 < 16 /\ 0 <= b mod 16 < 16.
Proof.
  unfold isByte. intros H. split.
  - split; [apply Z.div_pos; lia | apply Z.div_lt_upper_bound; lia].
  - apply Z.mod_pos_bound. lia.
Qed.

Lemma hexBytes_bytesHex (bs : list Z) :
  Forall isByte bs -> hexBytes (bytesHex bs) = Some bs.
Proof.
  induction 1 as [|b bs Hb _ IH]; [reflexivity|].
  destruct (byte_split b Hb) as [Hhi Hlo].
  cbn [bytesHex hexBytes].
  rewrite (digit_of_hexDigitChar _ Hhi), (digit_of_hexDigitChar _ Hlo), IH.
  rewrite !Z2N.id by lia.
  f_equal. f_equal. pose proof (Z.div_mod b 16). lia.
Qed.

(** Reading a run of bytes as digits, most significant byte first. *)
Lemma hexDigits_bytesHex (bs : list Z) : forall (rest : string) (acc : Z),
  Forall isByte bs ->
  hexDigits (bytesHex bs ++ rest)%string acc
  = hexDigits rest (fold_left (fun a b => 256 * a + b) bs acc).
Proof.
  induction bs as [|b bs IH]; intros rest acc H; [reflexivity|].
  inversion H as [|? ? Hb Hbs]; subst.
  destruct (byte_split b Hb) as [Hhi Hlo].
  cbn [bytesHex String.append hexDigits fold_left].
  rewrite (digit_of_hexDigitChar _ Hhi), (digit_of_hexDigitChar _ Hlo).
  rewrite !Z2N.id by lia. rewrite IH by assumption.
  f_equal. f_equal. pose proof (Z.div_mod b 16). lia.
Qed.

Lemma fold_left_rev_valueLE (bs : list Z) :
  fold_left (fun a b => 256 * a + b) (rev bs) 0 = valueLE bs.
Proof.
  induction bs as [|b bs IH]; [reflexivity|].
  cbn [rev valueLE]. rewrite fold_left_app, IH. cbn. lia.
Qed.

Lemma string_app_empty (s : string) : (s ++ "")%string = s.
Proof. induction s as [|c s IH]; [reflexivity|]. cbn. now rewrite IH. Qed.

Lemma bytesHex_cons (bs : list Z) :
  bs <> [] -> exists c body, bytesHex bs = String c body.
Proof. destruct bs; [congruence|]. intros _. cbn. eauto. Qed.

(** The literal of the bytes in the opposite order reads as their
    little-endian value. *)
Lemma BigInt_reversed (bs : list Z) :
  Forall isByte bs -> bs <> [] ->
  BigInt (String "0" (String "x" (bytesHex (rev bs)))) = Ok (valueLE bs).
Proof.
  intros Hb Hne. unfold BigInt.
  change (strip0x (String "0" (String "x" (bytesHex (rev bs)))))
    with (Some (bytesHex (rev bs))).
  destruct (bytesHex_cons (rev bs)) as (c & body & E).
  { intros R. apply Hne. rewrite <- (rev_involutive bs), R. reflexivity. }
  rewrite E, <- E.
  rewrite <- (string_app_empty (bytesHex (rev bs))).
  rewrite hexDigits_bytesHex by (apply Forall_rev; exact Hb).
  cbn [hexDigits]. now rewrite fold_left_rev_valueLE.
Qed.

Lemma substring_prefix (s rest : string) :
  String.substring 0 (String.length s) (s ++ rest)%string = s.
Proof.
  induction s as [|c s IH]; cbn.
  - destruct rest; reflexivity.
  - now rewrite IH.
Qed.

Lemma length_bytesHex (bs : list Z) :
  String.length (bytesHex bs) = (2 * List.length bs)%nat.
Proof. induction bs as [|b bs IH]; cbn; [reflexivity|]. rewrite IH. lia. Qed.

(** The first 34 characters of a payload are [0x] and its first 16 bytes. *)
Lemma slice0_payload (bs : list Z) (rest : string) :
  List.length bs = 16%nat ->
  slice0 34 (String "0" (String "x" (bytesHex bs)) ++ rest)%string
  = String "0" (String "x" (bytesHex bs)).
Proof.
  intros L. unfold slice0.
  replace 34%nat with (String.length (String "0" (String "x" (bytesHex bs)))).
  - apply substring_prefix.
  - cbn [String.length]. rewrite length_bytesHex, L. reflexivity.
Qed.

(** What a token cell contributes: the little-endian value of the first
    16 bytes of its payload. *)
Lemma udtAmountOf_payload (cell : ResolvedOutpoint) (bs : list Z) (rest : string) :
  output_data cell = (String "0" (String "x" (bytesHex bs)) ++ rest)%string ->
  List.length bs = 16%nat -> Forall isByte bs ->
  udtAmountOf cell = Ok (valueLE bs).
Proof.
  intros E L Hb. unfold udtAmountOf. rewrite E, (slice0_payload bs rest L).
  unfold toBigUInt128LE.
  change (strip0x (String "0" (String "x" (bytesHex bs)))) with (Some (bytesHex bs)).
  cbv beta iota.
  rewrite (hexBytes_bytesHex bs Hb), L. cbn [Nat.eqb bind].
  apply BigInt_reversed; [exact Hb|]. intros ->. discriminate L.
Qed.

Lemma bytesLE_bytes (n : nat) : forall x, Forall isByte (bytesLE n x).
Proof.
  induction n as [|n IH]; intros x; cbn; constructor; [|apply IH].
  unfold isByte. apply Z.mod_pos_bound. lia.
Qed.

Lemma length_bytesLE (n : nat) : forall x, List.length (bytesLE n x) = n.
Proof. induction n as [|n IH]; intros x; cbn; [reflexivity|]. now rewrite IH. Qed.

Lemma valueLE_bytesLE (n : nat) : forall x,
  valueLE (bytesLE n x) = x mod 256 ^ Z.of_nat n.
Proof.
  induction n as [|n IH]; intros x.
  - cbn. now rewrite Z.mod_1_r.
  - cbn [bytesLE valueLE]. rewrite IH.
    rewrite Nat2Z.inj_succ, Z.pow_succ_r by lia.
    rewrite Z.rem_mul_r by lia. lia.
Qed.

(** A payload that starts with the 16-byte little-endian encoding of [x]
    decodes to [x]. *)
Lemma udtAmountOf_encode (cell : ResolvedOutpoint) (x : Z) (rest : string) :
  output_data cell = (encodeUInt128LE x ++ rest)%string ->
  0 <= x < 2 ^ 128 ->
  udtAmountOf cell = Ok x.
Proof.
  intros E Hx.
  rewrite (udtAmountOf_payload cell (bytesLE 16 x) rest E
             (length_bytesLE 16 x) (bytesLE_bytes 16 x)).
  rewrite valueLE_bytesLE. f_equal. apply Z.mod_small.
  change (256 ^ Z.of_nat 16) with (2 ^ 128). exact Hx.
Qed.

(** ** Observables *)

Lemma lastValue_halt {A : Type} (e : Ending) (d : A) :
  lastValue (halt e) d
  = match e with Complete => Returned d | Error err => Thrown err | Unfinished => Pending end.
Proof. destruct e; reflexivity. Qed.

Lemma lastValue_push {A : Type} (a : A) (o : Observable A) (d : A) :
  lastValue (push a o) d = lastValue o a.
Proof.
  unfold lastValue, lastValueFrom, push. cbn [emitted ending rev].
  destruct (ending o); cbn; try reflexivity.
  destruct (rev (emitted o)); reflexivity.
Qed.

Lemma scanList_ext {A B : Type} (f g : B -> A -> Result B) :
  (forall b a, f b a = g b a) ->
  forall l acc e, scanList f acc l e = scanList g acc l e.
Proof.
  intros H l. induction l as [|a l IH]; intros acc e; cbn; [reflexivity|].
  rewrite H. destruct (g acc a); [|reflexivity]. now rewrite IH.
Qed.

Lemma foldResult_ext {A B : Type} (f g : B -> A -> Result B) :
  (forall b a, f b a = g b a) ->
  forall l acc, foldResult f acc l = foldResult g acc l.
Proof.
  intros H l. induction l as [|a l IH]; intros acc; cbn; [reflexivity|].
  rewrite H. destruct (g acc a); cbn; [apply IH|reflexivity].
Qed.

Lemma foldResult_app {A B : Type} (f : B -> A -> Result B) (l1 l2 : list A) :
  forall acc, foldResult f acc (l1 ++ l2) = b <- foldResult f acc l1 ;; foldResult f b l2.
Proof.
  induction l1 as [|a l1 IH]; intros acc; cbn; [reflexivity|].
  destruct (f acc a); cbn; [apply IH|reflexivity].
Qed.

(** ** The accumulation as a loop *)

Section Accumulation.

Variable value : ResolvedOutpoint -> Result bigint.
Variable minimal : HexNumber.
Variable m : Z.
Hypothesis minimal_parses : BigInt minimal = Ok m.

(** The pipeline [scan |> takeWhile(..., true) |> lastValueFrom] is the
    loop. *)
Lemma pipeline_is_loop (l : list ResolvedOutpoint) (e : Ending) :
  forall acc,
    lastValue (takeWhile (below minimal) true (scanList (accumulate value) acc l e)) acc
    = collectLoop value m acc l e.
Proof.
  induction l as [|next l IH]; intros acc.
  - cbn. apply lastValue_halt.
  - cbn [scanList collectLoop].
    destruct (accumulate value acc next) as [acc'|err]; [|reflexivity].
    unfold takeWhile. cbn [push emitted ending takeWhileList].
    unfold below at 1. rewrite minimal_parses. cbn [bind].
    destruct (amount acc' <? m).
    + rewrite lastValue_push. apply IH.
    + reflexivity.
Qed.

End Accumulation.

Section Loop.

Variable value : ResolvedOutpoint -> Result bigint.
Variable m : Z.

Lemma accumulate_ok (acc acc' : CellsAccumulator) (next : ResolvedOutpoint) :
  accumulate value acc next = Ok acc' ->
  exists x, value next = Ok x /\
            acc' = {| cells := cells acc ++ [next]; amount := amount acc + x |}.
Proof.
  unfold accumulate. destruct (value next) as [x|err]; cbn; [|discriminate].
  intros [= <-]. eauto.
Qed.

Lemma sum_cons (a : Z) (c : ResolvedOutpoint) (l : list ResolvedOutpoint) (x : Z) :
  value c = Ok x ->
  foldResult (addValue value) a (c :: l) = foldResult (addValue value) (a + x) l.
Proof. intros E. cbn. unfold addValue at 1. now rewrite E. Qed.

(** What a run of the loop that returns has done. *)
Lemma loop_returned (l : list ResolvedOutpoint) (e : Ending) :
  forall acc acc',
    collectLoop value m acc l e = Returned acc' ->
    exists taken rest,
      l = taken ++ rest /\
      cells acc' = cells acc ++ taken /\
      foldResult (addValue value) (amount acc) taken = Ok (amount acc') /\
      (forall p q, taken = p ++ q -> p <> [] -> q <> [] ->
         exists t, foldResult (addValue value) (amount acc) p = Ok t /\ t < m) /\
      (taken = [] \/ amount acc' < m -> rest = [] /\ e = Complete).
Proof.
  induction l as [|next l IH]; intros acc acc' H.
  - cbn in H. destruct e; try discriminate. injection H as <-.
    exists [], []. conjs; try reflexivity.
    + now rewrite app_nil_r.
    + intros p q E. symmetry in E. apply app_eq_nil in E as [-> _]. congruence.
    + intros ?. split; reflexivity.
  - cbn [collectLoop] in H.
    destruct (accumulate value acc next) as [acc1|err] eqn:A; [|discriminate].
    apply accumulate_ok in A as (x & Vx & ->). cbn [amount] in H.
    destruct (amount acc + x <? m) eqn:B.
    + apply IH in H as (taken & rest & -> & Hc & Hs & Hp & He). cbn [cells amount] in *.
      exists (next :: taken), rest. conjs.
      * reflexivity.
      * rewrite Hc, <- app_assoc. reflexivity.
      * rewrite (sum_cons _ _ _ _ Vx). exact Hs.
      * intros p q E Np Nq. destruct p as [|c p]; [congruence|].
        injection E as <- E. rewrite (sum_cons _ _ _ _ Vx).
        destruct p as [|c' p].
        -- exists (amount acc + x). split; [reflexivity|]. apply Z.ltb_lt, B.
        -- apply (Hp _ q E); [discriminate|exact Nq].
      * intros [H0|H0]; [discriminate|]. apply He. now right.
    + injection H as <-. cbn [cells amount].
      exists [next], l. conjs.
      * reflexivity.
      * reflexivity.
      * rewrite (sum_cons _ _ _ _ Vx). reflexivity.
      * intros p q E Np Nq. destruct p as [|c p]; [congruence|].
        injection E as _ E. symmetry in E. apply app_eq_nil in E as [_ ->]. congruence.
      * intros [H|H]; [discriminate|]. apply Z.ltb_ge in B. lia.
Qed.

(** The cell that takes the running sum to the threshold is taken, and
    it is the last one. *)
Lemma loop_crossing (init : list ResolvedOutpoint) :
  forall acc c rest e s x,
    (forall p q, init = p ++ q -> p <> [] ->
       exists t, foldResult (addValue value) (amount acc) p = Ok t /\ t < m) ->
    foldResult (addValue value) (amount acc) init = Ok s ->
    value c = Ok x ->
    m <= s + x ->
    collectLoop value m acc (init ++ c :: rest) e
    = Returned {| cells := cells acc ++ init ++ [c]; amount := s + x |}.
Proof.
  induction init as [|a init IH]; intros acc c rest e s x Hp Hs Vc Hm.
  - cbn in Hs. injection Hs as <-. cbn [app collectLoop].
    unfold accumulate. rewrite Vc. cbn [bind amount].
    destruct (amount acc + x <? m) eqn:B; [apply Z.ltb_lt in B; lia|reflexivity].
  - destruct (Hp [a] init eq_refl ltac:(discriminate)) as (t & Ht & Lt).
    cbn in Ht. unfold addValue in Ht at 1.
    destruct (value a) as [xa|] eqn:Va; [|discriminate]. cbn in Ht. injection Ht as <-.
    cbn [app collectLoop]. unfold accumulate. rewrite Va. cbn [bind amount].
    destruct (amount acc + xa <? m) eqn:B; [|apply Z.ltb_ge in B; lia].
    rewrite (sum_cons _ _ _ _ Va) in Hs.
    rewrite (IH {| cells := cells acc ++ [a]; amount := amount acc + xa |}
               c rest e s x); cbn [cells amount]; try assumption.
    + rewrite <- app_assoc. reflexivity.
    + intros p q E Np. rewrite <- (sum_cons _ _ _ _ Va).
      apply (Hp (a :: p) q); [now rewrite E|discriminate].
Qed.

Hypothesis value_nonneg : forall c x, value c = Ok x -> 0 <= x.

Lemma sum_grows (l : list ResolvedOutpoint) :
  forall a t, foldResult (addValue value) a l = Ok t -> a <= t.
Proof.
  induction l as [|c l IH]; intros a t H; cbn in H.
  - injection H as <-. lia.
  - unfold addValue in H at 1. destruct (value c) as [x|] eqn:V; [|discriminate].
    cbn in H. apply IH in H. apply value_nonneg in V. lia.
Qed.

(** A source that ends below the threshold is taken whole. *)
Lemma loop_exhausted (l : list ResolvedOutpoint) :
  forall acc t,
    foldResult (addValue value) (amount acc) l = Ok t ->
    t < m ->
    collectLoop value m acc l Complete
    = Returned {| cells := cells acc ++ l; amount := t |}.
Proof.
  induction l as [|c l IH]; intros acc t Hs Lt.
  - cbn in Hs. injection Hs as <-. cbn. rewrite app_nil_r. now destruct acc.
  - pose proof Hs as Hs'. cbn in Hs. unfold addValue in Hs at 1.
    destruct (value c) as [x|] eqn:V; [|discriminate]. cbn in Hs.
    pose proof (sum_grows _ _ _ Hs) as G.
    cbn [collectLoop]. unfold accumulate. rewrite V. cbn [bind amount].
    destruct (amount acc + x <? m) eqn:B; [|apply Z.ltb_ge in B; lia].
    rewrite (IH {| cells := cells acc ++ [c]; amount := amount acc + x |} t);
      cbn [cells amount]; try assumption.
    now rewrite <- app_assoc.
Qed.

End Loop.

(** ** Where an exception can come from *)

Lemma BigInt_throws (s : string) (e : JsError) : BigInt s = Throw e -> e = SyntaxError s.
Proof.
  unfold BigInt. destruct (strip0x s) as [[|c body]|]; try (intros [= <-]; reflexivity).
  destruct (hexDigits (String c body) 0); [discriminate|]. intros [= <-]. reflexivity.
Qed.

Lemma capacityOf_throws (cell : ResolvedOutpoint) (e : JsError) :
  capacityOf cell = Throw e -> ~ isInsufficiency e.
Proof. intros H. apply BigInt_throws in H. subst e. exact (fun x => x). Qed.

Lemma udtAmountOf_throws (cell : ResolvedOutpoint) (e : JsError) :
  udtAmountOf cell = Throw e -> ~ isInsufficiency e.
Proof.
  unfold udtAmountOf.
  destruct (toBigUInt128LE (slice0 34 (output_data cell))) as [le|e'] eqn:T; cbn.
  - intros H. apply BigInt_throws in H. subst e. exact (fun x => x).
  - intros [= <-]. unfold toBigUInt128LE in T.
    destruct (strip0x _); [|injection T as <-; exact (fun x => x)].
    destruct (hexBytes _); [|injection T as <-; exact (fun x => x)].
    destruct (_ =? _)%nat; [discriminate|injection T as <-; exact (fun x => x)].
Qed.

Lemma capacityOf_nonneg (cell : ResolvedOutpoint) (x : Z) : capacityOf cell = Ok x -> 0 <= x.
Proof. apply BigInt_nonneg. Qed.

Lemma udtAmountOf_nonneg (cell : ResolvedOutpoint) (x : Z) : udtAmountOf cell = Ok x -> 0 <= x.
Proof.
  unfold udtAmountOf. destruct (toBigUInt128LE _); cbn; [apply BigInt_nonneg|discriminate].
Qed.

(** ** The page stream *)

Lemma expandFrom_ending {A : Type} (project : A -> Promise A) (fuel : nat) :
  forall v, ending (expandFrom project fuel v) = Unfinished \/
            exists w, In w (emitted (expandFrom project fuel v)) /\
                      exists e, project w = Throw e /\
                                ending (expandFrom project fuel v) = Error e.
Proof.
  induction fuel as [|fuel IH]; intros v; cbn; [now left|].
  destruct (project v) as [w|e] eqn:P; cbn.
  - destruct (IH w) as [H|(u & Hu & e & He & Hend)]; [now left|right].
    exists u. split; [now right|]. eauto.
  - right. exists v. split; [now left|]. eauto.
Qed.

Lemma get_cells_throws (client : MercuryClient) (payload : GetCellsPayload) (e : JsError) :
  get_cells client payload = Throw e -> exists message, e = TransportError message.
Proof. unfold get_cells. destruct (answer client payload); [discriminate|]. intros [= <-]. eauto. Qed.

(** The responses never complete, and fail only as the transport does. *)
Lemma responses_ending (this : MercuryProvider) (key : SearchKey) (fuel : nat) :
  ending (responses this key fuel) = Unfinished \/
  exists message, ending (responses this key fuel) = Error (TransportError message).
Proof.
  unfold responses, from, expand.
  destruct (get_cells (mercury this) (firstPayload key)) as [r|e] eqn:G; cbn.
  - destruct (expandFrom_ending
                (fun res => get_cells (mercury this) (nextPayload key res)) fuel r)
      as [H|(w & _ & e & He & Hend)]; [now left|right].
    apply get_cells_throws in He as (message & ->). eauto.
  - right. apply get_cells_throws in G as (message & ->). eauto.
Qed.

Lemma takeWhileList_ending {A : Type} (p : A -> bool) (incl : bool) (l : list A) (e : Ending) :
  ending (takeWhileList (fun a => Ok (p a)) incl l e) = e \/
  ending (takeWhileList (fun a => Ok (p a)) incl l e) = Complete.
Proof.
  induction l as [|a l IH]; cbn; [now left|].
  destruct (p a); cbn; [exact IH|]. destruct incl; now right.
Qed.

Lemma cellStream_ending (this : MercuryProvider) (key : SearchKey) (fuel : nat) :
  forall e, ending (cellStream this key fuel) = Error e -> ~ isInsufficiency e.
Proof.
  intros e. unfold cellStream, concatMap, pages, takeWhile. cbn [ending].
  destruct (takeWhileList_ending (fun res => (0 <? List.length (objects res))%nat) false
              (emitted (responses this key fuel)) (ending (responses this key fuel)))
    as [H|H]; unfold nonEmptyPage; rewrite H; [|discriminate].
  destruct (responses_ending this key fuel) as [R|(message & R)]; rewrite R;
    [discriminate|]. intros [= <-]. exact (fun x => x).
Qed.

(** ** The two collect operations share one shape *)

Lemma collectCkbLiveCells_eq (this : MercuryProvider) (fuel : nat)
  (address : Address) (minimalCapacity : HexNumber) :
  collectCkbLiveCells this fuel address minimalCapacity
  = lock <~ settle (parseToScript this address) ;;
    collectWith capacityOf NoEnoughCkbError lock minimalCapacity (ckbCells this lock fuel).
Proof. reflexivity. Qed.

Lemma scan_ext {A B : Type} (f g : B -> A -> Result B) (seed : B) (o : Observable A) :
  (forall b a, f b a = g b a) -> scan f seed o = scan g seed o.
Proof. intros H. apply scanList_ext, H. Qed.

Lemma accumulate_udt (acc : CellsAccumulator) (resolvedCell : ResolvedOutpoint) :
  (le <- toBigUInt128LE (slice0 34 (output_data resolvedCell)) ;;
   v <- BigInt le ;;
   Ok {| cells := cells acc ++ [resolvedCell]; amount := amount acc + v |})
  = accumulate udtAmountOf acc resolvedCell.
Proof.
  unfold accumulate, udtAmountOf.
  destruct (toBigUInt128LE (slice0 34 (output_data resolvedCell))); reflexivity.
Qed.

Lemma collectUdtCells_eq (this : MercuryProvider) (fuel : nat)
  (address : Address) (udt : CkbTypeScript) (minimalAmount : HexNumber) :
  collectUdtCells this fuel address udt minimalAmount
  = lock <~ settle (parseToScript this address) ;;
    collectWith udtAmountOf NoEnoughUdtError lock minimalAmount (udtCells this lock udt fuel).
Proof.
  unfold collectUdtCells. destruct (parseToScript this address) as [lock|e]; [|reflexivity].
  cbn [settle await]. unfold collectWith, accumulators.
  rewrite <- (scan_ext _ _ emptyAccumulator (udtCells this lock udt fuel) accumulate_udt).
  reflexivity.
Qed.

Section Collect.

Variable value : ResolvedOutpoint -> Result bigint.
Variable insufficient : NoEnoughPayload -> JsError.
Variable lock : Script.
Variable minimal : HexNumber.
Variable source : Observable ResolvedOutpoint.

Lemma collectWith_lastValue :
  collectWith value insufficient lock minimal source
  = acc <~ lastValue (takeWhile (below minimal) true
                        (scanList (accumulate value) emptyAccumulator
                           (emitted source) (ending source))) emptyAccumulator ;;
    m <~ settle (BigInt minimal) ;;
    if amount acc <? m then
      Thrown (insufficient
                {| err_lock := lock; expected := minimal; actual := toHex (amount acc) |})
    else Returned (cells acc).
Proof.
  unfold collectWith, accumulators, scan, lastValue.
  destruct (lastValueFrom _ _); reflexivity.
Qed.

Lemma collectWith_loop (m : Z) :
  BigInt minimal = Ok m ->
  collectWith value insufficient lock minimal source
  = acc <~ collectLoop value m emptyAccumulator (emitted source) (ending source) ;;
    if amount acc <? m then
      Thrown (insufficient
                {| err_lock := lock; expected := minimal; actual := toHex (amount acc) |})
    else Returned (cells acc).
Proof.
  intros P. rewrite collectWith_lastValue, (pipeline_is_loop value minimal m P), P.
  reflexivity.
Qed.

(** A collection that returns has run the loop to a state at or above
    the threshold. *)
Lemma collectWith_returned (cs : list ResolvedOutpoint) :
  collectWith value insufficient lock minimal source = Returned cs ->
  exists m acc,
    BigInt minimal = Ok m /\
    collectLoop value m emptyAccumulator (emitted source) (ending source) = Returned acc /\
    m <= amount acc /\ cs = cells acc.
Proof.
  intros H. destruct (BigInt minimal) as [m|e] eqn:P.
  - rewrite (collectWith_loop m P) in H.
    destruct (collectLoop value m emptyAccumulator (emitted source) (ending source))
      as [acc| |] eqn:L; cbn in H; try discriminate.
    destruct (amount acc <? m) eqn:B; [discriminate|]. injection H as <-.
    exists m, acc. apply Z.ltb_ge in B. auto.
  - rewrite collectWith_lastValue, P in H.
    destruct (lastValue _ _); discriminate.
Qed.

(** An exception of the pipeline is one of its source, of [value], or
    of reading the threshold. *)
Lemma pipeline_thrown (l : list ResolvedOutpoint) (e : Ending) :
  forall acc d err,
    lastValue (takeWhile (below minimal) true (scanList (accumulate value) acc l e)) d
    = Thrown err ->
    e = Error err \/ (exists c, In c l /\ value c = Throw err) \/ BigInt minimal = Throw err.
Proof.
  induction l as [|next l IH]; intros acc d err H.
  - cbn in H. rewrite lastValue_halt in H. destruct e; try discriminate.
    injection H as <-. now left.
  - cbn [scanList] in H. unfold accumulate in H at 1.
    destruct (value next) as [x|err'] eqn:V; cbn [bind] in H.
    + unfold takeWhile in H. cbn [push emitted ending takeWhileList] in H.
      unfold below in H at 1.
      destruct (BigInt minimal) as [m|err'] eqn:P; cbn [bind] in H.
      * destruct (_ <? m).
        -- rewrite lastValue_push in H. apply IH in H as [H|[(c & Hc & Vc)|H]]; auto.
           right. left. exists c. split; [now right|exact Vc].
        -- discriminate.
      * rewrite lastValue_halt in H. injection H as <-. auto.
    + cbn in H. injection H as <-. right. left. exists next. split; [now left|exact V].
Qed.

Hypothesis value_throws : forall c e, value c = Throw e -> ~ isInsufficiency e.
Hypothesis source_ending : forall e, ending source = Error e -> ~ isInsufficiency e.

(** An insufficiency error is raised by the final test alone: the source
    has completed and all of it was taken. *)
Lemma collectWith_insufficient (e : JsError) :
  collectWith value insufficient lock minimal source = Thrown e ->
  isInsufficiency e ->
  exists m t,
    BigInt minimal = Ok m /\
    ending source = Complete /\
    total value (emitted source) = Ok t /\ t < m /\
    e = insufficient {| err_lock := lock; expected := minimal; actual := toHex t |}.
Proof.
  intros H I. rewrite collectWith_lastValue in H.
  destruct (lastValue _ _) as [acc|err|] eqn:L; cbn [await] in H; try discriminate.
  - destruct (BigInt minimal) as [m|err] eqn:P; cbn [settle await] in H.
    + rewrite (pipeline_is_loop value minimal m P) in L.
      destruct (amount acc <? m) eqn:B; [|discriminate]. injection H as <-.
      apply Z.ltb_lt in B.
      apply loop_returned in L as (taken & rest & El & Hc & Hs & _ & He).
      destruct (He (or_intror B)) as [-> Hend]. rewrite app_nil_r in El. subst taken.
      exists m, (amount acc). conjs; auto.
    + injection H as <-. apply BigInt_throws in P. subst err. destruct I.
  - injection H as <-.
    apply pipeline_thrown in L as [L|[(c & _ & V)|L]].
    + destruct (source_ending _ L I).
    + destruct (value_throws _ _ V I).
    + apply BigInt_throws in L. subst. destruct I.
Qed.

End Collect.

(* ================================================================== *)
(** * Part IV: the claims of the specification *)
(* ================================================================== *)

(** ** Tightness of the native collection *)

Lemma parsed_lock {A : Type} (this : MercuryProvider) (address : Address)
  (k : Script -> Outcome A) (a : A) :
  (lock <~ settle (parseToScript this address) ;; k lock) = Returned a ->
  exists lock, parseToScript this address = Ok lock /\ k lock = Returned a.
Proof. destruct (parseToScript this address) as [lock|e]; cbn; [eauto|discriminate]. Qed.

(** C1. Whenever [collectCkbLiveCells] returns, the threshold reads as a
    number [m], the capacities of the returned cells add up to at least
    [m], and, unless exactly one cell is returned, the cells before the
    last one add up to less than [m]. *)
Theorem collectCkbLiveCells_tight (this : MercuryProvider) (fuel : nat)
  (address : Address) (minimalCapacity : HexNumber) (cs : list ResolvedOutpoint) :
  collectCkbLiveCells this fuel address minimalCapacity = Returned cs ->
  exists m t,
    BigInt minimalCapacity = Ok m /\
    total capacityOf cs = Ok t /\ m <= t /\
    forall init last,
      cs = init ++ [last] -> List.length cs <> 1%nat ->
      exists s, total capacityOf init = Ok s /\ s < m.
Proof.
  rewrite collectCkbLiveCells_eq. intros H.
  apply parsed_lock in H as (lock & _ & H).
  apply collectWith_returned in H as (m & acc & P & L & Hm & ->).
  apply loop_returned in L as (taken & rest & _ & Hc & Hs & Hp & _).
  cbn [cells amount emptyAccumulator app] in Hc, Hs, Hp. rewrite Hc.
  exists m, (amount acc). conjs; auto.
  intros init last E Hlen. apply (Hp init [last] E); [|discriminate].
  intros ->. apply Hlen. rewrite E. reflexivity.
Qed.

Lemma collectCkbLiveCells_tight_witness :
  collectCkbLiveCells (providerOf [[ckbCell 1 100; ckbCell 2 50]; [ckbCell 3 200]])
    3 "ckt1sender" "0x78" = Returned [ckbCell 1 100; ckbCell 2 50] /\
  exists m t,
    BigInt "0x78" = Ok m /\
    total capacityOf [ckbCell 1 100; ckbCell 2 50] = Ok t /\ m <= t /\
    forall init last,
      [ckbCell 1 100; ckbCell 2 50] = init ++ [last] ->
      List.length [ckbCell 1 100; ckbCell 2 50] <> 1%nat ->
      exists s, total capacityOf init = Ok s /\ s < m.
Proof.
  split; [reflexivity|].
  apply (collectCkbLiveCells_tight
           (providerOf [[ckbCell 1 100; ckbCell 2 50]; [ckbCell 3 200]])
           3 "ckt1sender" "0x78").
  reflexivity.
Defined.

(** ** The invariant of the accumulator *)

Lemma scan_invariant (value : ResolvedOutpoint -> Result bigint)
  (l : list ResolvedOutpoint) (e : Ending) :
  forall acc0 acc,
    In acc (emitted (scanList (accumulate value) acc0 l e)) ->
    exists taken rest,
      l = taken ++ rest /\
      cells acc = cells acc0 ++ taken /\
      foldResult (addValue value) (amount acc0) taken = Ok (amount acc).
Proof.
  induction l as [|next l IH]; intros acc0 acc H; cbn [scanList] in H.
  - destruct H.
  - destruct (accumulate value acc0 next) as [acc1|err] eqn:A; [|destruct H].
    apply accumulate_ok in A as (x & Vx & ->).
    destruct H as [<-|H].
    + exists [next], l. cbn [cells amount]. conjs; auto.
      now rewrite (sum_cons _ _ _ _ _ Vx).
    + apply IH in H as (taken & rest & -> & Hc & Hs). cbn [cells amount] in Hc, Hs.
      exists (next :: taken), rest. conjs; auto.
      * now rewrite Hc, <- app_assoc.
      * now rewrite (sum_cons _ _ _ _ _ Vx).
Qed.

Lemma accumulators_invariant (value : ResolvedOutpoint -> Result bigint)
  (source : Observable ResolvedOutpoint) (acc : CellsAccumulator) :
  In acc (emitted (accumulators value source)) ->
  total value (cells acc) = Ok (amount acc) /\ prefixOf (cells acc) (emitted source).
Proof.
  intros H. apply scan_invariant in H as (taken & rest & E & Hc & Hs).
  cbn [cells amount emptyAccumulator app] in Hc, Hs. rewrite Hc.
  split; [exact Hs|]. exists rest. exact E.
Qed.

Lemma collectWith_prefix (value : ResolvedOutpoint -> Result bigint)
  (insufficient : NoEnoughPayload -> JsError) (lock : Script) (minimal : HexNumber)
  (source : Observable ResolvedOutpoint) (cs : list ResolvedOutpoint) :
  collectWith value insufficient lock minimal source = Returned cs ->
  prefixOf cs (emitted source).
Proof.
  intros H. apply collectWith_returned in H as (m & acc & _ & L & _ & ->).
  apply loop_returned in L as (taken & rest & E & Hc & _).
  cbn [cells emptyAccumulator app] in Hc. rewrite Hc. exists rest. exact E.
Qed.

(** ** Inclusive termination *)

Section Inclusive.

Variable value : ResolvedOutpoint -> Result bigint.
Hypothesis value_nonneg : forall c x, value c = Ok x -> 0 <= x.
Variable insufficient : NoEnoughPayload -> JsError.
Variable lock : Script.
Variable minimal : HexNumber.
Variable m : Z.
Hypothesis minimal_parses : BigInt minimal = Ok m.
Variable source : Observable ResolvedOutpoint.

Lemma collectWith_crossing (init : list ResolvedOutpoint) (c : ResolvedOutpoint)
  (rest : list ResolvedOutpoint) (t : Z) :
  emitted source = init ++ c :: rest ->
  (forall p q, init = p ++ q -> p <> [] -> exists s, total value p = Ok s /\ s < m) ->
  total value (init ++ [c]) = Ok t -> m <= t ->
  collectWith value insufficient lock minimal source = Returned (init ++ [c]).
Proof.
  intros E Hp Ht Hm. rewrite (collectWith_loop _ _ _ _ _ m minimal_parses), E.
  unfold total in Ht. rewrite foldResult_app in Ht.
  destruct (foldResult (addValue value) 0 init) as [s|] eqn:Hs; [|discriminate].
  cbn in Ht. unfold addValue in Ht at 1.
  destruct (value c) as [x|] eqn:Vc; [|discriminate]. cbn in Ht. injection Ht as <-.
  rewrite (loop_crossing value m init emptyAccumulator c rest (ending source) s x);
    try assumption.
  cbn [await amount cells emptyAccumulator app].
  destruct (s + x <? m) eqn:B; [apply Z.ltb_lt in B; lia|reflexivity].
Qed.

Lemma collectWith_inclusive :
  inclusive value m (emitted source)
    (collectWith value insufficient lock minimal source).
Proof.
  unfold inclusive. conjs.
  - intros init c rest t. apply collectWith_crossing.
  - intros cs H. apply collectWith_returned in H as (m' & acc & P & L & _ & ->).
    rewrite minimal_parses in P. injection P as <-.
    apply loop_returned in L as (taken & rest & _ & Hc & _ & Hp & _).
    cbn [cells amount emptyAccumulator app] in Hc, Hp. rewrite Hc. exact Hp.
  - intros M0 c rest E [x Vx].
    apply (collectWith_crossing [] c rest x E).
    + intros p q Epq. symmetry in Epq. apply app_eq_nil in Epq as [-> _]. congruence.
    + unfold total. cbn. unfold addValue. rewrite Vx. reflexivity.
    + pose proof (value_nonneg _ _ Vx). lia.
Qed.

End Inclusive.

(** C2, as the specification words it, fails: with threshold 0 the
    running sum meets the threshold before any cell, and both operations
    still take the first cell of the source. *)
Lemma zero_threshold_takes_a_cell :
  collectCkbLiveCells oneCkbCell 3 "ckt1sender" "0x0" = Returned [ckbCell 1 100] /\
  collectUdtCells oneUdtCell 3 "ckt1sender" sudt0 "0x0" = Returned [udtCell 1 142 7] /\
  ~ neverTakesPastThreshold.
Proof.
  conjs; try reflexivity.
  intros H.
  destruct (H oneCkbCell 3%nat "ckt1sender" "0x0" 0 [ckbCell 1 100]
              eq_refl eq_refl [] [ckbCell 1 100] eq_refl ltac:(discriminate))
    as (s & Hs & Lt).
  injection Hs as <-. lia.
Qed.

(** C2, amended. In both collect operations termination is inclusive:
    the first cell with which the running sum reaches the threshold is
    the last cell of the result; no cell is taken after a result that is
    not empty has reached the threshold; and with threshold 0 the result
    is the first cell of the source (the first cell that bears no type,
    for the native collection). *)
Theorem collect_inclusive (this : MercuryProvider) (fuel : nat) (address : Address)
  (udt : CkbTypeScript) (minimal : HexNumber) (lock : Script) (m : Z) :
  parseToScript this address = Ok lock ->
  BigInt minimal = Ok m ->
  inclusive capacityOf m (emitted (ckbCells this lock fuel))
    (collectCkbLiveCells this fuel address minimal) /\
  inclusive udtAmountOf m (emitted (udtCells this lock udt fuel))
    (collectUdtCells this fuel address udt minimal).
Proof.
  intros P M. rewrite collectCkbLiveCells_eq, collectUdtCells_eq, P. cbn [settle await].
  split.
  - apply (collectWith_inclusive _ capacityOf_nonneg _ _ _ _ M).
  - apply (collectWith_inclusive _ udtAmountOf_nonneg _ _ _ _ M).
Qed.

(** Threshold 120 over the cells 100, 50, 200: the second cell crosses and
    ends the result; threshold 0 over a token cell: that cell is taken. *)
Lemma collect_inclusive_witness :
  (parseToScript threeCkbCells "ckt1sender" = Ok script0 /\
   BigInt "0x78" = Ok 120) /\
  collectCkbLiveCells threeCkbCells 3 "ckt1sender" "0x78"
  = Returned ([ckbCell 1 100] ++ [ckbCell 2 50]) /\
  collectUdtCells oneUdtCell 3 "ckt1sender" sudt0 "0x0" = Returned [udtCell 1 142 7].
Proof.
  split; [split; reflexivity|]. split.
  - apply (proj1 (proj1 (collect_inclusive
             threeCkbCells 3 "ckt1sender" sudt0 "0x78" script0 120 eq_refl eq_refl))
             [ckbCell 1 100] (ckbCell 2 50) [ckbCell 3 200] 150).
    + reflexivity.
    + intros p q E Np. destruct p as [|x [|y p]].
      * congruence.
      * injection E as <- _. exists 100. split; [reflexivity|lia].
      * discriminate E.
    + reflexivity.
    + lia.
  - apply (proj2 (proj2 (proj2 (collect_inclusive
             oneUdtCell 3 "ckt1sender" sudt0 "0x0" script0 0 eq_refl eq_refl)))
             eq_refl (udtCell 1 142 7) []).
    + reflexivity.
    + exists 7. reflexivity.
Defined.

(** ** Insufficiency *)

Lemma collectWith_exhausted (value : ResolvedOutpoint -> Result bigint)
  (insufficient : NoEnoughPayload -> JsError) (lock : Script) (minimal : HexNumber)
  (m : Z) (source : Observable ResolvedOutpoint) (t : Z) :
  (forall c x, value c = Ok x -> 0 <= x) ->
  BigInt minimal = Ok m ->
  ending source = Complete ->
  total value (emitted source) = Ok t -> t < m ->
  collectWith value insufficient lock minimal source
  = Thrown (insufficient {| err_lock := lock; expected := minimal; actual := toHex t |}).
Proof.
  intros Hv P E Ht Lt. rewrite (collectWith_loop _ _ _ _ _ m P), E.
  rewrite (loop_exhausted value m Hv (emitted source) emptyAccumulator t Ht Lt).
  cbn [await amount]. destruct (t <? m) eqn:B; [reflexivity|apply Z.ltb_ge in B; lia].
Qed.

Lemma collectWith_insufficientAtExhaustion (value : ResolvedOutpoint -> Result bigint)
  (insufficient : NoEnoughPayload -> JsError) (lock : Script) (minimal : HexNumber)
  (m : Z) (source : Observable ResolvedOutpoint) :
  (forall c x, value c = Ok x -> 0 <= x) ->
  (forall c e, value c = Throw e -> ~ isInsufficiency e) ->
  (forall e, ending source = Error e -> ~ isInsufficiency e) ->
  BigInt minimal = Ok m ->
  insufficientAtExhaustion value insufficient lock minimal m source
    (collectWith value insufficient lock minimal source).
Proof.
  intros Hv Ht He P. split.
  - intros t E T Lt. split.
    + apply (collectWith_exhausted _ _ _ _ m _ _ Hv P E T Lt).
    + apply BigInt_toHex. apply (sum_grows value Hv _ _ _ T).
  - intros e H I.
    destruct (collectWith_insufficient _ _ _ _ _ Ht He e H I)
      as (m' & t & P' & E & T & Lt & ->).
    rewrite P in P'. injection P' as <-. exists t. auto.
Qed.



(** ** The native filter *)

Lemma expandFrom_ext {A : Type} (f g : A -> Promise A) :
  (forall v, f v = g v) ->
  forall fuel v, expandFrom f fuel v = expandFrom g fuel v.
Proof.
  intros H fuel. induction fuel as [|fuel IH]; intros v; cbn; [reflexivity|].
  rewrite H. destruct (g v); [|reflexivity]. now rewrite IH.
Qed.

(** The cell stream asks the indexer about one search key only. *)
Lemma cellStream_ext (this other : MercuryProvider) (key : SearchKey) (fuel : nat) :
  (forall cursor,
     answer (mercury other) {| search_key := key; after_cursor := cursor |}
     = answer (mercury this) {| search_key := key; after_cursor := cursor |}) ->
  cellStream other key fuel = cellStream this key fuel.
Proof.
  intros H.
  assert (G : forall cursor,
             get_cells (mercury other) {| search_key := key; after_cursor := cursor |}
             = get_cells (mercury this) {| search_key := key; after_cursor := cursor |}).
  { intros cursor. unfold get_cells. now rewrite H. }
  unfold cellStream, pages, responses, firstPayload. rewrite (G None).
  unfold expand.
  destruct (emitted (from (get_cells (mercury this)
                             {| search_key := key; after_cursor := None |})));
    [reflexivity|].
  rewrite (expandFrom_ext
             (fun res => get_cells (mercury other) (nextPayload key res))
             (fun res => get_cells (mercury this) (nextPayload key res))
             (fun res => G (Some (last_cursor res)))).
  reflexivity.
Qed.

Lemma prefixOf_Forall {A : Type} (P : A -> Prop) (p l : list A) :
  prefixOf p l -> Forall P l -> Forall P p.
Proof. intros [rest ->] H. apply Forall_app in H. tauto. Qed.

Lemma isLive_type (cell : ResolvedOutpoint) : isLive cell = true -> type (output cell) = None.
Proof. unfold isLive. destruct (type (output cell)); [discriminate|reflexivity]. Qed.

(** C4. Whatever the indexer answers, every cell [collectCkbLiveCells]
    returns bears no type; and the operation queries the indexer with one
    search key only: the lock of the address, matched as a lock, with the
    payload length range ['0x0', '0x1'] as filter. A provider that
    answers that search key alike gives the same outcome. *)
Theorem collectCkbLiveCells_native_only (this : MercuryProvider) (fuel : nat)
  (address : Address) (minimalCapacity : HexNumber) (lock : Script) :
  parseToScript this address = Ok lock ->
  (forall cs,
     collectCkbLiveCells this fuel address minimalCapacity = Returned cs ->
     Forall (fun cell => type (output cell) = None) cs) /\
  (forall other,
     parseToScript other address = Ok lock ->
     (forall cursor,
        answer (mercury other)
          {| search_key :=
               {| script := lock;
                  script_type := script_type_lock;
                  filter := Some {| filter_script := None;
                                    output_data_len_range := Some ("0x0", "0x1") |} |};
             after_cursor := cursor |}
        = answer (mercury this)
            {| search_key :=
                 {| script := lock;
                    script_type := script_type_lock;
                    filter := Some {| filter_script := None;
                                      output_data_len_range := Some ("0x0", "0x1") |} |};
               after_cursor := cursor |}) ->
     collectCkbLiveCells other fuel address minimalCapacity
     = collectCkbLiveCells this fuel address minimalCapacity).
Proof.
  intros P. split.
  - intros cs H. rewrite collectCkbLiveCells_eq, P in H. cbn [settle await] in H.
    apply collectWith_prefix in H.
    apply (prefixOf_Forall _ _ _ H). apply Forall_forall.
    intros cell Hin. apply filter_In in Hin as [_ Hin]. apply isLive_type, Hin.
  - intros other P' H. rewrite !collectCkbLiveCells_eq, P, P'. cbn [settle await].
    unfold ckbCells. now rewrite (cellStream_ext this other (ckbSearchKey lock) fuel H).
Qed.

Lemma collectCkbLiveCells_native_only_witness :
  parseToScript threeCkbCells "ckt1sender" = Ok script0 /\
  collectCkbLiveCells threeCkbCells 3 "ckt1sender" "0x78"
  = Returned [ckbCell 1 100; ckbCell 2 50] /\
  Forall (fun cell => type (output cell) = None) [ckbCell 1 100; ckbCell 2 50].
Proof.
  split; [reflexivity|]. split; [reflexivity|].
  apply (proj1 (collectCkbLiveCells_native_only
                  threeCkbCells 3 "ckt1sender" "0x78" script0 eq_refl)).
  reflexivity.
Defined.

(** ** The balances *)

Lemma lastValueFrom_reduce {A B D : Type} (f : B -> A -> Result B) (seed : B)
  (o : Observable A) (d : D) :
  lastValueFrom (reduce f seed o) d
  = match foldResult f seed (emitted o) with
    | Throw err => Thrown err
    | Ok b =>
        match ending o with
        | Complete => Returned (inl b)
        | Error e => Thrown e
        | Unfinished => Pending
        end
    end.
Proof.
  unfold reduce. destruct (foldResult f seed (emitted o)); [|reflexivity].
  destruct (ending o); reflexivity.
Qed.

Lemma balance_shape {D : Type} (value : ResolvedOutpoint -> Result bigint)
  (f : bigint -> ResolvedOutpoint -> Result bigint) (g : bigint + D -> HexNumber)
  (d : D) (source : Observable ResolvedOutpoint) :
  (forall b a, f b a = addValue value b a) ->
  (forall n, g (inl n) = toHex n) ->
  (x <~ lastValueFrom (reduce f 0 source) d ;; Returned (g x)) = balanceOf value source.
Proof.
  intros Hf Hg. rewrite lastValueFrom_reduce. unfold balanceOf, total.
  rewrite (foldResult_ext f (addValue value) Hf).
  destruct (foldResult (addValue value) 0 (emitted source)); [|reflexivity].
  destruct (ending source); cbn; [now rewrite Hg|reflexivity|reflexivity].
Qed.

Lemma getCkbLiveCellsBalance_eq (this : MercuryProvider) (fuel : nat) (address : Address) :
  getCkbLiveCellsBalance this fuel address
  = lock <~ settle (parseToScript this address) ;;
    balanceOf capacityOf (ckbCells this lock fuel).
Proof.
  unfold getCkbLiveCellsBalance.
  destruct (parseToScript this address) as [lock|e]; [|reflexivity].
  cbn [settle await].
  exact (balance_shape capacityOf _ bytes_toHex "0x0" (ckbCells this lock fuel)
           (fun b a => eq_refl) (fun n => eq_refl)).
Qed.

Lemma addValue_udt (acc : bigint) (resolvedCell : ResolvedOutpoint) :
  (le <- toBigUInt128LE (slice0 34 (output_data resolvedCell)) ;;
   v <- BigInt le ;;
   Ok (acc + v))
  = addValue udtAmountOf acc resolvedCell.
Proof.
  unfold addValue, udtAmountOf.
  destruct (toBigUInt128LE (slice0 34 (output_data resolvedCell))); reflexivity.
Qed.

Lemma getUdtBalance_eq (this : MercuryProvider) (fuel : nat) (address : Address)
  (udt : CkbTypeScript) :
  getUdtBalance this fuel address udt
  = lock <~ settle (parseToScript this address) ;;
    balanceOf udtAmountOf (udtCells this lock udt fuel).
Proof.
  unfold getUdtBalance.
  destruct (parseToScript this address) as [lock|e]; [|reflexivity].
  cbn [settle await].
  exact (balance_shape udtAmountOf _ (fun x => toHex (either x)) 0
           (udtCells this lock udt fuel) addValue_udt (fun n => eq_refl)).
Qed.

Lemma sum_throws (value : ResolvedOutpoint -> Result bigint) (l : list ResolvedOutpoint) :
  forall a e, foldResult (addValue value) a l = Throw e ->
              exists c, In c l /\ value c = Throw e.
Proof.
  induction l as [|c l IH]; intros a e H; cbn in H; [discriminate|].
  unfold addValue in H at 1. destruct (value c) as [x|err] eqn:V; cbn in H.
  - apply IH in H as (c' & Hin & Hc). exists c'. split; [now right|exact Hc].
  - injection H as <-. exists c. split; [now left|exact V].
Qed.

Lemma balanceOf_total (value : ResolvedOutpoint -> Result bigint)
  (source : Observable ResolvedOutpoint) (t : Z) :
  ending source = Complete ->
  total value (emitted source) = Ok t ->
  balanceOf value source = Returned (toHex t).
Proof. intros E T. unfold balanceOf. now rewrite T, E. Qed.

Lemma balanceOf_thrown (value : ResolvedOutpoint -> Result bigint)
  (source : Observable ResolvedOutpoint) (e : JsError) :
  (forall c err, value c = Throw err -> ~ isInsufficiency err) ->
  (forall err, ending source = Error err -> ~ isInsufficiency err) ->
  balanceOf value source = Thrown e -> ~ isInsufficiency e.
Proof.
  intros Hv He. unfold balanceOf.
  destruct (total value (emitted source)) as [t|err] eqn:T.
  - destruct (ending source) eqn:E; try discriminate. intros [= <-]. now apply He.
  - intros [= <-]. apply sum_throws in T as (c & _ & V). apply (Hv _ _ V).
Qed.

(** ** The token amount *)

Lemma digit_bound (ch : ascii) (v : N) :
  HexString.ascii_to_digit ch = Some v -> (v < 16)%N.
Proof.
  unfold HexString.ascii_to_digit.
  repeat match goal with
         | |- context [ascii_dec ?a ?b] => destruct (ascii_dec a b)
         end;
    intros H; try discriminate; injection H as <-; reflexivity.
Qed.

Lemma hexBytes_isByte : forall (s : string) (bs : list Z),
  hexBytes s = Some bs -> Forall isByte bs.
Proof.
  fix IH 1. intros s bs H. destruct s as [|hi [|lo s']]; cbn [hexBytes] in H.
  - injection H as <-. constructor.
  - discriminate.
  - destruct (HexString.ascii_to_digit hi) as [h|] eqn:Eh; [|discriminate].
    destruct (HexString.ascii_to_digit lo) as [l|] eqn:El; [|discriminate].
    destruct (hexBytes s') as [bs'|] eqn:E; [|discriminate].
    injection H as <-. constructor; [|apply (IH s' bs' E)].
    apply digit_bound in Eh, El.
    change (0 <= 16 * Z.of_N h + Z.of_N l < 256). lia.
Qed.

Lemma payload16_payload (cell : ResolvedOutpoint) (bs : list Z) (rest : string) :
  output_data cell = (String "0" (String "x" (bytesHex bs)) ++ rest)%string ->
  List.length bs = 16%nat -> Forall isByte bs ->
  payload16 cell = Some bs.
Proof.
  intros E L Hb. unfold payload16. rewrite E, (slice0_payload bs rest L).
  change (strip0x (String "0" (String "x" (bytesHex bs)))) with (Some (bytesHex bs)).
  cbv beta iota. now rewrite (hexBytes_bytesHex bs Hb), L.
Qed.

(** ** More fuel changes nothing that has ended *)

Lemma extends_refl {A : Type} (o : Observable A) : extends o o.
Proof. unfold extends. destruct (ending o); try reflexivity. exists []. now rewrite app_nil_r. Qed.

Lemma extends_push {A : Type} (a : A) (o o' : Observable A) :
  extends o o' -> extends (push a o) (push a o').
Proof.
  unfold extends, push. cbn [emitted ending]. destruct (ending o) eqn:E.
  - intros ->. now rewrite E.
  - intros ->. now rewrite E.
  - intros [rest ->]. now exists rest.
Qed.

Lemma extends_ended {A : Type} (o o' : Observable A) :
  extends o o' -> ending o <> Unfinished -> o' = o.
Proof. unfold extends. destruct (ending o); congruence. Qed.

Lemma extends_cases {A : Type} (o o' : Observable A) :
  extends o o' ->
  o' = o \/ (ending o = Unfinished /\ exists rest, emitted o' = emitted o ++ rest).
Proof.
  unfold extends. destruct (ending o) eqn:E; [now left|now left|].
  intros [rest H]. right. eauto.
Qed.

Lemma expandFrom_extends {A : Type} (project : A -> Promise A) (fuel : nat) :
  forall fuel' v, (fuel <= fuel')%nat ->
                  extends (expandFrom project fuel v) (expandFrom project fuel' v).
Proof.
  induction fuel as [|fuel IH]; intros fuel' v H.
  - cbn. unfold extends. cbn. destruct fuel' as [|fuel']; cbn.
    + now exists [].
    + destruct (project v); cbn; eexists; reflexivity.
  - destruct fuel' as [|fuel']; [lia|]. cbn.
    destruct (project v) as [w|e]; [|apply extends_refl].
    apply extends_push, IH. lia.
Qed.

Lemma responses_extends (this : MercuryProvider) (key : SearchKey) (fuel fuel' : nat) :
  (fuel <= fuel')%nat -> extends (responses this key fuel) (responses this key fuel').
Proof.
  intros H. unfold responses, expand.
  destruct (emitted (from (get_cells (mercury this) (firstPayload key))));
    [apply extends_refl|].
  now apply expandFrom_extends.
Qed.

Lemma takeWhileList_extends {A : Type} (p : A -> Result bool) (incl : bool)
  (l rest : list A) (e' : Ending) :
  extends (takeWhileList p incl l Unfinished) (takeWhileList p incl (l ++ rest) e').
Proof.
  induction l as [|a l IH]; cbn.
  - unfold extends. cbn. now eexists.
  - destruct (p a) as [[|]|err]; try apply extends_refl.
    apply extends_push, IH.
Qed.

Lemma takeWhile_extends {A : Type} (p : A -> Result bool) (incl : bool)
  (o o' : Observable A) :
  extends o o' -> extends (takeWhile p incl o) (takeWhile p incl o').
Proof.
  intros H. apply extends_cases in H as [->|(E & rest & R)]; [apply extends_refl|].
  unfold takeWhile. rewrite E, R. apply takeWhileList_extends.
Qed.

Lemma concatMap_extends {A B : Type} (f : A -> list B) (o o' : Observable A) :
  extends o o' -> extends (concatMap f o) (concatMap f o').
Proof.
  intros H. apply extends_cases in H as [->|(E & rest & R)]; [apply extends_refl|].
  unfold extends, concatMap. cbn [emitted ending]. rewrite E, R, map_app, concat_app.
  now eexists.
Qed.

Lemma rxFilter_extends {A : Type} (p : A -> bool) (o o' : Observable A) :
  extends o o' -> extends (rxFilter p o) (rxFilter p o').
Proof.
  intros H. apply extends_cases in H as [->|(E & rest & R)]; [apply extends_refl|].
  unfold extends, rxFilter. cbn [emitted ending]. rewrite E, R, filter_app.
  now eexists.
Qed.

Lemma scanList_extends {A B : Type} (f : B -> A -> Result B) (l rest : list A) (e' : Ending) :
  forall acc, extends (scanList f acc l Unfinished) (scanList f acc (l ++ rest) e').
Proof.
  induction l as [|a l IH]; intros acc; cbn.
  - unfold extends. cbn. now eexists.
  - destruct (f acc a); [|apply extends_refl]. apply extends_push, IH.
Qed.

Lemma scan_extends {A B : Type} (f : B -> A -> Result B) (seed : B) (o o' : Observable A) :
  extends o o' -> extends (scan f seed o) (scan f seed o').
Proof.
  intros H. apply extends_cases in H as [->|(E & rest & R)]; [apply extends_refl|].
  unfold scan. rewrite E, R. apply scanList_extends.
Qed.

Lemma reduce_extends {A B : Type} (f : B -> A -> Result B) (seed : B) (o o' : Observable A) :
  extends o o' -> extends (reduce f seed o) (reduce f seed o').
Proof.
  intros H. apply extends_cases in H as [->|(E & rest & R)]; [apply extends_refl|].
  unfold reduce. rewrite E, R, foldResult_app.
  destruct (foldResult f seed (emitted o)); cbn [bind]; [|apply extends_refl].
  unfold extends. cbn. now eexists.
Qed.

Lemma lastValueFrom_extends {A D : Type} (o o' : Observable A) (d : D) :
  extends o o' -> lastValueFrom o d <> Pending -> lastValueFrom o' d = lastValueFrom o d.
Proof.
  intros H N. rewrite (extends_ended o o' H); [reflexivity|].
  intros E. apply N. unfold lastValueFrom. now rewrite E.
Qed.

Lemma cellStream_extends (this : MercuryProvider) (key : SearchKey) (fuel fuel' : nat) :
  (fuel <= fuel')%nat -> extends (cellStream this key fuel) (cellStream this key fuel').
Proof.
  intros H. apply concatMap_extends, takeWhile_extends, responses_extends, H.
Qed.

Lemma await_settled {A B : Type} (o o' : Outcome A) (k : A -> Outcome B) :
  (o <> Pending -> o' = o) ->
  (forall a, k a <> Pending) ->
  (x <~ o ;; k x) <> Pending -> (x <~ o' ;; k x) = (x <~ o ;; k x).
Proof.
  intros H K N. rewrite H; [reflexivity|]. intros ->. now apply N.
Qed.

Lemma collectWith_extends (value : ResolvedOutpoint -> Result bigint)
  (insufficient : NoEnoughPayload -> JsError) (lock : Script) (minimal : HexNumber)
  (source source' : Observable ResolvedOutpoint) :
  extends source source' ->
  collectWith value insufficient lock minimal source <> Pending ->
  collectWith value insufficient lock minimal source'
  = collectWith value insufficient lock minimal source.
Proof.
  intros H. unfold collectWith. apply await_settled.
  - apply lastValueFrom_extends, takeWhile_extends, scan_extends, H.
  - intros a. destruct (BigInt minimal); cbn; [|discriminate].
    destruct (_ <? _); discriminate.
Qed.

Lemma balanceOf_extends (value : ResolvedOutpoint -> Result bigint)
  (source source' : Observable ResolvedOutpoint) :
  extends source source' ->
  balanceOf value source <> Pending ->
  balanceOf value source' = balanceOf value source.
Proof.
  intros H N. apply extends_cases in H as [->|(E & rest & R)]; [reflexivity|].
  unfold balanceOf, total in *. rewrite E in N. rewrite R, foldResult_app.
  destruct (foldResult (addValue value) 0 (emitted source)); [|reflexivity].
  now destruct N.
Qed.

(** Every operation that has settled with some fuel settles alike with
    more. *)
Lemma fuel_monotone (this : MercuryProvider) (fuel fuel' : nat) (address : Address)
  (udt : CkbTypeScript) (minimal : HexNumber) :
  (fuel <= fuel')%nat ->
  (collectCkbLiveCells this fuel address minimal <> Pending ->
   collectCkbLiveCells this fuel' address minimal
   = collectCkbLiveCells this fuel address minimal) /\
  (collectUdtCells this fuel address udt minimal <> Pending ->
   collectUdtCells this fuel' address udt minimal
   = collectUdtCells this fuel address udt minimal) /\
  (getCkbLiveCellsBalance this fuel address <> Pending ->
   getCkbLiveCellsBalance this fuel' address = getCkbLiveCellsBalance this fuel address) /\
  (getUdtBalance this fuel address udt <> Pending ->
   getUdtBalance this fuel' address udt = getUdtBalance this fuel address udt).
Proof.
  intros H.
  rewrite !collectCkbLiveCells_eq, !collectUdtCells_eq,
    !getCkbLiveCellsBalance_eq, !getUdtBalance_eq.
  destruct (parseToScript this address) as [lock|e]; cbn [settle await]; [|tauto].
  conjs.
  - apply collectWith_extends, rxFilter_extends, cellStream_extends, H.
  - apply collectWith_extends, cellStream_extends, H.
  - apply balanceOf_extends, rxFilter_extends, cellStream_extends, H.
  - apply balanceOf_extends, cellStream_extends, H.
Qed.

(** ** What the indexer serves *)

Lemma get_cells_answer (client : MercuryClient) (payload : GetCellsPayload)
  (res : GetCellsResponse) :
  get_cells client payload = Ok res <-> answer client payload = inl res.
Proof. unfold get_cells. destruct (answer client payload); split; congruence. Qed.

Lemma expandFrom_push {A : Type} (project : A -> Promise A) (fuel : nat) (v : A) :
  expandFrom project fuel v
  = push v match fuel with
           | O => halt Unfinished
           | S fuel' =>
               match project v with
               | Ok w => expandFrom project fuel' w
               | Throw e => halt (Error e)
               end
           end.
Proof. destruct fuel; cbn; [reflexivity|]. destruct (project v); reflexivity. Qed.

Lemma takeWhile_push {A : Type} (p : A -> Result bool) (incl : bool) (a : A)
  (o : Observable A) :
  takeWhile p incl (push a o)
  = match p a with
    | Ok true => push a (takeWhile p incl o)
    | Ok false => if incl then push a (halt Complete) else halt Complete
    | Throw err => halt (Error err)
    end.
Proof. reflexivity. Qed.

Lemma nonEmptyPage_empty (r : GetCellsResponse) :
  objects r = [] -> nonEmptyPage r = Ok false.
Proof. unfold nonEmptyPage. now intros ->. Qed.

Lemma nonEmptyPage_page (r : GetCellsResponse) :
  objects r <> [] -> nonEmptyPage r = Ok true.
Proof. unfold nonEmptyPage. destruct (objects r); [congruence|reflexivity]. Qed.

Lemma serves_next (client : MercuryClient) (key : SearchKey) (cursor : option Cursor)
  (ps : list GetCellsResponse) :
  serves client key cursor ps true ->
  exists w, get_cells client {| search_key := key; after_cursor := cursor |} = Ok w.
Proof.
  destruct ps as [|p rest]; cbn.
  - intros (res & A & _). exists res. now apply get_cells_answer.
  - intros (A & _). exists p. now apply get_cells_answer.
Qed.

(** An indexer that serves [ps] and then an empty page: the pages handed
    on are [ps], and they complete. *)
Lemma pagesFrom_served (client : MercuryClient) (key : SearchKey)
  (ps : list GetCellsResponse) :
  forall fuel v cursor,
    get_cells client {| search_key := key; after_cursor := cursor |} = Ok v ->
    serves client key cursor ps true ->
    (List.length ps <= fuel)%nat ->
    takeWhile nonEmptyPage false
      (expandFrom (fun res => get_cells client (nextPayload key res)) fuel v)
    = {| emitted := ps; ending := Complete |}.
Proof.
  induction ps as [|p rest IH]; intros fuel v cursor G Sv L;
    rewrite expandFrom_push, takeWhile_push.
  - destruct Sv as (res & A & E). apply get_cells_answer in A.
    rewrite A in G. injection G as <-.
    now rewrite (nonEmptyPage_empty _ E).
  - destruct Sv as (A & N & Sv). apply get_cells_answer in A.
    rewrite A in G. injection G as <-.
    rewrite (nonEmptyPage_page _ N).
    destruct fuel as [|fuel]; [cbn in L; lia|].
    destruct (serves_next _ _ _ _ Sv) as [w W].
    cbv beta. unfold nextPayload at 1. rewrite W.
    rewrite (IH fuel w _ W Sv); [reflexivity|cbn in L; lia].
Qed.

Lemma responses_first (this : MercuryProvider) (key : SearchKey) (fuel : nat)
  (v : GetCellsResponse) :
  get_cells (mercury this) {| search_key := key; after_cursor := None |} = Ok v ->
  responses this key fuel
  = expandFrom (fun res => get_cells (mercury this) (nextPayload key res)) fuel v.
Proof. intros G. unfold responses, firstPayload. rewrite G. reflexivity. Qed.

Lemma pages_served (this : MercuryProvider) (key : SearchKey) (fuel : nat)
  (ps : list GetCellsResponse) :
  serves (mercury this) key None ps true ->
  (List.length ps <= fuel)%nat ->
  pages this key fuel = {| emitted := ps; ending := Complete |}.
Proof.
  intros Sv L. destruct (serves_next _ _ _ _ Sv) as [v G].
  unfold pages. rewrite (responses_first _ _ _ _ G).
  apply (pagesFrom_served _ _ _ _ _ _ G Sv L).
Qed.

Lemma cellStream_served (this : MercuryProvider) (key : SearchKey) (fuel : nat)
  (ps : list GetCellsResponse) :
  serves (mercury this) key None ps true ->
  (List.length ps <= fuel)%nat ->
  cellStream this key fuel
  = {| emitted := List.concat (List.map objects ps); ending := Complete |}.
Proof. intros Sv L. unfold cellStream. now rewrite (pages_served _ _ _ _ Sv L). Qed.

(** An indexer whose first pages are [ps]: the pages handed on begin with
    them. *)
Lemma pagesFrom_serving (client : MercuryClient) (key : SearchKey)
  (ps : list GetCellsResponse) :
  forall fuel v cursor,
    get_cells client {| search_key := key; after_cursor := cursor |} = Ok v ->
    serves client key cursor ps false ->
    (List.length ps <= S fuel)%nat ->
    prefixOf ps
      (emitted (takeWhile nonEmptyPage false
                  (expandFrom (fun res => get_cells client (nextPayload key res)) fuel v))).
Proof.
  induction ps as [|p rest IH]; intros fuel v cursor G Sv L; [now eexists|].
  rewrite expandFrom_push, takeWhile_push.
  destruct Sv as (A & N & Sv). apply get_cells_answer in A.
  rewrite A in G. injection G as <-.
  rewrite (nonEmptyPage_page _ N).
  destruct rest as [|p' rest]; [now eexists|].
  destruct fuel as [|fuel]; [cbn in L; lia|].
  pose proof Sv as (A' & _). apply get_cells_answer in A'.
  cbv beta. unfold nextPayload at 1. rewrite A'.
  destruct (IH fuel p' _ A' Sv) as [more E]; [cbn in L |- *; lia|].
  exists more. cbn [push emitted]. now rewrite E.
Qed.

Lemma cellStream_serving (this : MercuryProvider) (key : SearchKey) (fuel : nat)
  (ps : list GetCellsResponse) :
  serves (mercury this) key None ps false ->
  (List.length ps <= S fuel)%nat ->
  prefixOf (List.concat (List.map objects ps)) (emitted (cellStream this key fuel)).
Proof.
  intros Sv L. destruct ps as [|p rest]; [now eexists|].
  pose proof Sv as (A & _). apply get_cells_answer in A.
  unfold cellStream, pages, concatMap. cbn [emitted].
  rewrite (responses_first _ _ _ _ A).
  destruct (pagesFrom_serving _ _ _ _ _ _ A Sv L) as [more E].
  rewrite E, map_app, concat_app. now eexists.
Qed.

(** The pages handed on are pages the indexer serves. *)
Lemma pagesFrom_serves (client : MercuryClient) (key : SearchKey) (fuel : nat) :
  forall v cursor,
    get_cells client {| search_key := key; after_cursor := cursor |} = Ok v ->
    serves client key cursor
      (emitted (takeWhile nonEmptyPage false
                  (expandFrom (fun res => get_cells client (nextPayload key res)) fuel v)))
      false.
Proof.
  induction fuel as [|fuel IH]; intros v cursor G;
    rewrite expandFrom_push, takeWhile_push;
    (destruct (objects v) as [|c cs] eqn:E;
     [rewrite (nonEmptyPage_empty _ E); exact I|]);
    (rewrite nonEmptyPage_page by (rewrite E; discriminate));
    cbn [push emitted serves];
    (split; [now apply get_cells_answer|]);
    (split; [rewrite E; discriminate|]).
  - exact I.
  - cbv beta. destruct (get_cells client (nextPayload key v)) as [w|e] eqn:W.
    + apply (IH w _ W).
    + exact I.
Qed.

Lemma pages_serves (this : MercuryProvider) (key : SearchKey) (fuel : nat) :
  serves (mercury this) key None (emitted (pages this key fuel)) false.
Proof.
  unfold pages.
  destruct (get_cells (mercury this) {| search_key := key; after_cursor := None |})
    as [v|e] eqn:G.
  - rewrite (responses_first _ _ _ _ G). apply (pagesFrom_serves _ _ _ _ _ G).
  - unfold responses, firstPayload. rewrite G. exact I.
Qed.

(** ** Sums of contributions *)

Lemma sumZ_app (vs ws : list Z) : sumZ (vs ++ ws) = sumZ vs + sumZ ws.
Proof.
  unfold sumZ. induction vs as [|v vs IH]; cbn [fold_right app]; [reflexivity|].
  rewrite IH. lia.
Qed.

Lemma values_total (value : ResolvedOutpoint -> Result bigint)
  (l : list ResolvedOutpoint) (vs : list Z) :
  Forall2 (fun cell v => value cell = Ok v) l vs ->
  forall a, foldResult (addValue value) a l = Ok (a + sumZ vs).
Proof.
  induction 1 as [|c v l vs V _ IH]; intros a; cbn [foldResult].
  - change (sumZ []) with 0. now rewrite Z.add_0_r.
  - unfold addValue at 1. rewrite V. cbn [bind]. rewrite IH. f_equal.
    change (sumZ (v :: vs)) with (v + sumZ vs). lia.
Qed.

Lemma total_values (value : ResolvedOutpoint -> Result bigint)
  (l : list ResolvedOutpoint) :
  forall a t,
    foldResult (addValue value) a l = Ok t ->
    exists vs, Forall2 (fun cell v => value cell = Ok v) l vs /\ t = a + sumZ vs.
Proof.
  induction l as [|c l IH]; intros a t H; cbn [foldResult] in H.
  - injection H as <-. exists []. split; [constructor|change (sumZ []) with 0; lia].
  - unfold addValue in H at 1. destruct (value c) as [x|] eqn:V; [|discriminate].
    cbn [bind] in H. apply IH in H as (vs & F & ->).
    exists (x :: vs). split; [now constructor|].
    change (sumZ (x :: vs)) with (x + sumZ vs). lia.
Qed.

Lemma values_nonneg (value : ResolvedOutpoint -> Result bigint)
  (l : list ResolvedOutpoint) (vs : list Z) :
  (forall c x, value c = Ok x -> 0 <= x) ->
  Forall2 (fun cell v => value cell = Ok v) l vs -> 0 <= sumZ vs.
Proof.
  intros N. induction 1 as [|c v l vs V _ IH]; [cbn; lia|].
  apply N in V. change (sumZ (v :: vs)) with (v + sumZ vs). lia.
Qed.

(** The crossing cell, with the contributions listed. *)
Lemma collectWith_crossing_values (value : ResolvedOutpoint -> Result bigint)
  (insufficient : NoEnoughPayload -> JsError) (lock : Script) (minimal : HexNumber)
  (m : Z) (source : Observable ResolvedOutpoint)
  (init : list ResolvedOutpoint) (c : ResolvedOutpoint) (rest : list ResolvedOutpoint)
  (vs : list Z) (v : Z) :
  (forall c x, value c = Ok x -> 0 <= x) ->
  BigInt minimal = Ok m ->
  prefixOf (init ++ c :: rest) (emitted source) ->
  Forall2 (fun cell v => value cell = Ok v) init vs ->
  value c = Ok v ->
  (init <> [] -> sumZ vs < m) ->
  m <= sumZ vs + v ->
  collectWith value insufficient lock minimal source = Returned (init ++ [c]).
Proof.
  intros N M [more E] F V Lt Le.
  apply (collectWith_crossing value insufficient lock minimal m M source
           init c (rest ++ more) (sumZ vs + v)).
  - rewrite E, <- app_assoc. reflexivity.
  - intros p q Epq Np. subst init.
    apply Forall2_app_inv_l in F as (vp & vq & Fp & Fq & ->).
    exists (sumZ vp). split; [apply (values_total _ _ _ Fp 0)|].
    pose proof (values_nonneg _ _ _ N Fq). rewrite sumZ_app in Lt.
    assert (p ++ q <> []) as Ne by (destruct p; [congruence|discriminate]).
    specialize (Lt Ne). lia.
  - unfold total. rewrite foldResult_app, (values_total _ _ _ F 0). cbn.
    unfold addValue. rewrite V. reflexivity.
  - exact Le.
Qed.

Lemma payloadAmount_decodes (cell : ResolvedOutpoint) (v : Z) :
  payloadAmount cell = Some v -> udtAmountOf cell = Ok v.
Proof.
  unfold payloadAmount, payload16, udtAmountOf, toBigUInt128LE.
  destruct (strip0x (slice0 34 (output_data cell))) as [body|]; [|discriminate].
  destruct (hexBytes body) as [bs|] eqn:E; [|discriminate].
  destruct (List.length bs =? 16)%nat eqn:L; [|discriminate].
  cbn [option_map bind]. intros [= <-].
  apply BigInt_reversed; [apply (hexBytes_isByte _ _ E)|].
  intros ->. discriminate L.
Qed.

Lemma payloadAmount_encode (cell : ResolvedOutpoint) (x : Z) (rest : string) :
  0 <= x < 2 ^ 128 ->
  output_data cell = (encodeUInt128LE x ++ rest)%string ->
  payloadAmount cell = Some x.
Proof.
  intros Hx E. unfold payloadAmount.
  rewrite (payload16_payload cell (bytesLE 16 x) rest E
             (length_bytesLE 16 x) (bytesLE_bytes 16 x)).
  cbn [option_map]. rewrite valueLE_bytesLE. f_equal. apply Z.mod_small.
  change (256 ^ Z.of_nat 16) with (2 ^ 128). exact Hx.
Qed.

(** ** The stages after [expand] *)

Lemma collectCkbLiveCells_stages (this : MercuryProvider) (fuel : nat)
  (address : Address) (minimalCapacity : HexNumber) :
  collectCkbLiveCells this fuel address minimalCapacity
  = lock <~ settle (parseToScript this address) ;;
    finishCollect NoEnoughCkbError lock minimalCapacity
      (lastValueFrom
         (collectCkbStages minimalCapacity (responses this (ckbSearchKey lock) fuel))
         emptyAccumulator).
Proof. reflexivity. Qed.

Lemma collectUdtCells_stages (this : MercuryProvider) (fuel : nat)
  (address : Address) (udt : CkbTypeScript) (minimalAmount : HexNumber) :
  collectUdtCells this fuel address udt minimalAmount
  = lock <~ settle (parseToScript this address) ;;
    finishCollect NoEnoughUdtError lock minimalAmount
      (lastValueFrom
         (collectUdtStages minimalAmount (responses this (udtSearchKey lock udt) fuel))
         emptyAccumulator).
Proof. reflexivity. Qed.

Lemma getCkbLiveCellsBalance_stages (this : MercuryProvider) (fuel : nat)
  (address : Address) :
  getCkbLiveCellsBalance this fuel address
  = lock <~ settle (parseToScript this address) ;;
    balance <~ lastValueFrom
                 (balanceCkbStages (responses this (ckbSearchKey lock) fuel)) "0x0" ;;
    Returned (bytes_toHex balance).
Proof. reflexivity. Qed.

Lemma getUdtBalance_stages (this : MercuryProvider) (fuel : nat)
  (address : Address) (udt : CkbTypeScript) :
  getUdtBalance this fuel address udt
  = lock <~ settle (parseToScript this address) ;;
    x <~ lastValueFrom
           (balanceUdtStages (responses this (udtSearchKey lock udt) fuel)) 0 ;;
    Returned (toHex (either x)).
Proof. reflexivity. Qed.

Lemma collectCkbStages_eq (this : MercuryProvider) (fuel : nat) (lock : Script)
  (minimal : HexNumber) :
  collectCkbStages minimal (responses this (ckbSearchKey lock) fuel)
  = takeWhile (below minimal) true (accumulators capacityOf (ckbCells this lock fuel)).
Proof. reflexivity. Qed.

Lemma collectUdtStages_eq (this : MercuryProvider) (fuel : nat) (lock : Script)
  (udt : CkbTypeScript) (minimal : HexNumber) :
  collectUdtStages minimal (responses this (udtSearchKey lock udt) fuel)
  = takeWhile (below minimal) true (accumulators udtAmountOf (udtCells this lock udt fuel)).
Proof.
  unfold collectUdtStages, accumulators.
  rewrite <- (scan_ext _ _ emptyAccumulator (udtCells this lock udt fuel) accumulate_udt).
  reflexivity.
Qed.

Lemma takeWhileList_In {A : Type} (p : A -> Result bool) (incl : bool) (l : list A)
  (e : Ending) (a : A) :
  In a (emitted (takeWhileList p incl l e)) -> In a l.
Proof.
  induction l as [|b l IH]; cbn; [tauto|].
  destruct (p b) as [[|]|err]; cbn.
  - intros [H|H]; [now left|right; now apply IH].
  - destruct incl; cbn; [intros [H|[]]; now left|tauto].
  - tauto.
Qed.

(** Every state a collection goes through, the seed included. *)
Lemma states_invariant (value : ResolvedOutpoint -> Result bigint) (minimal : HexNumber)
  (source : Observable ResolvedOutpoint) (acc : CellsAccumulator) :
  In acc (emptyAccumulator
            :: emitted (takeWhile (below minimal) true (accumulators value source))) ->
  exists vs,
    Forall2 (fun cell v => value cell = Ok v) (cells acc) vs /\
    amount acc = sumZ vs /\
    prefixOf (cells acc) (emitted source).
Proof.
  intros [<-|H].
  - exists []. split; [constructor|]. split; [reflexivity|now eexists].
  - apply takeWhileList_In, accumulators_invariant in H as [T P].
    apply total_values in T as (vs & F & E). exists vs. auto.
Qed.

(** ** The invariant of the accumulator, state by state *)

(** C7. In both collect operations the accumulator starts with amount 0
    and no cell, and every state the operation's stream of accumulators
    goes through, the one it takes its result from included, has for
    amount the sum of what its cells contribute (the capacity read as a
    number, respectively the token amount decoded from the payload),
    cell by cell; its cells are the first cells of pages the indexer
    serves under the operation's search key, in the order served (for
    the native collection: the cells among them that bear no type). *)
Theorem accumulator_invariant (this : MercuryProvider) (fuel : nat) (address : Address)
  (udt : CkbTypeScript) (minimal : HexNumber) (lock : Script) :
  parseToScript this address = Ok lock ->
  (collectCkbLiveCells this fuel address minimal
   = finishCollect NoEnoughCkbError lock minimal
       (lastValueFrom
          (collectCkbStages minimal (responses this (ckbSearchKey lock) fuel))
          {| amount := 0; cells := [] |}) /\
   forall acc,
     In acc ({| amount := 0; cells := [] |}
               :: emitted (collectCkbStages minimal
                             (responses this (ckbSearchKey lock) fuel))) ->
     exists vs ps,
       Forall2 (fun cell v => BigInt (capacity (output cell)) = Ok v) (cells acc) vs /\
       amount acc = sumZ vs /\
       serves (mercury this) (ckbSearchKey lock) None ps false /\
       prefixOf (cells acc)
         (List.filter (fun cell => isNull (type (output cell)))
            (List.concat (List.map objects ps)))) /\
  (collectUdtCells this fuel address udt minimal
   = finishCollect NoEnoughUdtError lock minimal
       (lastValueFrom
          (collectUdtStages minimal (responses this (udtSearchKey lock udt) fuel))
          {| amount := 0; cells := [] |}) /\
   forall acc,
     In acc ({| amount := 0; cells := [] |}
               :: emitted (collectUdtStages minimal
                             (responses this (udtSearchKey lock udt) fuel))) ->
     exists vs ps,
       Forall2 (fun cell v =>
                  (le <- toBigUInt128LE (slice0 34 (output_data cell)) ;; BigInt le) = Ok v)
         (cells acc) vs /\
       amount acc = sumZ vs /\
       serves (mercury this) (udtSearchKey lock udt) None ps false /\
       prefixOf (cells acc) (List.concat (List.map objects ps))).
Proof.
  intros P. split; split.
  - rewrite collectCkbLiveCells_stages, P. reflexivity.
  - intros acc H. rewrite collectCkbStages_eq in H.
    apply states_invariant in H as (vs & F & E & Pre).
    exists vs, (emitted (pages this (ckbSearchKey lock) fuel)).
    split; [exact F|]. split; [exact E|]. split; [apply pages_serves|exact Pre].
  - rewrite collectUdtCells_stages, P. reflexivity.
  - intros acc H. rewrite collectUdtStages_eq in H.
    apply states_invariant in H as (vs & F & E & Pre).
    exists vs, (emitted (pages this (udtSearchKey lock udt) fuel)).
    split; [exact F|]. split; [exact E|]. split; [apply pages_serves|exact Pre].
Qed.

(** Cells of capacity 100, 142 (typed) and 50, then 200, against the
    threshold 120: the state the result is taken from holds the two
    untyped cells and the amount 150; against 4095 the collection fails
    with the whole amount, 350. Token cells of capacity 142 that hold
    100, 50 and 200, against 120: the first two are taken. *)
Lemma accumulator_invariant_witness :
  parseToScript threeCkbCells "ckt1sender" = Ok script0 /\
  collectCkbLiveCells threeCkbCells 3 "ckt1sender" "0x78"
  = Returned [ckbCell 1 100; ckbCell 2 50] /\
  collectCkbLiveCells threeCkbCells 3 "ckt1sender" "0xfff"
  = Thrown (NoEnoughCkbError
              {| err_lock := script0; expected := "0xfff"; actual := "0x15e" |}) /\
  collectUdtCells threeUdtCells 3 "ckt1sender" sudt0 "0x78"
  = Returned [udtCell 1 142 100; udtCell 2 142 50] /\
  exists vs ps,
    Forall2 (fun cell v => BigInt (capacity (output cell)) = Ok v)
      [ckbCell 1 100; ckbCell 2 50] vs /\
    150 = sumZ vs /\
    serves (mercury threeCkbCells) (ckbSearchKey script0) None ps false /\
    prefixOf [ckbCell 1 100; ckbCell 2 50]
      (List.filter (fun cell => isNull (type (output cell)))
         (List.concat (List.map objects ps))).
Proof.
  split; [reflexivity|].
  split; [rewrite (proj1 (proj1 (accumulator_invariant threeCkbCells 3 "ckt1sender" sudt0
                                    "0x78" script0 eq_refl))); reflexivity|].
  split; [rewrite (proj1 (proj1 (accumulator_invariant threeCkbCells 3 "ckt1sender" sudt0
                                    "0xfff" script0 eq_refl))); reflexivity|].
  split; [rewrite (proj1 (proj2 (accumulator_invariant threeUdtCells 3 "ckt1sender" sudt0
                                    "0x78" script0 eq_refl))); reflexivity|].
  apply (proj2 (proj1 (accumulator_invariant threeCkbCells 3 "ckt1sender" sudt0
                         "0x78" script0 eq_refl))
           {| cells := [ckbCell 1 100; ckbCell 2 50]; amount := 150 |}).
  vm_compute. right. right. left. reflexivity.
Defined.

(** ** The balances, page by page *)

(** C6. The two balance operations scan the whole source, whatever a
    caller may need: when the indexer serves the pages [ps] under the
    operation's search key and then an empty page, the balance returned
    is the rendering of the sum of what every cell of every one of these
    pages contributes (for the native balance: every cell that bears no
    type, by its capacity; for the token balance: every cell, by the
    amount in its payload), and it reads back as that sum. Whatever the
    two operations throw is no insufficiency error. *)
Theorem balance_full_scan (this : MercuryProvider) (fuel : nat) (address : Address)
  (udt : CkbTypeScript) :
  (forall lock ps vs,
     parseToScript this address = Ok lock ->
     serves (mercury this) (ckbSearchKey lock) None ps true ->
     (List.length ps <= fuel)%nat ->
     Forall2 (fun cell v => BigInt (capacity (output cell)) = Ok v)
       (List.filter (fun cell => isNull (type (output cell)))
          (List.concat (List.map objects ps))) vs ->
     getCkbLiveCellsBalance this fuel address = Returned (toHex (sumZ vs)) /\
     BigInt (toHex (sumZ vs)) = Ok (sumZ vs)) /\
  (forall lock ps vs,
     parseToScript this address = Ok lock ->
     serves (mercury this) (udtSearchKey lock udt) None ps true ->
     (List.length ps <= fuel)%nat ->
     Forall2 (fun cell v => payloadAmount cell = Some v)
       (List.concat (List.map objects ps)) vs ->
     getUdtBalance this fuel address udt = Returned (toHex (sumZ vs)) /\
     BigInt (toHex (sumZ vs)) = Ok (sumZ vs)) /\
  (forall e, getCkbLiveCellsBalance this fuel address = Thrown e -> ~ isInsufficiency e) /\
  (forall e, getUdtBalance this fuel address udt = Thrown e -> ~ isInsufficiency e).
Proof.
  rewrite getCkbLiveCellsBalance_eq, getUdtBalance_eq. conjs.
  - intros lock ps vs P Sv L F. rewrite P. cbn [settle await].
    unfold ckbCells. rewrite (cellStream_served _ _ _ _ Sv L).
    pose proof (values_total capacityOf _ _ F 0) as T.
    split.
    + apply balanceOf_total; [reflexivity|exact T].
    + apply BigInt_toHex, (values_nonneg capacityOf _ _ capacityOf_nonneg F).
  - intros lock ps vs P Sv L F. rewrite P. cbn [settle await].
    unfold udtCells. rewrite (cellStream_served _ _ _ _ Sv L).
    apply (Forall2_impl (fun cell v => udtAmountOf cell = Ok v) payloadAmount_decodes) in F.
    pose proof (values_total udtAmountOf _ _ F 0) as T.
    split.
    + apply balanceOf_total; [reflexivity|exact T].
    + apply BigInt_toHex, (values_nonneg udtAmountOf _ _ udtAmountOf_nonneg F).
  - intros e. unfold parseToScript. destruct (scriptOf this address) as [lock|];
      cbn [settle await].
    + apply balanceOf_thrown; [exact capacityOf_throws|].
      exact (cellStream_ending this (ckbSearchKey lock) fuel).
    + intros [= <-]. exact (fun x => x).
  - intros e. unfold parseToScript. destruct (scriptOf this address) as [lock|];
      cbn [settle await].
    + apply balanceOf_thrown; [exact udtAmountOf_throws|].
      exact (cellStream_ending this (udtSearchKey lock udt) fuel).
    + intros [= <-]. exact (fun x => x).
Qed.

(** Pages [[10, a typed cell of capacity 99, 20], [30]] give the native
    balance 60; token cells of capacity 142 each that hold 10, 20 and 30
    give the token balance 60. *)
Lemma balance_full_scan_witness :
  (parseToScript mixedPages "ckt1sender" = Ok script0 /\
   serves (mercury mixedPages) (ckbSearchKey script0) None
     (servedPages [[ckbCell 1 10; udtCell 9 99 5; ckbCell 2 20]; [ckbCell 3 30]]) true /\
   (2 <= 3)%nat /\
   Forall2 (fun cell v => BigInt (capacity (output cell)) = Ok v)
     [ckbCell 1 10; ckbCell 2 20; ckbCell 3 30] [10; 20; 30]) /\
  (getCkbLiveCellsBalance mixedPages 3 "ckt1sender" = Returned "0x3c" /\
   BigInt "0x3c" = Ok 60) /\
  (getUdtBalance twoUdtPages 3 "ckt1sender" sudt0 = Returned "0x3c" /\
   BigInt "0x3c" = Ok 60).
Proof.
  split; [|split].
  - conjs; [reflexivity| |cbn; lia|repeat constructor].
    served.
  - apply (proj1 (balance_full_scan mixedPages 3 "ckt1sender" sudt0) script0
             (servedPages [[ckbCell 1 10; udtCell 9 99 5; ckbCell 2 20]; [ckbCell 3 30]])
             [10; 20; 30]);
      [reflexivity| |cbn; lia|repeat constructor].
    served.
  - apply (proj1 (proj2 (balance_full_scan twoUdtPages 3 "ckt1sender" sudt0)) script0
             (servedPages [[udtCell 1 142 10; udtCell 2 142 20]; [udtCell 3 142 30]])
             [10; 20; 30]);
      [reflexivity| |cbn; lia|repeat constructor].
    served.
Defined.

(** ** The token amount in the two token operations *)

(** C5. What a cell contributes in [getUdtBalance] and [collectUdtCells]
    is the amount in its payload, the value of its first 16 bytes read
    least significant byte first, and not its capacity:
    - the balance of an indexer that serves the pages [ps] and then an
      empty page is the rendering of the sum of these amounts over all
      the cells, a sum of unbounded integers that reads back as itself;
    - a collection ends with the first cell at which the amounts taken
      reach the threshold, and one that finds the amounts of all the
      cells below the threshold fails with their sum;
    - a payload that starts with the 16-byte little-endian encoding of
      an integer below 2^128 holds that integer. *)
Theorem udt_contribution (this : MercuryProvider) (fuel : nat) (address : Address)
  (udt : CkbTypeScript) (lock : Script) (ps : list GetCellsResponse) :
  parseToScript this address = Ok lock ->
  (forall vs,
     serves (mercury this) (udtSearchKey lock udt) None ps true ->
     (List.length ps <= fuel)%nat ->
     Forall2 (fun cell v => payloadAmount cell = Some v)
       (List.concat (List.map objects ps)) vs ->
     getUdtBalance this fuel address udt = Returned (toHex (sumZ vs)) /\
     BigInt (toHex (sumZ vs)) = Ok (sumZ vs)) /\
  (forall minimalAmount m init c rest vs v,
     BigInt minimalAmount = Ok m ->
     serves (mercury this) (udtSearchKey lock udt) None ps false ->
     (List.length ps <= S fuel)%nat ->
     List.concat (List.map objects ps) = init ++ c :: rest ->
     Forall2 (fun cell v => payloadAmount cell = Some v) init vs ->
     payloadAmount c = Some v ->
     (init <> [] -> sumZ vs < m) ->
     m <= sumZ vs + v ->
     collectUdtCells this fuel address udt minimalAmount = Returned (init ++ [c])) /\
  (forall minimalAmount m vs,
     BigInt minimalAmount = Ok m ->
     serves (mercury this) (udtSearchKey lock udt) None ps true ->
     (List.length ps <= fuel)%nat ->
     Forall2 (fun cell v => payloadAmount cell = Some v)
       (List.concat (List.map objects ps)) vs ->
     sumZ vs < m ->
     collectUdtCells this fuel address udt minimalAmount
     = Thrown (NoEnoughUdtError
                 {| err_lock := lock; expected := minimalAmount;
                    actual := toHex (sumZ vs) |})) /\
  (forall cell x rest,
     0 <= x < 2 ^ 128 ->
     output_data cell = (encodeUInt128LE x ++ rest)%string ->
     payloadAmount cell = Some x /\
     (le <- toBigUInt128LE (slice0 34 (output_data cell)) ;; BigInt le) = Ok x).
Proof.
  intros P. conjs.
  - intros vs Sv L F. rewrite getUdtBalance_eq, P. cbn [settle await].
    unfold udtCells. rewrite (cellStream_served _ _ _ _ Sv L).
    apply (Forall2_impl (fun cell v => udtAmountOf cell = Ok v) payloadAmount_decodes) in F.
    pose proof (values_total udtAmountOf _ _ F 0) as T.
    split.
    + apply balanceOf_total; [reflexivity|exact T].
    + apply BigInt_toHex, (values_nonneg udtAmountOf _ _ udtAmountOf_nonneg F).
  - intros minimalAmount m init c rest vs v M Sv L E F V Lt Le.
    rewrite collectUdtCells_eq, P. cbn [settle await].
    apply (collectWith_crossing_values udtAmountOf NoEnoughUdtError lock minimalAmount m
             (udtCells this lock udt fuel) init c rest vs v udtAmountOf_nonneg M).
    + rewrite <- E. apply (cellStream_serving _ _ _ _ Sv L).
    + apply (Forall2_impl _ payloadAmount_decodes F).
    + apply (payloadAmount_decodes _ _ V).
    + exact Lt.
    + exact Le.
  - intros minimalAmount m vs M Sv L F Lt.
    rewrite collectUdtCells_eq, P. cbn [settle await].
    apply (Forall2_impl (fun cell v => udtAmountOf cell = Ok v) payloadAmount_decodes) in F.
    apply (collectWith_exhausted udtAmountOf NoEnoughUdtError lock minimalAmount m
             (udtCells this lock udt fuel) (sumZ vs) udtAmountOf_nonneg M).
    + unfold udtCells. now rewrite (cellStream_served _ _ _ _ Sv L).
    + unfold udtCells. rewrite (cellStream_served _ _ _ _ Sv L).
      apply (values_total udtAmountOf _ _ F 0).
    + exact Lt.
  - intros cell x rest Hx E. split.
    + apply (payloadAmount_encode cell x rest Hx E).
    + apply (udtAmountOf_encode cell x rest E Hx).
Qed.

(** Token cells of capacity 142 each that hold 100, 50 and 200: the
    balance is 350, the threshold 120 takes the first two cells although
    the capacity of the first alone exceeds it, and the threshold 4095
    fails with the amount 350; two cells that hold 2^128 - 1 each have
    the balance 2^129 - 2. *)
Lemma udt_contribution_witness :
  (parseToScript threeUdtCells "ckt1sender" = Ok script0 /\
   serves (mercury threeUdtCells) (udtSearchKey script0 sudt0) None
     (servedPages [[udtCell 1 142 100; udtCell 2 142 50]; [udtCell 3 142 200]]) true /\
   Forall2 (fun cell v => payloadAmount cell = Some v)
     [udtCell 1 142 100; udtCell 2 142 50; udtCell 3 142 200] [100; 50; 200] /\
   BigInt "0x78" = Ok 120 /\ BigInt "0xfff" = Ok 4095) /\
  getUdtBalance threeUdtCells 3 "ckt1sender" sudt0 = Returned "0x15e" /\
  collectUdtCells threeUdtCells 3 "ckt1sender" sudt0 "0x78"
  = Returned [udtCell 1 142 100; udtCell 2 142 50] /\
  collectUdtCells threeUdtCells 3 "ckt1sender" sudt0 "0xfff"
  = Thrown (NoEnoughUdtError
              {| err_lock := script0; expected := "0xfff"; actual := "0x15e" |}) /\
  getUdtBalance twoFullCells 3 "ckt1sender" sudt0 = Returned (toHex (2 ^ 129 - 2)) /\
  payloadAmount (udtCell 1 142 12345) = Some 12345.
Proof.
  split; [conjs; [reflexivity|served|repeat constructor|reflexivity|reflexivity]|].
  conjs.
  - apply (proj1 (udt_contribution threeUdtCells 3 "ckt1sender" sudt0 script0
                    (servedPages [[udtCell 1 142 100; udtCell 2 142 50]; [udtCell 3 142 200]])
                    eq_refl) [100; 50; 200]);
      [served|cbn; lia|repeat constructor].
  - apply (proj1 (proj2 (udt_contribution threeUdtCells 3 "ckt1sender" sudt0 script0
                    (servedPages [[udtCell 1 142 100; udtCell 2 142 50]])
                    eq_refl))
             "0x78" 120 [udtCell 1 142 100] (udtCell 2 142 50) [] [100] 50);
      [reflexivity|served|cbn; lia|reflexivity|repeat constructor|reflexivity
      |intros _; cbn; lia|cbn; lia].
  - apply (proj1 (proj2 (proj2 (udt_contribution threeUdtCells 3 "ckt1sender" sudt0 script0
                    (servedPages [[udtCell 1 142 100; udtCell 2 142 50]; [udtCell 3 142 200]])
                    eq_refl)))
             "0xfff" 4095 [100; 50; 200]);
      [reflexivity|served|cbn; lia|repeat constructor|cbn; lia].
  - apply (proj1 (udt_contribution twoFullCells 3 "ckt1sender" sudt0 script0
                    (servedPages [[udtCell 1 142 maxUInt128; udtCell 2 142 maxUInt128]])
                    eq_refl) [maxUInt128; maxUInt128]);
      [served|cbn; lia|repeat constructor].
  - apply (proj2 (proj2 (proj2 (udt_contribution oneUdtCell 3 "ckt1sender" sudt0 script0 []
                    eq_refl)))
             (udtCell 1 142 12345) 12345 ""); [lia|reflexivity].
Defined.

(** ** The requests issued *)

Lemma projectedFrom_eq {A : Type} (project : A -> Promise A) (gone : list A -> bool)
  (fuel : nat) (seen : list A) (v : A) :
  projectedFrom project gone fuel seen v
  = v :: (if gone (seen ++ [v]) then []
          else match fuel with
               | O => []
               | S fuel' =>
                   match project v with
                   | Ok w => projectedFrom project gone fuel' (seen ++ [v]) w
                   | Throw _ => []
                   end
               end).
Proof. destruct fuel; reflexivity. Qed.

Section Projected.

Context {A : Type}.
Variable project : A -> Promise A.
Variable gone : list A -> bool.

(** Each value handed on after the first is what [project] gave for the
    one before. *)
Lemma projectedFrom_chain (fuel : nat) :
  forall seen v k r r',
    nth_error (projectedFrom project gone fuel seen v) k = Some r ->
    nth_error (projectedFrom project gone fuel seen v) (S k) = Some r' ->
    project r = Ok r'.
Proof.
  induction fuel as [|fuel IH]; intros seen v k r r' H H';
    rewrite projectedFrom_eq in H, H'; destruct (gone (seen ++ [v]));
    try (destruct k; discriminate).
  destruct (project v) as [w|e] eqn:P; [|destruct k; discriminate].
  destruct k as [|k].
  - injection H as <-. cbn [nth_error] in H'. rewrite projectedFrom_eq in H'.
    now injection H' as <-.
  - apply (IH _ _ _ _ _ H H').
Qed.

(** A value is handed on only to a subscriber that has not left. *)
Lemma projectedFrom_stays (fuel : nat) :
  forall seen v k,
    (S k < List.length (projectedFrom project gone fuel seen v))%nat ->
    gone (seen ++ firstn (S k) (projectedFrom project gone fuel seen v)) = false.
Proof.
  induction fuel as [|fuel IH]; intros seen v k H;
    rewrite projectedFrom_eq in H |- *; destruct (gone (seen ++ [v])) eqn:G;
    try (cbn in H; lia).
  destruct (project v) as [w|e]; [|cbn in H; lia].
  destruct k as [|k]; [exact G|].
  cbn [List.length] in H.
  change (firstn (S (S k)) (v :: projectedFrom project gone fuel (seen ++ [v]) w))
    with (v :: firstn (S k) (projectedFrom project gone fuel (seen ++ [v]) w)).
  replace (seen ++ v :: firstn (S k) (projectedFrom project gone fuel (seen ++ [v]) w))
    with ((seen ++ [v]) ++ firstn (S k) (projectedFrom project gone fuel (seen ++ [v]) w))
    by (now rewrite <- app_assoc).
  apply IH. lia.
Qed.

(** Once the subscriber has left, more steps hand nothing more on. *)
Lemma projectedFrom_gone_stable (fuel : nat) :
  forall seen v fuel',
    gone (seen ++ projectedFrom project gone fuel seen v) = true ->
    (fuel <= fuel')%nat ->
    projectedFrom project gone fuel' seen v = projectedFrom project gone fuel seen v.
Proof.
  induction fuel as [|fuel IH]; intros seen v fuel' H L;
    rewrite projectedFrom_eq in H; rewrite (projectedFrom_eq _ _ fuel'), (projectedFrom_eq _ _ _ seen);
    destruct (gone (seen ++ [v])) eqn:G; try reflexivity; try congruence.
  destruct fuel' as [|fuel']; [lia|].
  destruct (project v) as [w|e]; [|reflexivity].
  f_equal. apply IH; [|lia].
  now rewrite <- app_assoc.
Qed.

Lemma projectedFrom_error_stable (fuel : nat) :
  forall seen v fuel',
    ending (expandFrom project fuel v) <> Unfinished ->
    (fuel <= fuel')%nat ->
    projectedFrom project gone fuel' seen v = projectedFrom project gone fuel seen v.
Proof.
  induction fuel as [|fuel IH]; intros seen v fuel' H L; [now contradiction H|].
  rewrite (projectedFrom_eq _ _ fuel'), (projectedFrom_eq _ _ (S fuel)).
  destruct (gone (seen ++ [v])); [reflexivity|].
  destruct fuel' as [|fuel']; [lia|].
  cbn [expandFrom] in H.
  destruct (project v) as [w|e]; [|reflexivity].
  f_equal. apply IH; [exact H|lia].
Qed.

(** What is handed on are the first values [expand] has: all of them, or
    those up to the one at which the subscriber left. *)
Lemma projectedFrom_prefix (fuel : nat) :
  forall seen v,
    prefixOf (projectedFrom project gone fuel seen v) (emitted (expandFrom project fuel v)).
Proof.
  induction fuel as [|fuel IH]; intros seen v; rewrite projectedFrom_eq, expandFrom_push;
    cbn [push emitted]; destruct (gone (seen ++ [v])); try (now eexists).
  destruct (project v) as [w|e]; [|now eexists].
  destruct (IH (seen ++ [v]) w) as [rest E]. exists rest. cbn [app]. now rewrite E.
Qed.

Lemma projectedFrom_all_or_gone (fuel : nat) :
  forall seen v,
    gone (seen ++ projectedFrom project gone fuel seen v) = true \/
    projectedFrom project gone fuel seen v = emitted (expandFrom project fuel v).
Proof.
  induction fuel as [|fuel IH]; intros seen v; rewrite projectedFrom_eq, expandFrom_push;
    cbn [push emitted]; destruct (gone (seen ++ [v])) eqn:G; try (now left); try (now right).
  destruct (project v) as [w|e]; [|now right].
  destruct (IH (seen ++ [v]) w) as [H|H].
  - left. now rewrite <- app_assoc in H.
  - right. now rewrite H.
Qed.

End Projected.

Lemma inFlight_pairs (key : SearchKey) (handed : list GetCellsResponse) :
  forall n,
    -1 <= inFlight (firstn n (List.flat_map
                                (fun res => [Received res; Sent (nextPayload key res)])
                                handed)) <= 0.
Proof.
  induction handed as [|r handed IH]; intros n.
  - destruct n; cbn; lia.
  - destruct n as [|[|n]]; cbn [flat_map app firstn inFlight]; try lia.
    specialize (IH n). lia.
Qed.

Section Requests.

Context {B : Type}.
Variable this : MercuryProvider.
Variable key : SearchKey.
Variable stages : Observable GetCellsResponse -> Observable B.

Lemma handedOn_answers (fuel : nat) :
  forall k p r,
    nth_error (requests this key fuel stages) k = Some p ->
    nth_error (handedOn this key fuel stages) k = Some r ->
    get_cells (mercury this) p = Ok r.
Proof.
  intros k p r Hp Hr. unfold requests in Hp. unfold handedOn in *.
  destruct (get_cells (mercury this) (firstPayload key)) as [v|e] eqn:G;
    [|destruct k; discriminate].
  destruct k as [|k].
  - injection Hp as <-. rewrite projectedFrom_eq in Hr. now injection Hr as <-.
  - cbn [nth_error] in Hp. rewrite nth_error_map in Hp.
    destruct (nth_error _ k) as [r0|] eqn:H0; [|discriminate].
    injection Hp as <-.
    apply (projectedFrom_chain _ _ _ _ _ _ _ _ H0 Hr).
Qed.

Lemma handedOn_prefix (fuel : nat) :
  prefixOf (handedOn this key fuel stages) (emitted (responses this key fuel)).
Proof.
  unfold handedOn, responses.
  destruct (get_cells (mercury this) (firstPayload key)) as [v|e]; [|now exists []].
  apply projectedFrom_prefix.
Qed.

Lemma handedOn_stays (fuel : nat) (k : nat) :
  (S k < List.length (handedOn this key fuel stages))%nat ->
  hasLeft stages (firstn (S k) (handedOn this key fuel stages)) = false.
Proof.
  unfold handedOn.
  destruct (get_cells (mercury this) (firstPayload key)) as [v|e]; [|cbn; lia].
  apply (projectedFrom_stays _ (hasLeft stages) fuel [] v k).
Qed.

(** Once the stages have ended, no further request is issued. *)
Lemma requests_final (fuel fuel' : nat) :
  ending (stages (responses this key fuel)) <> Unfinished ->
  (fuel <= fuel')%nat ->
  requests this key fuel' stages = requests this key fuel stages.
Proof.
  intros H L. unfold requests, handedOn. unfold responses in H.
  destruct (get_cells (mercury this) (firstPayload key)) as [v|e]; [|reflexivity].
  do 2 f_equal. cbn [from expand push emitted] in H.
  destruct (ending (expandFrom (fun res => get_cells (mercury this) (nextPayload key res))
                      fuel v)) eqn:E.
  - apply projectedFrom_error_stable; [rewrite E; discriminate|exact L].
  - apply projectedFrom_error_stable; [rewrite E; discriminate|exact L].
  - apply projectedFrom_gone_stable; [|exact L].
    destruct (projectedFrom_all_or_gone
                (fun res => get_cells (mercury this) (nextPayload key res))
                (hasLeft stages) fuel [] v) as [G|G]; [exact G|].
    rewrite G. cbn [app]. unfold hasLeft.
    destruct (expandFrom (fun res => get_cells (mercury this) (nextPayload key res)) fuel v)
      as [rs e']. cbn [emitted ending] in *. subst e'.
    destruct (ending (stages {| emitted := rs; ending := Unfinished |}));
      [reflexivity|reflexivity|now contradiction H].
Qed.

Lemma timeline_inFlight (fuel : nat) (n : nat) :
  0 <= inFlight (firstn n (timeline this key fuel stages)) <= 1.
Proof.
  unfold timeline. destruct n as [|n]; [cbn; lia|].
  cbn [firstn inFlight].
  pose proof (inFlight_pairs key (handedOn this key fuel stages) n). lia.
Qed.

End Requests.

(** The stages of the four operations end at an empty page. *)
Lemma takeWhileList_ended {A : Type} (p : A -> Result bool) (incl : bool) (l : list A)
  (e : Ending) :
  e <> Unfinished -> ending (takeWhileList p incl l e) <> Unfinished.
Proof.
  intros H. induction l as [|a l IH]; cbn; [exact H|].
  destruct (p a) as [[|]|err]; cbn; [exact IH| |discriminate].
  destruct incl; discriminate.
Qed.

Lemma scanList_ended {A B : Type} (f : B -> A -> Result B) (l : list A) (e : Ending) :
  e <> Unfinished -> forall acc, ending (scanList f acc l e) <> Unfinished.
Proof.
  intros H. induction l as [|a l IH]; intros acc; cbn; [exact H|].
  destruct (f acc a); cbn; [apply IH|discriminate].
Qed.

Lemma reduce_ended {A B : Type} (f : B -> A -> Result B) (seed : B) (o : Observable A) :
  ending o <> Unfinished -> ending (reduce f seed o) <> Unfinished.
Proof.
  intros H. unfold reduce. destruct (foldResult f seed (emitted o)); [|discriminate].
  destruct (ending o); [discriminate|discriminate|now contradiction H].
Qed.

Lemma pages_emptied (seen : list GetCellsResponse) (r : GetCellsResponse) :
  In r seen -> objects r = [] ->
  ending (takeWhile (fun res => Ok (0 <? List.length (objects res))%nat) false
            {| emitted := seen; ending := Unfinished |}) = Complete.
Proof.
  intros Hin E. unfold takeWhile. cbn [emitted ending].
  induction seen as [|a seen IH]; [destruct Hin|].
  cbn [takeWhileList]. destruct (objects a) as [|c cs] eqn:Ea; [reflexivity|].
  cbn [List.length Nat.ltb Nat.leb push ending].
  apply IH. destruct Hin as [->|Hin]; [congruence|exact Hin].
Qed.

Lemma hasLeft_ended {A B : Type} (stages : Observable A -> Observable B) (seen : list A) :
  ending (stages {| emitted := seen; ending := Unfinished |}) <> Unfinished ->
  hasLeft stages seen = true.
Proof.
  unfold hasLeft. destruct (ending _); [reflexivity|reflexivity|intros H; now contradiction H].
Qed.

Lemma stages_leave_at_empty_page (minimal : HexNumber) (seen : list GetCellsResponse)
  (r : GetCellsResponse) :
  In r seen -> objects r = [] ->
  hasLeft (collectCkbStages minimal) seen = true /\
  hasLeft (collectUdtStages minimal) seen = true /\
  hasLeft balanceCkbStages seen = true /\
  hasLeft balanceUdtStages seen = true.
Proof.
  intros Hin E. pose proof (pages_emptied seen r Hin E) as C.
  conjs; apply hasLeft_ended.
  - unfold collectCkbStages. apply takeWhileList_ended, scanList_ended.
    cbn [rxFilter concatMap ending]. rewrite C. discriminate.
  - unfold collectUdtStages. apply takeWhileList_ended, scanList_ended.
    cbn [concatMap ending]. rewrite C. discriminate.
  - unfold balanceCkbStages. apply reduce_ended.
    cbn [rxFilter concatMap ending]. rewrite C. discriminate.
  - unfold balanceUdtStages. apply reduce_ended.
    cbn [concatMap ending]. rewrite C. discriminate.
Qed.

Lemma lastValueFrom_pending {A D : Type} (o : Observable A) (d : D) :
  lastValueFrom o d <> Pending -> ending o <> Unfinished.
Proof. unfold lastValueFrom. intros H E. rewrite E in H. now apply H. Qed.

Lemma await_pending {A B : Type} (o : Outcome A) (k : A -> Outcome B) :
  (x <~ o ;; k x) <> Pending -> o <> Pending.
Proof. intros H E. rewrite E in H. now apply H. Qed.

(** ** Paging *)




(** ** The transfer builder *)

(** C10. [build] throws [RecipientSameWithSenderError] with the sender's
    address, without calling the inner builder, whenever a recipient's
    address is the sender's; it calls the inner builder, once, exactly
    when no recipient's address is the sender's, and then settles as the
    inner builder does. *)
Theorem build_rejects_transfer_to_self (this : AcpTransferSudtBuilder.t) :
  ((exists option,
      In option (AcpTransferSudtBuilder.recipients (AcpTransferSudtBuilder.options this)) /\
      AcpTransferSudtBuilder.recipient option = AcpTransferSudtBuilder.sender this) ->
   AcpTransferSudtBuilder.build this
   = ([], Thrown (RecipientSameWithSenderError (AcpTransferSudtBuilder.sender this)))) /\
  (fst (AcpTransferSudtBuilder.build this) = [AcpTransferSudtBuilder.InnerBuild] <->
   forall option,
     In option (AcpTransferSudtBuilder.recipients (AcpTransferSudtBuilder.options this)) ->
     AcpTransferSudtBuilder.recipient option <> AcpTransferSudtBuilder.sender this) /\
  (fst (AcpTransferSudtBuilder.build this) = [AcpTransferSudtBuilder.InnerBuild] ->
   snd (AcpTransferSudtBuilder.build this)
   = AcpTransferSudtBuilder.pw_build (AcpTransferSudtBuilder.builder this)).
Proof.
  unfold AcpTransferSudtBuilder.build.
  destruct (find _ _) as [found|] eqn:F.
  - apply find_some in F as [Hin Heq]. apply String.eqb_eq in Heq. conjs.
    + reflexivity.
    + split; [discriminate|]. intros H. destruct (H found Hin Heq).
    + discriminate.
  - conjs.
    + intros (option & Hin & Heq). apply (find_none _ _ F) in Hin.
      apply String.eqb_neq in Hin. contradiction.
    + split; [|reflexivity]. intros _ option Hin.
      apply (find_none _ _ F) in Hin. now apply String.eqb_neq in Hin.
    + reflexivity.
Qed.

Lemma build_rejects_transfer_to_self_witness :
  (exists option,
     In option (AcpTransferSudtBuilder.recipients
                  (AcpTransferSudtBuilder.options
                     (transferBuilder "ckt1alice" ["ckt1bob"; "ckt1alice"] Pending))) /\
     AcpTransferSudtBuilder.recipient option = "ckt1alice") /\
  AcpTransferSudtBuilder.build (transferBuilder "ckt1alice" ["ckt1bob"; "ckt1alice"] Pending)
  = ([], Thrown (RecipientSameWithSenderError "ckt1alice")).
Proof.
  assert (W : exists option,
             In option (AcpTransferSudtBuilder.recipients
                          (AcpTransferSudtBuilder.options
                             (transferBuilder "ckt1alice" ["ckt1bob"; "ckt1alice"] Pending))) /\
             AcpTransferSudtBuilder.recipient option = "ckt1alice").
  { eexists. split; [right; left; reflexivity|reflexivity]. }
  split; [exact W|].
  apply (proj1 (build_rejects_transfer_to_self
                  (transferBuilder "ckt1alice" ["ckt1bob"; "ckt1alice"] Pending)) W).
Defined.

(** ** The poller *)

Section PollerFacts.

Context {World : Type}.
Variable chain : Chain World.
Variable txHash : Hash.
Variables pollInterval timeout start : Z.

Lemma isCommitted_some (tx : option TransactionWithStatus) :
  isCommitted tx = true -> exists t, tx = Some t.
Proof. destruct tx; [eauto|discriminate]. Qed.

(** What the first loop has done when it ends. *)
Lemma awaitCommitted_returned (fuel : nat) :
  forall w result w1,
    awaitCommitted chain txHash pollInterval timeout start fuel w = (Returned result, w1) ->
    (result = None /\
     polls chain txHash pollInterval timeout start w w1 /\
     timeout < Date_now chain w1 - start) \/
    (exists wp t,
       polls chain txHash pollInterval timeout start w wp /\
       Date_now chain wp - start <= timeout /\
       rpc_get_transaction chain txHash wp = (Ok (Some t), w1) /\
       isCommitted (Some t) = true /\
       result = Some (transaction t)).
Proof.
  induction fuel as [|fuel IH]; intros w result w1 H; cbn [awaitCommitted] in H;
    [discriminate|].
  destruct (Date_now chain w - start <=? timeout) eqn:G.
  - apply Z.leb_le in G.
    destruct (rpc_get_transaction chain txHash w) as [[tx|e] w2] eqn:R; [|discriminate].
    destruct (isCommitted tx) eqn:C.
    + injection H as <- <-. right.
      destruct (isCommitted_some tx C) as [t ->].
      exists w, t. conjs; auto. constructor.
    + apply IH in H as [(-> & P & L)|(wp & t & P & L & R' & C' & ->)].
      * left. conjs; auto. apply (polls_next _ _ _ _ _ w w2 w1 tx G R C P).
      * right. exists wp, t. conjs; auto.
        apply (polls_next _ _ _ _ _ w w2 wp tx G R C P).
  - injection H as <- <-. left. apply Z.leb_gt in G.
    conjs; [reflexivity|constructor|lia].
Qed.

Lemma awaitCommitted_thrown (fuel : nat) :
  forall w e w1,
    awaitCommitted chain txHash pollInterval timeout start fuel w = (Thrown e, w1) ->
    exists wq, rpc_get_transaction chain txHash wq = (Throw e, w1).
Proof.
  induction fuel as [|fuel IH]; intros w e w1 H; cbn [awaitCommitted] in H;
    [discriminate|].
  destruct (Date_now chain w - start <=? timeout); [|discriminate].
  destruct (rpc_get_transaction chain txHash w) as [[tx|e'] w2] eqn:R.
  - destruct (isCommitted tx); [discriminate|]. apply (IH _ _ _ H).
  - injection H as <- <-. eauto.
Qed.

Lemma awaitIndexer_thrown (rpcTip : JsNumber) (fuel : nat) :
  forall w e w1,
    awaitIndexer chain pollInterval timeout start rpcTip fuel w = (Thrown e, w1) ->
    exists wq, mercury_get_tip chain wq = (Throw e, w1).
Proof.
  induction fuel as [|fuel IH]; intros w e w1 H; cbn [awaitIndexer] in H;
    [discriminate|].
  destruct (Date_now chain w - start <=? timeout); [|discriminate].
  destruct (mercury_get_tip chain w) as [[tip|e'] w2] eqn:R.
  - destruct (geNumber _ _); [discriminate|]. apply (IH _ _ _ H).
  - injection H as <- <-. eauto.
Qed.

(** Past the budget the second loop does not poll. *)
Lemma awaitIndexer_late (rpcTip : JsNumber) (fuel : nat) (w : World) :
  timeout < Date_now chain w - start ->
  awaitIndexer chain pollInterval timeout start rpcTip (S fuel) w = (Returned tt, w).
Proof.
  intros L. cbn [awaitIndexer].
  destruct (Date_now chain w - start <=? timeout) eqn:G; [|reflexivity].
  apply Z.leb_le in G. lia.
Qed.

Hypothesis clock : clockAdvances chain.
Hypothesis interval_positive : 0 < pollInterval.

Lemma awaitCommitted_clock (fuel : nat) :
  forall w o w1,
    awaitCommitted chain txHash pollInterval timeout start fuel w = (o, w1) ->
    Date_now chain w <= Date_now chain w1.
Proof.
  induction fuel as [|fuel IH]; intros w o w1 H; cbn [awaitCommitted] in H.
  - injection H as _ <-. lia.
  - destruct (Date_now chain w - start <=? timeout); [|injection H as _ <-; lia].
    pose proof (transaction_takes_time chain clock txHash w) as T.
    destruct (rpc_get_transaction chain txHash w) as [[tx|e] w2]; cbn [snd] in T.
    + destruct (isCommitted tx); [injection H as _ <-; exact T|].
      apply IH in H. pose proof (sleep_takes_time chain clock pollInterval w2). lia.
    + injection H as _ <-. exact T.
Qed.

(** With the clock advancing, each loop ends within the budget's worth of
    iterations. *)
Lemma awaitCommitted_settles (fuel : nat) :
  forall w,
    timeout - (Date_now chain w - start) < Z.of_nat fuel * pollInterval ->
    fst (awaitCommitted chain txHash pollInterval timeout start (S fuel) w) <> Pending.
Proof.
  induction fuel as [|fuel IH]; intros w H; cbn [awaitCommitted].
  - destruct (Date_now chain w - start <=? timeout) eqn:G; [|discriminate].
    apply Z.leb_le in G. lia.
  - destruct (Date_now chain w - start <=? timeout) eqn:G; [|discriminate].
    pose proof (transaction_takes_time chain clock txHash w) as T.
    destruct (rpc_get_transaction chain txHash w) as [[tx|e] w2]; cbn [snd] in T;
      [|discriminate].
    destruct (isCommitted tx); [discriminate|].
    apply IH. pose proof (sleep_takes_time chain clock pollInterval w2). lia.
Qed.

Lemma awaitIndexer_settles (rpcTip : JsNumber) (fuel : nat) :
  forall w,
    timeout - (Date_now chain w - start) < Z.of_nat fuel * pollInterval ->
    fst (awaitIndexer chain pollInterval timeout start rpcTip (S fuel) w) <> Pending.
Proof.
  induction fuel as [|fuel IH]; intros w H; cbn [awaitIndexer].
  - destruct (Date_now chain w - start <=? timeout) eqn:G; [|discriminate].
    apply Z.leb_le in G. lia.
  - destruct (Date_now chain w - start <=? timeout) eqn:G; [|discriminate].
    pose proof (indexer_takes_time chain clock w) as T.
    destruct (mercury_get_tip chain w) as [[tip|e] w2]; cbn [snd] in T; [|discriminate].
    destruct (geNumber _ _); [discriminate|].
    apply IH. pose proof (sleep_takes_time chain clock pollInterval w2). lia.
Qed.

End PollerFacts.

Lemma awaitCommitted_first_commit {World : Type} (chain : Chain World) (txHash : Hash)
  (pollInterval timeout start : Z) (w wp : World) :
  polls chain txHash pollInterval timeout start w wp ->
  forall fuel t w1 result w',
    Date_now chain wp - start <= timeout ->
    rpc_get_transaction chain txHash wp = (Ok (Some t), w1) ->
    isCommitted (Some t) = true ->
    awaitCommitted chain txHash pollInterval timeout start fuel w = (Returned result, w') ->
    result = Some (transaction t) /\ w' = w1.
Proof.
  induction 1 as [w|w w2 wp tx G R C P IH]; intros fuel t w1 result w' G' R' C' H;
    (destruct fuel as [|fuel]; [discriminate|]); cbn [awaitCommitted] in H.
  - apply Z.leb_le in G'. rewrite G', R', C' in H. now injection H as <- <-.
  - apply Z.leb_le in G. rewrite G, R, C in H. apply (IH fuel t w1 result w' G' R' C' H).
Qed.


Lemma clockChain_advances (committedAt : Z) : clockAdvances (clockChain committedAt).
Proof. constructor; intros; cbn; lia. Defined.


(* ================================================================== *)
(** * Part V: further properties of the code *)
(* ================================================================== *)

(** ** typeid.ts: copying and the 64-bit index *)

Lemma writeAt_middle (done : list Z) (x : Z) (rest : list Z) (v : Z) :
  writeAt (done ++ x :: rest) (List.length done) v = done ++ v mod 256 :: rest.
Proof. induction done as [|b done IH]; cbn; [reflexivity|]. now rewrite IH. Qed.

Lemma readAt_middle (done : list Z) (x : Z) (rest : list Z) :
  readAt (done ++ x :: rest) (List.length done) = x.
Proof. unfold readAt. induction done as [|b done IH]; cbn; [reflexivity|exact IH]. Qed.

Lemma copyFrom_rest (todo : list Z) :
  forall done,
    copyFrom (done ++ todo)
      (List.map (fun b => b mod 256) done ++ repeat 0 (List.length todo))
      (List.length done) (List.length todo)
    = List.map (fun b => b mod 256) (done ++ todo).
Proof.
  induction todo as [|x todo IH]; intros done.
  - cbn. now rewrite !app_nil_r.
  - cbn [List.length copyFrom repeat].
    replace (List.length done <? List.length (done ++ x :: todo))%nat with true
      by (symmetry; apply Nat.ltb_lt; rewrite length_app; cbn; lia).
    rewrite readAt_middle.
    rewrite <- (length_map (fun b => b mod 256) done),
      (writeAt_middle (List.map (fun b => b mod 256) done) 0), length_map.
    replace (S (List.length done)) with (List.length (done ++ [x]))
      by (rewrite length_app; cbn; lia).
    replace (done ++ x :: todo) with ((done ++ [x]) ++ todo)
      by (now rewrite <- app_assoc).
    replace (List.map (fun b => b mod 256) done ++ x mod 256 :: repeat 0 (List.length todo))
      with (List.map (fun b => b mod 256) (done ++ [x]) ++ repeat 0 (List.length todo))
      by (now rewrite map_app, <- app_assoc).
    apply IH.
Qed.

Lemma map_mod_bytes (bs : list Z) :
  Forall isByte bs -> List.map (fun b => b mod 256) bs = bs.
Proof.
  induction 1 as [|b bs Hb _ IH]; cbn; [reflexivity|].
  rewrite IH, Z.mod_small; [reflexivity|exact Hb].
Qed.

Lemma toArrayBuffer_bytes (buf : Uint8Array) :
  Forall isByte buf -> toArrayBuffer buf = buf.
Proof.
  intros H. transitivity (List.map (fun b => b mod 256) buf).
  - exact (copyFrom_rest buf []).
  - now apply map_mod_bytes.
Qed.

(** X1. [toArrayBuffer] returns a buffer of the length of its argument
    holding, index by index, what the argument holds reduced modulo 256:
    the bytes themselves, as a [Uint8Array] holds bytes. *)
Theorem toArrayBuffer_copies (buf : Uint8Array) :
  toArrayBuffer buf = List.map (fun b => b mod 256) buf /\
  List.length (toArrayBuffer buf) = List.length buf /\
  (Forall isByte buf -> toArrayBuffer buf = buf).
Proof.
  assert (E : toArrayBuffer buf = List.map (fun b => b mod 256) buf)
    by exact (copyFrom_rest buf []).
  conjs.
  - exact E.
  - now rewrite E, length_map.
  - intros H. now rewrite E, map_mod_bytes.
Qed.

Lemma toArrayBuffer_copies_witness :
  Forall isByte [1; 2; 255] /\ toArrayBuffer [1; 2; 255] = [1; 2; 255].
Proof.
  assert (H : Forall isByte [1; 2; 255])
    by (repeat constructor; unfold isByte; lia).
  split; [exact H|].
  apply (proj2 (proj2 (toArrayBuffer_copies [1; 2; 255])) H).
Defined.

Lemma writeBigUInt64LE_fits (buf : Uint8Array) (n : Z) :
  List.length buf = 8%nat -> 0 <= n < 2 ^ 64 ->
  writeBigUInt64LE buf n = Ok (bytesLE 8 n).
Proof.
  intros L H. unfold writeBigUInt64LE.
  replace (0 <=? n) with true by (symmetry; apply Z.leb_le; lia).
  replace (n <? 2 ^ 64) with true by (symmetry; apply Z.ltb_lt; lia).
  rewrite L. cbn [andb Nat.leb].
  rewrite skipn_all2 by lia. now rewrite app_nil_r.
Qed.

Lemma writeBigUInt64LE_out_of_range (buf : Uint8Array) (n : Z) :
  ~ 0 <= n < 2 ^ 64 -> writeBigUInt64LE buf n = Throw (RangeError "value").
Proof.
  intros H. unfold writeBigUInt64LE.
  destruct (0 <=? n) eqn:A; [|reflexivity].
  destruct (n <? 2 ^ 64) eqn:B; [|reflexivity].
  apply Z.leb_le in A. apply Z.ltb_lt in B. lia.
Qed.

Lemma writeBigUInt64LE_ok (buf out : Uint8Array) (n : Z) :
  writeBigUInt64LE buf n = Ok out ->
  0 <= n < 2 ^ 64 /\ (8 <= List.length buf)%nat /\ out = bytesLE 8 n ++ skipn 8 buf.
Proof.
  unfold writeBigUInt64LE.
  destruct (0 <=? n) eqn:A; [|discriminate].
  destruct (n <? 2 ^ 64) eqn:B; [|discriminate]. cbn [andb].
  destruct (8 <=? List.length buf)%nat eqn:C; [|discriminate].
  intros [= <-]. apply Z.leb_le in A. apply Z.ltb_lt in B. apply Nat.leb_le in C.
  conjs; auto; lia.
Qed.

Lemma toBigUInt64LE_value (imports : TypeIdImports) (num : NumLike) (n : Z) :
  List.length (toBuffer imports "" 8) = 8%nat ->
  BigIntOf num = Ok n -> 0 <= n < 2 ^ 64 ->
  toBigUInt64LE imports num = Ok (bytesLE 8 n).
Proof.
  intros L P H. unfold toBigUInt64LE. rewrite P. cbn [bind].
  rewrite (writeBigUInt64LE_fits _ n L H). cbn [bind].
  f_equal. apply toArrayBuffer_bytes, bytesLE_bytes.
Qed.

Lemma toBigUInt64LE_fits_only (imports : TypeIdImports) (num : NumLike) (bs : ArrayBuffer) :
  toBigUInt64LE imports num = Ok bs ->
  exists n, BigIntOf num = Ok n /\ 0 <= n < 2 ^ 64.
Proof.
  unfold toBigUInt64LE. intros H.
  destruct (BigIntOf num) as [n|e]; [|discriminate]. cbn [bind] in H.
  destruct (writeBigUInt64LE (toBuffer imports "" 8) n) as [out|e] eqn:W;
    [|discriminate].
  apply writeBigUInt64LE_ok in W as (R & _). eauto.
Qed.

(** X2. With an 8-byte buffer from [toBuffer], [toBigUInt64LE] of a number
    below 2^64 returns 8 bytes, whatever that buffer held, and their
    little-endian value is the number. *)
Theorem toBigUInt64LE_round_trip (imports : TypeIdImports) (num : NumLike) (n : Z) :
  List.length (toBuffer imports "" 8) = 8%nat ->
  BigIntOf num = Ok n ->
  0 <= n < 2 ^ 64 ->
  exists bs,
    toBigUInt64LE imports num = Ok bs /\
    List.length bs = 8%nat /\ Forall isByte bs /\ valueLE bs = n.
Proof.
  intros L P H. exists (bytesLE 8 n). conjs.
  - apply (toBigUInt64LE_value imports num n L P H).
  - apply length_bytesLE.
  - apply bytesLE_bytes.
  - rewrite valueLE_bytesLE. apply Z.mod_small.
    change (256 ^ Z.of_nat 8) with (2 ^ 64). exact H.
Qed.

Lemma toBigUInt64LE_round_trip_witness :
  (List.length (toBuffer plainImports "" 8) = 8%nat /\
   BigIntOf (hexNum "0x1f4") = Ok 500 /\
   0 <= 500 < 2 ^ 64) /\
  exists bs,
    toBigUInt64LE plainImports (hexNum "0x1f4") = Ok bs /\
    List.length bs = 8%nat /\ Forall isByte bs /\ valueLE bs = 500.
Proof.
  split; [conjs; [reflexivity|reflexivity|lia|reflexivity]|].
  apply (toBigUInt64LE_round_trip plainImports (hexNum "0x1f4") 500);
    [reflexivity|reflexivity|split; [lia|reflexivity]].
Defined.

(** X3. [toBigUInt64LE] throws what [BigInt] throws on its argument, throws
    a [RangeError] on a negative number and on one of 2^64 or more,
    whatever [toBuffer] provides, and returns only for a number that fits
    64 bits. *)
Theorem toBigUInt64LE_rejects (imports : TypeIdImports) (num : NumLike) :
  (forall e, BigIntOf num = Throw e -> toBigUInt64LE imports num = Throw e) /\
  (forall n,
     BigIntOf num = Ok n -> ~ 0 <= n < 2 ^ 64 ->
     toBigUInt64LE imports num = Throw (RangeError "value")) /\
  (forall bs,
     toBigUInt64LE imports num = Ok bs ->
     exists n, BigIntOf num = Ok n /\ 0 <= n < 2 ^ 64).
Proof.
  unfold toBigUInt64LE. conjs.
  - intros e P. now rewrite P.
  - intros n P H. rewrite P. cbn [bind]. now rewrite writeBigUInt64LE_out_of_range.
  - intros bs H. apply (toBigUInt64LE_fits_only imports num bs H).
Qed.

Lemma toBigUInt64LE_rejects_witness :
  (BigIntOf (jsBigint (2 ^ 64)) = Ok (2 ^ 64) /\ ~ 0 <= 2 ^ 64 < 2 ^ 64) /\
  toBigUInt64LE plainImports (jsBigint (2 ^ 64)) = Throw (RangeError "value").
Proof.
  assert (H : ~ 0 <= 2 ^ 64 < 2 ^ 64) by lia.
  split; [split; [reflexivity|exact H]|].
  apply (proj1 (proj2 (toBigUInt64LE_rejects plainImports (jsBigint (2 ^ 64))))
           (2 ^ 64) eq_refl H).
Defined.

(** ** typeid.ts: the type id *)

Lemma app_same_length {A : Type} (a a' b b' : list A) :
  List.length b = List.length b' -> a ++ b = a' ++ b' -> a = a' /\ b = b'.
Proof.
  intros L E.
  assert (La : List.length a = List.length a').
  { apply (f_equal (@List.length A)) in E. rewrite !length_app in E. lia. }
  revert a' La E. induction a as [|x a IH]; intros [|x' a'] La E; try discriminate.
  - auto.
  - cbn in E. injection E as <- E. injection La as La.
    destruct (IH a' La E) as [-> ->]. auto.
Qed.

Lemma bytesLE_injective (n n' : Z) :
  0 <= n < 2 ^ 64 -> 0 <= n' < 2 ^ 64 -> bytesLE 8 n = bytesLE 8 n' -> n = n'.
Proof.
  intros H H' E. apply (f_equal valueLE) in E. rewrite !valueLE_bytesLE in E.
  change (256 ^ Z.of_nat 8) with (2 ^ 64) in E.
  now rewrite !Z.mod_small in E.
Qed.

Lemma generateTypeID_ok (imports : TypeIdImports) (input : Input)
  (outputIndex : HexNumber) (d : HexString) :
  List.length (toBuffer imports "" 8) = 8%nat ->
  generateTypeID imports input outputIndex = Ok d ->
  exists ser n,
    SerializeCellInput imports input = Ok ser /\
    BigInt outputIndex = Ok n /\ 0 <= n < 2 ^ 64 /\
    d = blake2b imports (ser ++ bytesLE 8 n).
Proof.
  intros L H. unfold generateTypeID in H.
  destruct (SerializeCellInput imports input) as [ser|e]; [|discriminate].
  cbn [bind] in H.
  destruct (toBigUInt64LE imports (hexNum outputIndex)) as [bs|e] eqn:T; [|discriminate].
  cbn [bind] in H. injection H as <-.
  destruct (toBigUInt64LE_fits_only imports (hexNum outputIndex) bs T) as (n & P & R).
  rewrite (toBigUInt64LE_value imports (hexNum outputIndex) n L P R) in T.
  injection T as <-.
  exists ser, n. split; [reflexivity|]. split; [exact P|]. split; [exact R|reflexivity].
Qed.

(** X4. With an 8-byte buffer from [toBuffer], a type id is the hash of
    the serialized cell input followed by the 8 little-endian bytes of the
    output index; and two type ids hash the same message only when the
    serialized inputs are equal and the output indices are the same
    number. *)
Theorem generateTypeID_message (imports : TypeIdImports)
  (input input' : Input) (outputIndex outputIndex' : HexNumber) (d d' : HexString) :
  List.length (toBuffer imports "" 8) = 8%nat ->
  generateTypeID imports input outputIndex = Ok d ->
  generateTypeID imports input' outputIndex' = Ok d' ->
  exists ser n ser' n',
    (SerializeCellInput imports input = Ok ser /\ BigInt outputIndex = Ok n) /\
    (SerializeCellInput imports input' = Ok ser' /\ BigInt outputIndex' = Ok n') /\
    d = blake2b imports (ser ++ bytesLE 8 n) /\
    d' = blake2b imports (ser' ++ bytesLE 8 n') /\
    (ser ++ bytesLE 8 n = ser' ++ bytesLE 8 n' <-> ser = ser' /\ n = n').
Proof.
  intros L H H'.
  apply (generateTypeID_ok imports input outputIndex d L) in H
    as (ser & n & S1 & P & R & ->).
  apply (generateTypeID_ok imports input' outputIndex' d' L) in H'
    as (ser' & n' & S1' & P' & R' & ->).
  exists ser, n, ser', n'.
  split; [split; assumption|]. split; [split; assumption|].
  split; [reflexivity|]. split; [reflexivity|]. split.
  - intros E. apply app_same_length in E as [-> E]; [|now rewrite !length_bytesLE].
    split; [reflexivity|]. apply (bytesLE_injective n n' R R' E).
  - intros [-> ->]. reflexivity.
Qed.

Lemma generateTypeID_message_witness :
  (List.length (toBuffer plainImports "" 8) = 8%nat /\
   generateTypeID plainImports input0 "0x0" = Ok "0xa1b20000000000000000" /\
   generateTypeID plainImports input0 "0x1" = Ok "0xa1b20100000000000000") /\
  exists ser n ser' n',
    (SerializeCellInput plainImports input0 = Ok ser /\ BigInt "0x0" = Ok n) /\
    (SerializeCellInput plainImports input0 = Ok ser' /\ BigInt "0x1" = Ok n') /\
    "0xa1b20000000000000000" = blake2b plainImports (ser ++ bytesLE 8 n) /\
    "0xa1b20100000000000000" = blake2b plainImports (ser' ++ bytesLE 8 n') /\
    (ser ++ bytesLE 8 n = ser' ++ bytesLE 8 n' <-> ser = ser' /\ n = n').
Proof.
  split; [conjs; reflexivity|].
  apply (generateTypeID_message plainImports input0 input0 "0x0" "0x1"); reflexivity.
Defined.

(** X5. [generateTypeIdScript] fails exactly as [generateTypeID] does, in
    particular with a [RangeError] for an output index of 2^64 or more
    once the input is serialized; the script it returns has the type id
    for [args], ['type'] for [hash_type], and for [code_hash] 32 bytes:
    25 zero bytes and the ASCII bytes of [TYPE_ID]. *)
Theorem generateTypeIdScript_shape (imports : TypeIdImports) (input : Input)
  (outputIndex : HexNumber) :
  (forall e,
     generateTypeIdScript imports input outputIndex = Throw e <->
     generateTypeID imports input outputIndex = Throw e) /\
  (forall ser n,
     SerializeCellInput imports input = Ok ser ->
     BigInt outputIndex = Ok n -> 2 ^ 64 <= n ->
     generateTypeIdScript imports input outputIndex = Throw (RangeError "value")) /\
  (forall s,
     generateTypeIdScript imports input outputIndex = Ok s ->
     generateTypeID imports input outputIndex = Ok (args s) /\
     hash_type s = "type" /\
     exists body,
       strip0x (code_hash s) = Some body /\
       hexBytes body = Some (repeat 0 25 ++ asciiBytes "TYPE_ID")).
Proof.
  unfold generateTypeIdScript. split; [|split].
  - intros e. destruct (generateTypeID imports input outputIndex); cbn [bind];
      split; congruence.
  - intros ser n S1 P H. unfold generateTypeID, toBigUInt64LE. rewrite S1. cbn [bind BigIntOf].
    rewrite P. cbn [bind]. rewrite writeBigUInt64LE_out_of_range by lia. reflexivity.
  - intros s H. destruct (generateTypeID imports input outputIndex) as [d|e];
      [|discriminate].
    cbn [bind] in H. injection H as <-. cbn [args hash_type code_hash].
    split; [reflexivity|]. split; [reflexivity|].
    eexists. split; reflexivity.
Qed.

Lemma generateTypeIdScript_shape_witness :
  (SerializeCellInput plainImports input0 = Ok [161; 178] /\
   BigInt "0x10000000000000000" = Ok (2 ^ 64) /\ 2 ^ 64 <= 2 ^ 64) /\
  generateTypeIdScript plainImports input0 "0x10000000000000000"
  = Throw (RangeError "value").
Proof.
  split; [conjs; [reflexivity|reflexivity|lia]|].
  apply (proj1 (proj2 (generateTypeIdScript_shape plainImports input0 "0x10000000000000000"))
           [161; 178] (2 ^ 64)); [reflexivity|reflexivity|lia].
Defined.

(** ** MercuryProvider: balance, threshold and failures *)

Section LoopMore.

Variable value : ResolvedOutpoint -> Result bigint.
Variable m : Z.

(** On a source that completes and whose cells all have a value, the
    loop returns: at or above the threshold, or with all the cells. *)
Lemma loop_settles (l : list ResolvedOutpoint) :
  forall acc t,
    foldResult (addValue value) (amount acc) l = Ok t ->
    exists acc',
      collectLoop value m acc l Complete = Returned acc' /\
      (m <= amount acc' \/ amount acc' = t).
Proof.
  induction l as [|c l IH]; intros acc t Hs.
  - cbn in Hs. injection Hs as <-. exists acc. split; [reflexivity|now right].
  - cbn in Hs. unfold addValue in Hs at 1.
    destruct (value c) as [x|] eqn:V; [|discriminate]. cbn in Hs.
    cbn [collectLoop]. unfold accumulate. rewrite V. cbn [bind amount].
    destruct (amount acc + x <? m) eqn:B.
    + apply (IH {| cells := cells acc ++ [c]; amount := amount acc + x |} t Hs).
    + eexists. split; [reflexivity|]. left. cbn. apply Z.ltb_ge in B. lia.
Qed.

(** A higher threshold only takes more. *)
Lemma loop_threshold_mono (m' : Z) (l : list ResolvedOutpoint) (e : Ending) :
  m <= m' ->
  forall acc acc',
    collectLoop value m' acc l e = Returned acc' -> m' <= amount acc' ->
    exists acc'',
      collectLoop value m acc l e = Returned acc'' /\
      m <= amount acc'' /\ prefixOf (cells acc'') (cells acc').
Proof.
  intros Hm. induction l as [|c l IH]; intros acc acc' H Ha.
  - cbn in *. destruct e; try discriminate. injection H as <-.
    exists acc. conjs; [reflexivity|lia|]. exists []. now rewrite app_nil_r.
  - cbn [collectLoop] in *.
    destruct (accumulate value acc c) as [acc1|err] eqn:A; [|discriminate].
    destruct (amount acc1 <? m') eqn:B'.
    + destruct (amount acc1 <? m) eqn:B.
      * apply (IH acc1 acc' H Ha).
      * exists acc1. apply Z.ltb_ge in B. conjs; [reflexivity|exact B|].
        apply loop_returned in H as (taken & rest & _ & Hc & _).
        exists taken. exact Hc.
    + injection H as <-. apply Z.ltb_ge in B'.
      destruct (amount acc1 <? m) eqn:B; [apply Z.ltb_lt in B; lia|].
      exists acc1. conjs; [reflexivity|lia|]. exists []. now rewrite app_nil_r.
Qed.

Hypothesis value_nonneg : forall c x, value c = Ok x -> 0 <= x.

(** Below the threshold all along, the loop ends as its source does. *)
Lemma loop_below (l : list ResolvedOutpoint) (e : Ending) :
  forall acc t,
    foldResult (addValue value) (amount acc) l = Ok t ->
    t < m ->
    collectLoop value m acc l e
    = match e with
      | Complete => Returned {| cells := cells acc ++ l; amount := t |}
      | Error err => Thrown err
      | Unfinished => Pending
      end.
Proof.
  induction l as [|c l IH]; intros acc t Hs Lt.
  - cbn in Hs. injection Hs as <-. cbn. destruct e; try reflexivity.
    rewrite app_nil_r. now destruct acc.
  - cbn in Hs. unfold addValue in Hs at 1.
    destruct (value c) as [x|] eqn:V; [|discriminate]. cbn in Hs.
    pose proof (sum_grows value value_nonneg _ _ _ Hs) as G.
    cbn [collectLoop]. unfold accumulate. rewrite V. cbn [bind amount].
    destruct (amount acc + x <? m) eqn:B; [|apply Z.ltb_ge in B; lia].
    rewrite (IH {| cells := cells acc ++ [c]; amount := amount acc + x |} t);
      cbn [cells amount]; try assumption.
    destruct e; try reflexivity. now rewrite <- app_assoc.
Qed.

End LoopMore.

Lemma balanceOf_returned (value : ResolvedOutpoint -> Result bigint)
  (source : Observable ResolvedOutpoint) (b : HexNumber) :
  balanceOf value source = Returned b ->
  exists t, ending source = Complete /\ total value (emitted source) = Ok t /\ b = toHex t.
Proof.
  unfold balanceOf. destruct (total value (emitted source)) as [t|]; [|discriminate].
  destruct (ending source); try discriminate. intros [= <-]. eauto.
Qed.

(** The balance decides whether a collection succeeds. *)
Lemma balance_decides (value : ResolvedOutpoint -> Result bigint)
  (insufficient : NoEnoughPayload -> JsError) (lock : Script) (minimal : HexNumber)
  (m : Z) (source : Observable ResolvedOutpoint) (b : HexNumber) :
  (forall c x, value c = Ok x -> 0 <= x) ->
  BigInt minimal = Ok m ->
  balanceOf value source = Returned b ->
  exists t,
    BigInt b = Ok t /\
    (t < m ->
     collectWith value insufficient lock minimal source
     = Thrown (insufficient {| err_lock := lock; expected := minimal; actual := b |})) /\
    (m <= t -> exists cs, collectWith value insufficient lock minimal source = Returned cs).
Proof.
  intros Hv P H. apply balanceOf_returned in H as (t & E & T & ->).
  exists t. split; [|split].
  - apply BigInt_toHex, (sum_grows value Hv _ _ _ T).
  - intros Lt. apply (collectWith_exhausted _ _ _ _ m _ _ Hv P E T Lt).
  - intros Ge. rewrite (collectWith_loop _ _ _ _ _ m P), E.
    destruct (loop_settles value m (emitted source) emptyAccumulator t T)
      as (acc & L & Ha).
    rewrite L. cbn [await].
    destruct (amount acc <? m) eqn:B; [|eauto].
    apply Z.ltb_lt in B. lia.
Qed.

(** X6. The balance decides the collection, for the same source: when
    a balance operation returns [b], [b] reads as a number; against a
    threshold above it the matching collect operation throws its
    insufficiency error with [b] itself for [actual], and against any
    other threshold it returns cells. *)
Theorem balance_decides_collection (this : MercuryProvider) (fuel : nat)
  (address : Address) (udt : CkbTypeScript) (minimal : HexNumber) (m : Z) :
  BigInt minimal = Ok m ->
  (forall b,
     getCkbLiveCellsBalance this fuel address = Returned b ->
     exists lock t,
       parseToScript this address = Ok lock /\ BigInt b = Ok t /\
       (t < m ->
        collectCkbLiveCells this fuel address minimal
        = Thrown (NoEnoughCkbError
                    {| err_lock := lock; expected := minimal; actual := b |})) /\
       (m <= t -> exists cs, collectCkbLiveCells this fuel address minimal = Returned cs)) /\
  (forall b,
     getUdtBalance this fuel address udt = Returned b ->
     exists lock t,
       parseToScript this address = Ok lock /\ BigInt b = Ok t /\
       (t < m ->
        collectUdtCells this fuel address udt minimal
        = Thrown (NoEnoughUdtError
                    {| err_lock := lock; expected := minimal; actual := b |})) /\
       (m <= t -> exists cs, collectUdtCells this fuel address udt minimal = Returned cs)).
Proof.
  intros P. rewrite getCkbLiveCellsBalance_eq, getUdtBalance_eq,
    collectCkbLiveCells_eq, collectUdtCells_eq.
  split; intros b H; apply parsed_lock in H as (lock & L & H);
    rewrite L; cbn [settle await].
  - destruct (balance_decides capacityOf NoEnoughCkbError lock minimal m _ b
                capacityOf_nonneg P H) as (t & Hb & Hlt & Hge).
    exists lock, t. auto.
  - destruct (balance_decides udtAmountOf NoEnoughUdtError lock minimal m _ b
                udtAmountOf_nonneg P H) as (t & Hb & Hlt & Hge).
    exists lock, t. auto.
Qed.

Lemma balance_decides_collection_witness :
  (BigInt "0x3d" = Ok 61 /\
   getCkbLiveCellsBalance twoPages 3 "ckt1sender" = Returned "0x3c") /\
  exists lock t,
    parseToScript twoPages "ckt1sender" = Ok lock /\ BigInt "0x3c" = Ok t /\
    (t < 61 ->
     collectCkbLiveCells twoPages 3 "ckt1sender" "0x3d"
     = Thrown (NoEnoughCkbError
                 {| err_lock := lock; expected := "0x3d"; actual := "0x3c" |})) /\
    (61 <= t -> exists cs, collectCkbLiveCells twoPages 3 "ckt1sender" "0x3d" = Returned cs).
Proof.
  split; [split; reflexivity|].
  apply (proj1 (balance_decides_collection twoPages 3 "ckt1sender" sudt0 "0x3d" 61 eq_refl)
           "0x3c").
  reflexivity.
Defined.

Lemma collectWith_threshold_mono (value : ResolvedOutpoint -> Result bigint)
  (insufficient : NoEnoughPayload -> JsError) (lock : Script)
  (minimal minimal' : HexNumber) (m m' : Z)
  (source : Observable ResolvedOutpoint) (cs' : list ResolvedOutpoint) :
  BigInt minimal = Ok m -> BigInt minimal' = Ok m' -> m <= m' ->
  collectWith value insufficient lock minimal' source = Returned cs' ->
  exists cs,
    collectWith value insufficient lock minimal source = Returned cs /\ prefixOf cs cs'.
Proof.
  intros P P' Hm H.
  apply collectWith_returned in H as (m1 & acc' & P1 & L & Ha & ->).
  rewrite P' in P1. injection P1 as <-.
  destruct (loop_threshold_mono value m m' _ _ Hm _ _ L Ha) as (acc & L' & Ha' & Hp).
  exists (cells acc). split; [|exact Hp].
  rewrite (collectWith_loop _ _ _ _ _ m P), L'. cbn [await].
  destruct (amount acc <? m) eqn:B; [apply Z.ltb_lt in B; lia|reflexivity].
Qed.

(** X7. Lowering the threshold never asks for other cells: when a
    collect operation returns cells for a threshold, it returns, for any
    lower threshold and the same source, a beginning of those cells. *)
Theorem lower_threshold_takes_a_prefix (this : MercuryProvider) (fuel : nat)
  (address : Address) (udt : CkbTypeScript) (minimal minimal' : HexNumber) (m m' : Z) :
  BigInt minimal = Ok m -> BigInt minimal' = Ok m' -> m <= m' ->
  (forall cs',
     collectCkbLiveCells this fuel address minimal' = Returned cs' ->
     exists cs,
       collectCkbLiveCells this fuel address minimal = Returned cs /\ prefixOf cs cs') /\
  (forall cs',
     collectUdtCells this fuel address udt minimal' = Returned cs' ->
     exists cs,
       collectUdtCells this fuel address udt minimal = Returned cs /\ prefixOf cs cs').
Proof.
  intros P P' Hm. rewrite !collectCkbLiveCells_eq, !collectUdtCells_eq.
  split; intros cs' H; apply parsed_lock in H as (lock & L & H);
    rewrite L; cbn [settle await];
    apply (collectWith_threshold_mono _ _ _ _ _ m m' _ _ P P' Hm H).
Qed.

Lemma lower_threshold_takes_a_prefix_witness :
  (BigInt "0x32" = Ok 50 /\ BigInt "0x78" = Ok 120 /\ 50 <= 120 /\
   collectCkbLiveCells threeCkbCells 3 "ckt1sender" "0x78"
   = Returned [ckbCell 1 100; ckbCell 2 50]) /\
  exists cs,
    collectCkbLiveCells threeCkbCells 3 "ckt1sender" "0x32" = Returned cs /\
    prefixOf cs [ckbCell 1 100; ckbCell 2 50].
Proof.
  split; [conjs; [reflexivity|reflexivity|lia|reflexivity]|].
  apply (proj1 (lower_threshold_takes_a_prefix threeCkbCells 3 "ckt1sender" sudt0
                  "0x32" "0x78" 50 120 eq_refl eq_refl ltac:(lia))).
  reflexivity.
Defined.

Lemma cellStream_fails_by_transport (this : MercuryProvider) (key : SearchKey)
  (fuel : nat) (e : JsError) :
  ending (cellStream this key fuel) = Error e -> exists message, e = TransportError message.
Proof.
  unfold cellStream, concatMap, pages, takeWhile. cbn [ending].
  destruct (takeWhileList_ending (fun res => (0 <? List.length (objects res))%nat) false
              (emitted (responses this key fuel)) (ending (responses this key fuel)))
    as [H|H]; unfold nonEmptyPage; rewrite H; [|discriminate].
  destruct (responses_ending this key fuel) as [R|(message & R)]; rewrite R;
    [discriminate|]. intros [= <-]. eauto.
Qed.

Lemma collectWith_fails (value : ResolvedOutpoint -> Result bigint)
  (insufficient : NoEnoughPayload -> JsError) (lock : Script) (minimal : HexNumber)
  (m : Z) (source : Observable ResolvedOutpoint) (e : JsError) (t : Z) :
  (forall c x, value c = Ok x -> 0 <= x) ->
  BigInt minimal = Ok m ->
  ending source = Error e ->
  total value (emitted source) = Ok t -> t < m ->
  collectWith value insufficient lock minimal source = Thrown e.
Proof.
  intros Hv P E T Lt. rewrite (collectWith_loop _ _ _ _ _ m P), E.
  now rewrite (loop_below value m Hv (emitted source) (Error e) emptyAccumulator t T Lt).
Qed.

Lemma balanceOf_fails (value : ResolvedOutpoint -> Result bigint)
  (source : Observable ResolvedOutpoint) (e : JsError) (t : Z) :
  ending source = Error e ->
  total value (emitted source) = Ok t ->
  balanceOf value source = Thrown e.
Proof. intros E T. unfold balanceOf. now rewrite T, E. Qed.

(** X8. A failure of the indexer aborts the call: when a request fails
    before an empty page is received, a collect operation whose cells so
    far add up to less than the threshold throws that failure, a
    transport error, and no insufficiency error, and returns none of the
    cells gathered; a balance operation throws it whatever the sum so
    far. *)
Theorem transport_failure_aborts (this : MercuryProvider) (fuel : nat)
  (address : Address) (udt : CkbTypeScript) (minimal : HexNumber) (lock : Script) (m : Z) :
  parseToScript this address = Ok lock ->
  BigInt minimal = Ok m ->
  (forall e t,
     ending (ckbCells this lock fuel) = Error e ->
     total capacityOf (emitted (ckbCells this lock fuel)) = Ok t ->
     (exists message, e = TransportError message) /\
     getCkbLiveCellsBalance this fuel address = Thrown e /\
     (t < m -> collectCkbLiveCells this fuel address minimal = Thrown e)) /\
  (forall e t,
     ending (udtCells this lock udt fuel) = Error e ->
     total udtAmountOf (emitted (udtCells this lock udt fuel)) = Ok t ->
     (exists message, e = TransportError message) /\
     getUdtBalance this fuel address udt = Thrown e /\
     (t < m -> collectUdtCells this fuel address udt minimal = Thrown e)).
Proof.
  intros L P. rewrite getCkbLiveCellsBalance_eq, getUdtBalance_eq,
    collectCkbLiveCells_eq, collectUdtCells_eq, L. cbn [settle await].
  split; intros e t E T; (split; [|split]).
  - apply (cellStream_fails_by_transport this (ckbSearchKey lock) fuel e E).
  - apply (balanceOf_fails _ _ _ _ E T).
  - intros Lt. apply (collectWith_fails _ _ _ _ m _ _ t capacityOf_nonneg P E T Lt).
  - apply (cellStream_fails_by_transport this (udtSearchKey lock udt) fuel e E).
  - apply (balanceOf_fails _ _ _ _ E T).
  - intros Lt. apply (collectWith_fails _ _ _ _ m _ _ t udtAmountOf_nonneg P E T Lt).
Qed.

(** One page of 100, then the indexer is unreachable. *)
Lemma transport_failure_aborts_witness :
  (parseToScript (failingAfter [[ckbCell 1 100]] "ECONNRESET") "ckt1sender" = Ok script0 /\
   BigInt "0x78" = Ok 120 /\
   ending (ckbCells (failingAfter [[ckbCell 1 100]] "ECONNRESET") script0 3)
   = Error (TransportError "ECONNRESET") /\
   total capacityOf (emitted (ckbCells (failingAfter [[ckbCell 1 100]] "ECONNRESET") script0 3))
   = Ok 100 /\
   100 < 120) /\
  getCkbLiveCellsBalance (failingAfter [[ckbCell 1 100]] "ECONNRESET") 3 "ckt1sender"
  = Thrown (TransportError "ECONNRESET") /\
  collectCkbLiveCells (failingAfter [[ckbCell 1 100]] "ECONNRESET") 3 "ckt1sender" "0x78"
  = Thrown (TransportError "ECONNRESET").
Proof.
  split; [conjs; [reflexivity|reflexivity|reflexivity|reflexivity|lia]|].
  destruct (proj1 (transport_failure_aborts
                     (failingAfter [[ckbCell 1 100]] "ECONNRESET") 3 "ckt1sender" sudt0
                     "0x78" script0 120 eq_refl eq_refl)
              (TransportError "ECONNRESET") 100 eq_refl eq_refl) as (_ & B & C).
  split; [exact B|]. apply C. lia.
Defined.

(** X9. A collect operation returns no cell only for threshold 0 over a
    source that is exhausted without a single matching cell. *)
Theorem empty_result_means_empty_source (this : MercuryProvider) (fuel : nat)
  (address : Address) (udt : CkbTypeScript) (minimal : HexNumber) :
  (collectCkbLiveCells this fuel address minimal = Returned [] ->
   exists lock,
     parseToScript this address = Ok lock /\ BigInt minimal = Ok 0 /\
     emitted (ckbCells this lock fuel) = [] /\
     ending (ckbCells this lock fuel) = Complete) /\
  (collectUdtCells this fuel address udt minimal = Returned [] ->
   exists lock,
     parseToScript this address = Ok lock /\ BigInt minimal = Ok 0 /\
     emitted (udtCells this lock udt fuel) = [] /\
     ending (udtCells this lock udt fuel) = Complete).
Proof.
  rewrite collectCkbLiveCells_eq, collectUdtCells_eq.
  split; intros H; apply parsed_lock in H as (lock & L & H); exists lock;
    (split; [exact L|]);
    apply collectWith_returned in H as (m & acc & P & Lp & Ha & Hc);
    apply loop_returned in Lp as (taken & rest & El & Hcs & Hs & _ & He);
    cbn [cells amount emptyAccumulator app] in Hcs, Hs;
    rewrite <- Hc in Hcs; subst taken;
    destruct (He (or_introl eq_refl)) as [-> Hend];
    cbn in Hs; injection Hs as Hs;
    pose proof (BigInt_nonneg _ _ P) as Hn;
    (assert (m = 0) as -> by lia); auto.
Qed.

Lemma empty_result_means_empty_source_witness :
  collectCkbLiveCells (providerOf []) 3 "ckt1sender" "0x0" = Returned [] /\
  exists lock,
    parseToScript (providerOf []) "ckt1sender" = Ok lock /\ BigInt "0x0" = Ok 0 /\
    emitted (ckbCells (providerOf []) lock 3) = [] /\
    ending (ckbCells (providerOf []) lock 3) = Complete.
Proof.
  split; [reflexivity|].
  apply (proj1 (empty_result_means_empty_source (providerOf []) 3 "ckt1sender" sudt0 "0x0")).
  reflexivity.
Defined.

(** ** The poller: what holds when it returns *)

Lemma roundDouble_exact (n : Z) : 0 <= n <= 2 ^ 53 -> roundDouble n = n.
Proof.
  intros [Lo Hi]. destruct (Z.eq_dec n (2 ^ 53)) as [->|Ne]; [reflexivity|].
  unfold roundDouble.
  destruct (Z.eq_dec n 0) as [->|Nz]; [reflexivity|].
  assert (Z.log2 n < 53) as L by (apply Z.log2_lt_pow2; lia).
  apply Z.ltb_lt in L. rewrite L. reflexivity.
Qed.

Lemma Number_exact (s : HexNumber) (n : Z) :
  BigInt s = Ok n -> n <= 2 ^ 53 -> Number s = Finite n.
Proof.
  intros B Hi. unfold Number. rewrite B. cbv zeta.
  rewrite roundDouble_exact by (split; [apply (BigInt_nonneg _ _ B) | exact Hi]).
  destruct (2 ^ 1024 <=? n) eqn:G; [|reflexivity].
  apply Z.leb_le in G.
  assert (2 ^ 53 < 2 ^ 1024) by (apply Z.pow_lt_mono_r; lia). lia.
Qed.

Lemma Number_parses (s : HexNumber) : Number s <> NaN -> exists n, BigInt s = Ok n.
Proof.
  unfold Number. destruct (BigInt s) as [n|e]; [eauto|]. intros H. now contradiction H.
Qed.

(** Where the ledger tip is exact as a double, [>=] on the doubles is
    the order of the block numbers themselves. *)
Lemma geNumber_true (indexerTip ledgerTip : HexNumber) :
  geNumber (Number indexerTip) (Number ledgerTip) = true ->
  exists indexer ledger,
    BigInt indexerTip = Ok indexer /\ BigInt ledgerTip = Ok ledger /\
    (ledger <= 2 ^ 53 -> ledger <= indexer).
Proof.
  intros Ge.
  destruct (Number_parses indexerTip) as [indexer Bi];
    [intros E; rewrite E in Ge; discriminate|].
  destruct (Number_parses ledgerTip) as [ledger Bl];
    [intros E; rewrite E in Ge; destruct (Number indexerTip); discriminate|].
  exists indexer, ledger. split; [exact Bi|]. split; [exact Bl|]. intros Hl.
  destruct (Z_le_gt_dec indexer (2 ^ 53)) as [Hi|Hi]; [|lia].
  rewrite (Number_exact _ _ Bi Hi), (Number_exact _ _ Bl Hl) in Ge.
  cbn in Ge. apply Z.leb_le in Ge. exact Ge.
Qed.

Lemma awaitIndexer_returned {World : Type} (chain : Chain World)
  (pollInterval timeout start : Z) (rpcTip : JsNumber) (fuel : nat) :
  forall w w',
    awaitIndexer chain pollInterval timeout start rpcTip fuel w = (Returned tt, w') ->
    timeout < Date_now chain w' - start \/
    exists wq tipq,
      Date_now chain wq - start <= timeout /\
      mercury_get_tip chain wq = (Ok tipq, w') /\
      geNumber (Number (block_number tipq)) rpcTip = true.
Proof.
  induction fuel as [|fuel IH]; intros w w' H; cbn [awaitIndexer] in H; [discriminate|].
  destruct (Date_now chain w - start <=? timeout) eqn:G.
  - apply Z.leb_le in G.
    destruct (mercury_get_tip chain w) as [[tipq|e] w1] eqn:M; [|discriminate].
    destruct (geNumber (Number (block_number tipq)) rpcTip) eqn:Ge.
    + injection H as <-. right. exists w, tipq. auto.
    + apply (IH _ _ H).
  - injection H as <-. left. apply Z.leb_gt in G. lia.
Qed.

(** X10. When [waitForTransactionCommitted] returns, the ledger tip has
    been read, and either the clock is past the budget counted from the
    start, or the last answer of the indexer, asked within the budget,
    gave a block number that, as a double, is at or above the ledger tip
    as a double: both are hexadecimal literals, and where the ledger tip
    is at most 2^53, so that its double is exact, the indexer's block
    number is at or above it as an integer. Beyond 2^53 the comparison
    of the doubles decides: the indexer one block behind the ledger tip
    2^53 + 1 counts as caught up. *)
Theorem returns_caught_up_or_timed_out {World : Type} (chain : Chain World)
  (fuel : nat) (txHash : Hash) (options : PollOptions) (w : World)
  (result : option Transaction) (w' : World) :
  waitForTransactionCommitted chain fuel txHash options w = (Returned result, w') ->
  (exists w1 tip w2,
     rpc_get_tip_block_number chain w1 = (Ok tip, w2) /\
     (timeoutOf options < Date_now chain w' - Date_now chain w \/
      exists wq tipq ledger indexer,
        Date_now chain wq - Date_now chain w <= timeoutOf options /\
        mercury_get_tip chain wq = (Ok tipq, w') /\
        geNumber (Number (block_number tipq)) (Number tip) = true /\
        BigInt tip = Ok ledger /\
        BigInt (block_number tipq) = Ok indexer /\
        (ledger <= 2 ^ 53 -> ledger <= indexer))) /\
  geNumber (Number (toHex (2 ^ 53))) (Number (toHex (2 ^ 53 + 1))) = true.
Proof.
  intros H. split; [|reflexivity]. revert H.
  unfold waitForTransactionCommitted.
  fold (intervalOf options). fold (timeoutOf options).
  destruct (awaitCommitted chain txHash (intervalOf options) (timeoutOf options)
              (Date_now chain w) fuel w) as [[result1| e1 |] w1]; try discriminate.
  destruct (rpc_get_tip_block_number chain w1) as [[tip|e2] w2] eqn:T; [|discriminate].
  destruct (awaitIndexer chain (intervalOf options) (timeoutOf options)
              (Date_now chain w) (Number tip) fuel w2) as [[[]| e3 |] w3] eqn:I;
    try discriminate.
  intros [= <- <-]. exists w1, tip, w2. split; [exact T|].
  apply awaitIndexer_returned in I as [I|(wq & tipq & G & M & Ge)]; [now left|right].
  destruct (geNumber_true _ _ Ge) as (indexer & ledger & Bi & Bl & Le).
  exists wq, tipq, ledger, indexer. auto 7.
Qed.

(** The ledger at block 2^53 + 1 and the indexer at block 2^53: the first
    answer of the indexer ends the wait. *)
Lemma returns_caught_up_or_timed_out_witness :
  waitForTransactionCommitted (roundingChain (2 ^ 53 + 1) (2 ^ 53)) 5 "0xabc" defaultOptions 0
  = (Returned (Some (TransactionBody "{}")), 30) /\
  (exists w1 tip w2,
     rpc_get_tip_block_number (roundingChain (2 ^ 53 + 1) (2 ^ 53)) w1 = (Ok tip, w2) /\
     (timeoutOf defaultOptions
      < Date_now (roundingChain (2 ^ 53 + 1) (2 ^ 53)) 30
        - Date_now (roundingChain (2 ^ 53 + 1) (2 ^ 53)) 0 \/
      exists wq tipq ledger indexer,
        Date_now (roundingChain (2 ^ 53 + 1) (2 ^ 53)) wq
        - Date_now (roundingChain (2 ^ 53 + 1) (2 ^ 53)) 0 <= timeoutOf defaultOptions /\
        mercury_get_tip (roundingChain (2 ^ 53 + 1) (2 ^ 53)) wq = (Ok tipq, 30) /\
        geNumber (Number (block_number tipq)) (Number tip) = true /\
        BigInt tip = Ok ledger /\
        BigInt (block_number tipq) = Ok indexer /\
        (ledger <= 2 ^ 53 -> ledger <= indexer))) /\
  geNumber (Number (toHex (2 ^ 53))) (Number (toHex (2 ^ 53 + 1))) = true.
Proof.
  split; [reflexivity|].
  apply (returns_caught_up_or_timed_out (roundingChain (2 ^ 53 + 1) (2 ^ 53)) 5 "0xabc"
           defaultOptions 0 (Some (TransactionBody "{}")) 30).
  reflexivity.
Defined.

(** X11. With a negative budget, and a clock that does not run backwards
    while the ledger tip is read, [waitForTransactionCommitted] asks for
    the transaction and for the indexer tip not even once: it reads the
    ledger tip, then returns null, or throws what reading the tip threw. *)
Theorem negative_budget_polls_nothing {World : Type} (chain : Chain World)
  (fuel : nat) (txHash : Hash) (options : PollOptions) (w : World) :
  timeoutOf options < 0 ->
  (0 < fuel)%nat ->
  Date_now chain w <= Date_now chain (snd (rpc_get_tip_block_number chain w)) ->
  waitForTransactionCommitted chain fuel txHash options w
  = match rpc_get_tip_block_number chain w with
    | (Ok _, w2) => (Returned None, w2)
    | (Throw e, w2) => (Thrown e, w2)
    end.
Proof.
  intros Ht Hf Hc. destruct fuel as [|fuel]; [lia|].
  unfold waitForTransactionCommitted.
  fold (intervalOf options). fold (timeoutOf options).
  cbn [awaitCommitted].
  replace (Date_now chain w - Date_now chain w <=? timeoutOf options) with false
    by (symmetry; apply Z.leb_gt; lia).
  destruct (rpc_get_tip_block_number chain w) as [[tip|e] w2]; [|reflexivity].
  cbn [snd] in Hc. rewrite awaitIndexer_late by lia. reflexivity.
Qed.

Lemma negative_budget_polls_nothing_witness :
  (timeoutOf {| pollIntervalMs := None; timeoutMs := Some (-1) |} < 0 /\
   (0 < 5)%nat /\
   Date_now (clockChain 0) 0
   <= Date_now (clockChain 0) (snd (rpc_get_tip_block_number (clockChain 0) 0))) /\
  waitForTransactionCommitted (clockChain 0) 5 "0xabc"
    {| pollIntervalMs := None; timeoutMs := Some (-1) |} 0
  = (Returned None, 10).
Proof.
  split; [conjs; [reflexivity|lia|cbn; lia]|].
  apply (negative_budget_polls_nothing (clockChain 0) 5 "0xabc"
           {| pollIntervalMs := None; timeoutMs := Some (-1) |} 0);
    [reflexivity|lia|cbn; lia].
Defined.

(** ** The transfer builder: what the rejection depends on *)

Lemma build_rejects_iff (this : AcpTransferSudtBuilder.t) :
  fst (AcpTransferSudtBuilder.build this) = [] <->
  In (AcpTransferSudtBuilder.sender this)
     (List.map AcpTransferSudtBuilder.recipient
        (AcpTransferSudtBuilder.recipients (AcpTransferSudtBuilder.options this))).
Proof.
  unfold AcpTransferSudtBuilder.build.
  destruct (find _ _) as [found|] eqn:F; cbn [fst].
  - apply find_some in F as [Hin Heq]. apply String.eqb_eq in Heq.
    split; [|reflexivity]. intros _. rewrite <- Heq. now apply in_map.
  - split; [discriminate|]. intros H. apply in_map_iff in H as (option & Heq & Hin).
    apply (find_none _ _ F) in Hin. apply String.eqb_neq in Hin. contradiction.
Qed.

Lemma build_rejection (this : AcpTransferSudtBuilder.t) :
  fst (AcpTransferSudtBuilder.build this) = [] ->
  AcpTransferSudtBuilder.build this
  = ([], Thrown (RecipientSameWithSenderError (AcpTransferSudtBuilder.sender this))).
Proof.
  unfold AcpTransferSudtBuilder.build. destruct (find _ _); [reflexivity|discriminate].
Qed.

(** X12. Whether [build] rejects depends on the sender and on the
    recipients' addresses alone, not on their order, number, token,
    amount or policy: a transfer that is rejected stays rejected, with
    the same error, for any options that name at least the same recipient
    addresses. *)
Theorem rejection_depends_on_addresses (this other : AcpTransferSudtBuilder.t) :
  AcpTransferSudtBuilder.sender other = AcpTransferSudtBuilder.sender this ->
  (forall a,
     In a (List.map AcpTransferSudtBuilder.recipient
             (AcpTransferSudtBuilder.recipients (AcpTransferSudtBuilder.options this))) ->
     In a (List.map AcpTransferSudtBuilder.recipient
             (AcpTransferSudtBuilder.recipients (AcpTransferSudtBuilder.options other)))) ->
  fst (AcpTransferSudtBuilder.build this) = [] ->
  AcpTransferSudtBuilder.build other
  = ([], Thrown (RecipientSameWithSenderError (AcpTransferSudtBuilder.sender this))).
Proof.
  intros S Sub H. apply build_rejects_iff in H. apply Sub in H.
  rewrite <- S in H. apply build_rejects_iff in H.
  rewrite (build_rejection other H). now rewrite S.
Qed.

Lemma rejection_depends_on_addresses_witness :
  (AcpTransferSudtBuilder.sender (transferBuilder "ckt1alice" ["ckt1alice"; "ckt1bob"] Pending)
   = AcpTransferSudtBuilder.sender (transferBuilder "ckt1alice" ["ckt1bob"; "ckt1alice"] Pending) /\
   fst (AcpTransferSudtBuilder.build
          (transferBuilder "ckt1alice" ["ckt1bob"; "ckt1alice"] Pending)) = []) /\
  AcpTransferSudtBuilder.build (transferBuilder "ckt1alice" ["ckt1alice"; "ckt1bob"] Pending)
  = ([], Thrown (RecipientSameWithSenderError "ckt1alice")).
Proof.
  split; [split; reflexivity|].
  apply (rejection_depends_on_addresses
           (transferBuilder "ckt1alice" ["ckt1bob"; "ckt1alice"] Pending)
           (transferBuilder "ckt1alice" ["ckt1alice"; "ckt1bob"] Pending)).
  - reflexivity.
  - intros a H. cbn in H |- *. tauto.
  - reflexivity.
Defined.

(** ** MercuryProvider: the pages after the last one needed *)

Lemma cellStream_of_responses (this other : MercuryProvider) (key : SearchKey) (fuel : nat) :
  responses other key fuel = responses this key fuel ->
  cellStream other key fuel = cellStream this key fuel.
Proof. intros H. unfold cellStream, pages. now rewrite H. Qed.

(** X13. What a collect operation has settled to from the first
    responses of an indexer, it settles to with any indexer that gives
    the same first responses, whatever that one answers or fails with
    afterwards and however far it is followed. *)
Theorem later_pages_are_irrelevant (this other : MercuryProvider) (fuel fuel' : nat)
  (address : Address) (udt : CkbTypeScript) (minimal : HexNumber) (lock : Script) :
  parseToScript this address = Ok lock ->
  parseToScript other address = Ok lock ->
  (fuel <= fuel')%nat ->
  (responses other (ckbSearchKey lock) fuel = responses this (ckbSearchKey lock) fuel ->
   collectCkbLiveCells this fuel address minimal <> Pending ->
   collectCkbLiveCells other fuel' address minimal
   = collectCkbLiveCells this fuel address minimal) /\
  (responses other (udtSearchKey lock udt) fuel = responses this (udtSearchKey lock udt) fuel ->
   collectUdtCells this fuel address udt minimal <> Pending ->
   collectUdtCells other fuel' address udt minimal
   = collectUdtCells this fuel address udt minimal).
Proof.
  intros L L' Hf.
  destruct (fuel_monotone other fuel fuel' address udt minimal Hf) as (Mc & Mu & _).
  split; intros R N.
  - assert (E : collectCkbLiveCells other fuel address minimal
                = collectCkbLiveCells this fuel address minimal).
    { rewrite !collectCkbLiveCells_eq, L, L'. cbn [settle await]. unfold ckbCells.
      now rewrite (cellStream_of_responses this other _ fuel R). }
    rewrite <- E. apply Mc. now rewrite E.
  - assert (E : collectUdtCells other fuel address udt minimal
                = collectUdtCells this fuel address udt minimal).
    { rewrite !collectUdtCells_eq, L, L'. cbn [settle await]. unfold udtCells.
      now rewrite (cellStream_of_responses this other _ fuel R). }
    rewrite <- E. apply Mu. now rewrite E.
Qed.

(** The threshold 120 is reached within the first page: that the indexer
    fails after it goes unnoticed. *)
Lemma later_pages_are_irrelevant_witness :
  (parseToScript threeCkbCells "ckt1sender" = Ok script0 /\
   parseToScript (failingAfter [[ckbCell 1 100; udtCell 9 142 5; ckbCell 2 50]] "ECONNRESET")
     "ckt1sender" = Ok script0 /\
   (0 <= 3)%nat /\
   responses (failingAfter [[ckbCell 1 100; udtCell 9 142 5; ckbCell 2 50]] "ECONNRESET")
     (ckbSearchKey script0) 0
   = responses threeCkbCells (ckbSearchKey script0) 0 /\
   collectCkbLiveCells threeCkbCells 0 "ckt1sender" "0x78" <> Pending) /\
  collectCkbLiveCells
    (failingAfter [[ckbCell 1 100; udtCell 9 142 5; ckbCell 2 50]] "ECONNRESET")
    3 "ckt1sender" "0x78"
  = collectCkbLiveCells threeCkbCells 0 "ckt1sender" "0x78".
Proof.
  assert (N : collectCkbLiveCells threeCkbCells 0 "ckt1sender" "0x78" <> Pending)
    by discriminate.
  split; [conjs; [reflexivity|reflexivity|lia|reflexivity|exact N]|].
  apply (proj1 (later_pages_are_irrelevant threeCkbCells
                  (failingAfter [[ckbCell 1 100; udtCell 9 142 5; ckbCell 2 50]] "ECONNRESET")
                  0 3 "ckt1sender" sudt0 "0x78" script0 eq_refl eq_refl ltac:(lia)));
    [reflexivity|exact N].
Defined.
